(** * Follow the money: a shallow embedding of the tracking engine

    The development embeds [src/initialize.py] and [src/follow.py].

    Conventions of the embedding.
    - Python numbers (amounts, fees, balances, factors) are rationals [Q];
      comparisons are the exact ones, [x / 0] raises [ZeroDivisionError]
      as Python's true division does.  The rounding of floats, [inf] and
      [nan] are not part of this embedding: where the program compares a
      rounded sum or difference with a limit or with a balance, it can
      take the other branch at the boundary.  The amounts and the check
      of [Transaction.__init__] are embedded once more over floats in
      the module [Float].
    - [datetime] values are [Z] (seconds), [timedelta] values are [Z] too;
      [datetime.strftime] is the identity on that representation.
    - Exceptions are values of [exn]; a fallible pure computation has type
      [Res A]; code that mutates a tracker keeps its mutations when it
      raises ([TM]); code of the driver also keeps the flows it has already
      yielded ([EM]).
    - An account object is referred to by its [acct_ID]; [System.accounts]
      is an association list in insertion order, as a Python dict is.
    - A [Branch] holds its parent by value. The only attribute of a parent
      that the program ever changes after a child was made is [amt]
      (well-mixed [depreciate]); the only place it is read through [prev]
      is [Branch.new_leaves(.., skip_leaf=True)], and
      [Well_mixed_tracker.extend_branches] re-points the children it
      returns at the final state of their parents for that reason. *)

From Stdlib Require Import QArith ZArith List String Bool Arith Lia Lqa.
From stdpp Require Import base list gmap strings.
Import ListNotations.

Local Open Scope string_scope.
Local Open Scope list_scope.
Local Open Scope Q_scope.
#[local] Set Warnings "-register-all".

(** ** Python-level plumbing *)

Module Py.

Inductive exn : Type :=
| ValueError | ZeroDivisionError | TypeError | AttributeError
| IndexError | UnboundLocalError | KeyError | MemoryError.

Inductive Res (A : Type) : Type :=
| OK (a : A)
| Raise (e : exn).
Arguments OK {A} a.
Arguments Raise {A} e.

Definition bind {A B} (m : Res A) (f : A -> Res B) : Res B :=
  match m with
  | OK a => f a
  | Raise e => Raise e
  end.

(** [x / y] on Python numbers. *)
Definition div (x y : Q) : Res Q :=
  if Qeq_bool y 0 then Raise ZeroDivisionError else OK (x / y).

(** [x < y], [x > y] as tests. *)
Definition ltb (x y : Q) : bool := negb (Qle_bool y x).
Definition gtb (x y : Q) : bool := ltb y x.

(** Truth value of a number: [if fee] is false for [0]. *)
Definition truthy (x : Q) : bool := negb (Qeq_bool x 0).

(** [min(x, y)]: the first argument unless the second is smaller;
    [max(x, y)]: the first argument unless the second is larger. *)
Definition min (x y : Q) : Q := if ltb y x then y else x.
Definition max (x y : Q) : Q := if gtb y x then y else x.

(** [sum(...)] over a list of numbers. *)
Definition sum (l : list Q) : Q := fold_left Qplus l 0.

(** [[f(x) for x in l]] when [f] may raise. *)
Fixpoint comprehension {A B} (f : A -> Res B) (l : list A) : Res (list B) :=
  match l with
  | [] => OK []
  | x :: l' => bind (f x) (fun y => bind (comprehension f l') (fun ys => OK (y :: ys)))
  end.

End Py.
Import Py.

#[global] Instance Res_bind : MBind Res := fun A B f m => Py.bind m f.
#[global] Instance Res_ret : MRet Res := @OK.

(** ** initialize.py: System, Transaction, Account *)

Inductive FeeConvention : Type := sender | recipient | split.
Inductive BalanceType : Type := pre | post.

(** The keys of [txn_dict] that the engine reads.  [src_fee] and [tgt_fee]
    may be absent from the header; reading an absent attribute raises. *)
Record TxnDict : Type := mkTxnDict {
  d_txn_ID : string;
  d_timestamp : Z;
  d_amt : Q;
  d_src_fee : option Q;
  d_tgt_fee : option Q;
  d_type : string;
  d_categ : string;
  d_src_balance : option Q;
  d_tgt_balance : option Q
}.

Definition attr (o : option Q) : Res Q :=
  match o with
  | Some x => OK x
  | None => Raise AttributeError
  end.

(** [System.get_amounts]: the lambda installed by [System.__init__]
    ([None]) or by [System.define_fee_accounting]. *)
Definition get_amounts (fee_convention : option FeeConvention) (d : TxnDict)
  : Res (Q * Q * Q) :=
  match fee_convention with
  | None => OK (d_amt d, d_amt d, 0)
  | Some sender =>
      sf ← attr (d_src_fee d);
      OK (d_amt d + sf, d_amt d, sf)
  | Some recipient =>
      tf ← attr (d_tgt_fee d);
      OK (d_amt d, d_amt d - tf, tf)
  | Some split =>
      sf ← attr (d_src_fee d);
      tf ← attr (d_tgt_fee d);
      OK (d_amt d + sf, d_amt d - tf, sf + tf)
  end.

Record Transaction : Type := mkTransaction {
  src : string;
  tgt : string;
  txn_ID : string;
  timestamp : Z;
  type : string;
  categ : string;
  amt_out : Q;
  amt_in : Q;
  fee : Q;
  fee_scaling : option Q;
  src_balance : option Q;
  tgt_balance : option Q
}.

(** [Transaction.__init__], over exact numbers ([Float.Transaction_init]
    has its check over floats). *)
Definition Transaction_init (fee_convention : option FeeConvention)
    (src tgt : string) (d : TxnDict) : Res Transaction :=
  '(out, inn, f) ← get_amounts fee_convention d;
  if ltb out inn then Raise ValueError
  else
    OK {| src := src; tgt := tgt;
          txn_ID := d_txn_ID d; timestamp := d_timestamp d;
          type := d_type d; categ := d_categ d;
          amt_out := out; amt_in := inn; fee := f;
          fee_scaling := match div f inn with
                         | OK s => Some s
                         | Raise _ => None
                         end;
          src_balance := d_src_balance d; tgt_balance := d_tgt_balance d |}.

(** ** Floats at the check of [Transaction.__init__]

    The amounts of a row are what [float()] made of its fields: a finite
    number, an infinity or [nan].  A comparison with [nan] is false
    whichever way it is asked.  What [+] and [-] return (the rounding,
    an overflow, [inf - inf]) is a parameter of the definitions. *)

Module Float.

Inductive float : Type :=
| fin (q : Q)
| inf (negative : bool)
| nan.

(** [x < y] and [x <= y]. *)
Definition lt (x y : float) : bool :=
  match x, y with
  | fin p, fin q => Py.ltb p q
  | fin _, inf negative => negb negative
  | inf negative, fin _ => negative
  | inf negative, inf negative' => negative && negb negative'
  | nan, _ | _, nan => false
  end.

Definition le (x y : float) : bool :=
  match x, y with
  | fin p, fin q => Qle_bool p q
  | fin _, inf negative => negb negative
  | inf negative, fin _ => negative
  | inf negative, inf negative' => negative || negb negative'
  | nan, _ | _, nan => false
  end.

(** [x >= y] is [y <= x]. *)
Definition ge (x y : float) : bool := le y x.

(** The attributes of a row that [System.get_amounts] reads. *)
Record Amounts : Type := mkAmounts {
  f_amt : float;
  f_src_fee : option float;
  f_tgt_fee : option float
}.

Definition attr (o : option float) : Res float :=
  match o with
  | Some x => OK x
  | None => Raise AttributeError
  end.

Section Arithmetic.

Variables add sub : float -> float -> float.

(** [System.get_amounts]. *)
Definition get_amounts (fee_convention : option FeeConvention) (d : Amounts)
  : Res (float * float * float) :=
  match fee_convention with
  | None => OK (f_amt d, f_amt d, fin 0)
  | Some sender =>
      sf ← attr (f_src_fee d);
      OK (add (f_amt d) sf, f_amt d, sf)
  | Some recipient =>
      tf ← attr (f_tgt_fee d);
      OK (f_amt d, sub (f_amt d) tf, tf)
  | Some split =>
      sf ← attr (f_src_fee d);
      tf ← attr (f_tgt_fee d);
      OK (add (f_amt d) sf, sub (f_amt d) tf, add sf tf)
  end.

(** [Transaction.__init__] as far as its check: [amt_out], [amt_in] and
    [fee] of the transaction that is constructed, or the exception.
    ([fee_scaling] is set under a [try] of its own.) *)
Definition Transaction_init (fee_convention : option FeeConvention) (d : Amounts)
  : Res (float * float * float) :=
  '(out, inn, f) ← get_amounts fee_convention d;
  if lt out inn then Raise ValueError else OK (out, inn, f).

End Arithmetic.

(** The arithmetic without rounding: exact on finite numbers, and as
    IEEE 754 has it on [inf] and [nan]. *)
Definition opp (x : float) : float :=
  match x with
  | fin q => fin (- q)
  | inf negative => inf (negb negative)
  | nan => nan
  end.

Definition add_exact (x y : float) : float :=
  match x, y with
  | fin p, fin q => fin (p + q)
  | fin _, inf negative | inf negative, fin _ => inf negative
  | inf negative, inf negative' =>
      if Bool.eqb negative negative' then inf negative else nan
  | nan, _ | _, nan => nan
  end.

Definition sub_exact (x y : float) : float := add_exact x (opp y).

(** The amounts of a record of finite numbers. *)
Definition of_record (d : TxnDict) : Amounts :=
  {| f_amt := fin (d_amt d);
     f_src_fee := option_map fin (d_src_fee d);
     f_tgt_fee := option_map fin (d_tgt_fee d) |}.

End Float.

(** ** follow.py: Branch and Flow *)

(** [Branch.__init__]: the previous branch ([None] for a root branch), the
    transaction and the amount of it that the branch stands for. *)
Inductive Branch : Type := mkBranch {
  prev : option Branch;
  txn : Transaction;
  amt : Q
}.

(** [Branch.decrement] and [Branch.depreciate]; the guards of the source
    are [pass]. *)
Definition decrement (self : Branch) (a : Q) : Branch :=
  mkBranch (prev self) (txn self) (amt self - a).

Definition depreciate (self : Branch) (factor : Q) : Branch :=
  mkBranch (prev self) (txn self) (factor * amt self).

Record Flow : Type := mkFlow {
  flow_timestamp : Z;
  flow_txn_IDs : list string;
  flow_txn_types : list string;
  beg_categ : string;
  end_categ : string;
  flow_acct_IDs : list string;
  flow_amt : Q;
  flow_rev_fracs : list Q;
  flow_frac_root : Q;
  flow_duration : Z;
  flow_durations : list Z;
  flow_length : Z;
  flow_length_wrev : Q
}.

Definition is_transfer (t : Transaction) : bool := String.eqb (categ t) "transfer".

(** [Flow.__init__(branch, amt, fee)]. *)
Definition Flow_init (branch : Branch) (a f : Q) : Res Flow :=
  let t := txn branch in
  rev_frac ← div f (a + f);
  frac_root ← div (a + f) (amt_out t);
  length_wrev ← (if is_transfer t then div (amt_in t) (amt_out t) else OK 0);
  OK {| flow_timestamp := timestamp t;
        flow_txn_IDs := [txn_ID t];
        flow_txn_types := [type t];
        beg_categ := categ t;
        end_categ := categ t;
        flow_acct_IDs := [src t; tgt t];
        flow_amt := a + f;
        flow_rev_fracs := [rev_frac];
        flow_frac_root := frac_root;
        flow_duration := 0%Z;
        flow_durations := [];
        flow_length := if is_transfer t then 1%Z else 0%Z;
        flow_length_wrev := length_wrev |}.

(** [Flow.extend(branch, amt)]. *)
Definition Flow_extend (self : Flow) (branch : Branch) (a : Q) : Res Flow :=
  let t := txn branch in
  surviving ← div a (flow_amt self);
  p ← match prev branch with
      | Some p => OK p
      | None => Raise AttributeError
      end;
  let branch_duration := (timestamp t - timestamp (txn p))%Z in
  OK {| flow_timestamp := flow_timestamp self;
        flow_txn_IDs := flow_txn_IDs self ++ [txn_ID t];
        flow_txn_types := flow_txn_types self ++ [type t];
        beg_categ := beg_categ self;
        end_categ := categ t;
        flow_acct_IDs := flow_acct_IDs self ++ [tgt t];
        flow_amt := flow_amt self;
        flow_rev_fracs := flow_rev_fracs self ++ [1 - surviving];
        flow_frac_root := flow_frac_root self;
        flow_duration := (flow_duration self + branch_duration)%Z;
        flow_durations := flow_durations self ++ [branch_duration];
        flow_length := (flow_length self + if is_transfer t then 1 else 0)%Z;
        flow_length_wrev :=
          flow_length_wrev self + (if is_transfer t then surviving else 0) |}.

(** The fee that [follow_back] works with:
    [fee = fee if fee else amt*self.txn.fee_scaling]. *)
Definition effective_fee (self : Branch) (a : Q) (fee : option Q) : Res Q :=
  let computed :=
    match fee_scaling (txn self) with
    | Some s => OK (a * s)
    | None => Raise TypeError
    end in
  match fee with
  | Some f => if truthy f then OK f else computed
  | None => computed
  end.

(** [Branch.follow_back(amt, fee=None)]. *)
Fixpoint follow_back (self : Branch) (a : Q) (fee : option Q) : Res Flow :=
  f ← effective_fee self a fee;
  match prev self with
  | Some p =>
      flow ← follow_back p (a + f) None;
      Flow_extend flow self a
  | None => Flow_init self a f
  end.

(** [Branch.new_root] and [Branch.new_leaves]. *)
Definition new_root (t : Transaction) : list Branch :=
  [mkBranch None t (amt_in t)].

Definition new_leaves (new_branches : list Branch) (skip_leaf : bool)
  : Res (list Flow) :=
  if skip_leaf then
    comprehension
      (fun p : Branch => follow_back p (amt p) None)
      (omap prev new_branches)
  else
    comprehension (fun b : Branch => follow_back b (amt b) None) new_branches.

(** ** follow.py: the tracker classes *)

Inductive Heuristic : Type := no_tracking | greedy | well_mixed.

(** The class attributes that [define_tracker] sets on the chosen class. *)
Record TrackerClass : Type := mkTrackerClass {
  heuristic : Heuristic;
  time_cutoff : option Z;
  resolution_limit : Q;
  infer : bool
}.

(** What a Python name can hold where the source expects a list of flows:
    the base tracker binds [new_flows] to the [Flow] that [follow_back]
    returns, the other paths bind it to a list. *)
Inductive PyFlows : Type :=
| a_list (flows : list Flow)
| a_Flow (flow : Flow).

(** [yield from x] and [a_list + x] need [x] to be a list. *)
Definition as_list (x : PyFlows) : Res (list Flow) :=
  match x with
  | a_list flows => OK flows
  | a_Flow _ => Raise TypeError
  end.

(** A method of a tracker works on the list that the tracker is; what it
    has done to the list stays done when it raises. *)
Definition LM (X A : Type) : Type := list X -> list X * Res A.
Definition TM (A : Type) : Type := LM Branch A.

Definition TM_ret {A} (a : A) : TM A := fun self => (self, OK a).

Definition TM_bind {A B} (m : TM A) (f : A -> TM B) : TM B :=
  fun self =>
    match m self with
    | (self', OK a) => f a self'
    | (self', Raise e) => (self', Raise e)
    end.

(** A computation that does not touch the list. *)
Definition TM_pure {A} (r : Res A) : TM A := fun self => (self, r).

#[global] Instance TM_mret : MRet TM := @TM_ret.
#[global] Instance TM_mbind : MBind TM := fun A B f m => TM_bind m f.

(** [for branch in self: body], where [body] may change [self]: the list
    iterator holds an index into the live list and stops when the index
    is past its end.  The bodies below never lengthen the list, so
    [length self] steps are enough ([stop_tracking_loop] and
    [well_mixed_shrink_loop] prove it). *)
Fixpoint for_in_self {X A} (fuel i : nat)
    (body : nat -> X -> A -> LM X A) (acc : A) : LM X A :=
  fun self =>
    match fuel with
    | O => (self, OK acc)
    | S fuel' =>
        match self !! i with
        | None => (self, OK acc)
        | Some branch =>
            match body i branch acc self with
            | (self', OK acc') => for_in_self fuel' (S i) body acc' self'
            | (self', Raise e) => (self', Raise e)
            end
        end
    end.

Section Tracker.

(** The class in use, and what the tracker reaches through
    [self.account]: the account's ID and balance, the system's fee
    convention and time window. *)
Variable cls : TrackerClass.
Variable fee_convention : option FeeConvention.
Variable timewindow : Z * Z.
Variable acct_ID : string.
Variable balance : Q.

Let res := resolution_limit cls.

(** [Tracker.add_branches]. *)
Definition add_branches (branches : list Branch) : TM unit :=
  fun self => (self ++ branches, OK tt).

(** [Tracker.extend_branches], the version without tracking.  The names
    [new_branches] and [new_flows] are bound only under the outer
    [if]. *)
Definition Tracker_extend_branches (this_txn : Transaction)
  : TM (list Branch * PyFlows) :=
  TM_pure (
    if gtb (amt_out this_txn) res then
      let new_branch := mkBranch None this_txn (amt_in this_txn) in
      if gtb (amt_in this_txn) res then
        OK ([new_branch], a_list [])
      else
        flow ← follow_back new_branch (amt new_branch)
                 (Some (amt_out this_txn - amt_in this_txn));
        OK ([], a_Flow flow)
    else Raise UnboundLocalError).

(** [Tracker.stop_tracking(timestamp=None)].  A [datetime] is true, so
    [if timestamp] asks whether one was given.  [self.remove(branch)]
    takes out the first element equal to [branch]; [Branch] defines no
    [__eq__] and an object is in a tracker once, so that is the element
    at the iterator's index. *)
Definition stop_tracking (ts : option Z) : TM (list Flow) :=
  match ts with
  | Some now =>
      fun self =>
        for_in_self (length self) 0
          (fun i branch flows self =>
             match time_cutoff cls with
             | None => (self, Raise TypeError)
             | Some cutoff =>
                 if (now - timestamp (txn branch) >? cutoff)%Z then
                   match follow_back branch (amt branch) None with
                   | OK flow => (delete i self, OK (flows ++ [flow]))
                   | Raise e => (self, Raise e)
                   end
                 else (self, OK flows)
             end)
          [] self
  | None =>
      fun self =>
        match comprehension (fun b => follow_back b (amt b) None) self with
        | OK flows => ([], OK flows)
        | Raise e => (self, Raise e)
        end
  end.

(** [Tracker.infer_deposit]. *)
Definition infer_deposit (a : Q) : TM unit :=
  if gtb a res then
    inferred_deposit ← TM_pure (Transaction_init fee_convention acct_ID acct_ID
      {| d_txn_ID := "i"; d_timestamp := fst timewindow; d_amt := a;
         d_src_fee := Some 0; d_tgt_fee := Some 0;
         d_type := "inferred"; d_categ := "deposit";
         d_src_balance := None; d_tgt_balance := None |});
    add_branches (new_root inferred_deposit)
  else mret tt.

End Tracker.

Section Heuristics.

Variable cls : TrackerClass.
Variable fee_convention : option FeeConvention.
Variable timewindow : Z * Z.
Variable acct_ID : string.
Variable balance : Q.

Let res := resolution_limit cls.

(** *** Greedy_tracker *)

(** The [while amt > self.resolution_limit] loop.  Every turn pops the
    last branch or splits it and sets [amt = 0]; with
    [0 <= resolution_limit] the loop is over after [len(self) + 1]
    turns at most.  With a negative limit a split is followed by splits
    of amount [0] without end, each appending a new object to
    [branches]: running out of [fuel] stands for that and is reported
    as [MemoryError]. *)
Fixpoint pop_loop (fuel : nat) (a : Q) (branches : list Branch)
  : TM (list Branch) :=
  fun self =>
    if gtb a res then
      match fuel with
      | O => (self, Raise MemoryError)
      | S fuel' =>
          match last self with
          | None => (self, Raise IndexError)
          | Some branch =>
              if ltb (amt branch) (a + res) then
                pop_loop fuel' (a - amt branch) (branches ++ [branch])
                  (removelast self)
              else
                pop_loop fuel' 0
                  (branches ++ [mkBranch (prev branch) (txn branch) a])
                  (<[pred (length self) := decrement branch a]> self)
          end
      end
    else (self, OK branches).

(** [for branch in reversed(branches)]: the removed branches are
    extended by the transaction, or followed back when too small. *)
Fixpoint greedy_extend (this_txn : Transaction) (continues : Q)
    (branches : list Branch) (new_stack : list Branch) (new_flows : list Flow)
  : Res (list Branch * list Flow) :=
  match branches with
  | [] => OK (new_stack, new_flows)
  | branch :: branches' =>
      let new_branch := mkBranch (Some branch) this_txn (amt branch * continues) in
      if gtb (amt new_branch) res then
        greedy_extend this_txn continues branches' (new_stack ++ [new_branch]) new_flows
      else
        flow ← follow_back new_branch (amt new_branch)
                 (Some (amt branch - amt new_branch));
        greedy_extend this_txn continues branches' new_stack (new_flows ++ [flow])
  end.

(** [Greedy_tracker.extend_branches]. *)
Definition Greedy_extend_branches (this_txn : Transaction)
  : TM (list Branch * PyFlows) :=
  fun self =>
    let tracked := sum (map amt self) in
    let a := min (amt_out this_txn) tracked in
    match pop_loop (S (length self)) a [] self with
    | (self', Raise e) => (self', Raise e)
    | (self', OK branches) =>
        (self',
         continues ← div (amt_in this_txn) (amt_out this_txn);
         '(new_stack, new_flows) ←
           greedy_extend this_txn continues (rev branches) [] [];
         let amt_untracked := amt_in this_txn - sum (map amt new_stack) in
         if gtb amt_untracked res then
           OK (new_stack ++ [mkBranch None this_txn amt_untracked],
               a_list new_flows)
         else
           let tot_untracked := amt_out this_txn - tracked in
           if gtb tot_untracked res then
             let new_branch := mkBranch None this_txn (tot_untracked * continues) in
             flow ← follow_back new_branch (amt new_branch)
                      (Some (tot_untracked - amt new_branch));
             OK (new_stack, a_list (new_flows ++ [flow]))
           else OK (new_stack, a_list new_flows))
    end.

(** *** Well_mixed_tracker *)

(** The first [for branch in self]: a share of every branch is extended.
    A child is kept with the index of its parent in [self]. *)
Fixpoint well_mixed_extend (this_txn : Transaction) (track_factor split_factor : Q)
    (i : nat) (branches : list Branch)
    (new_pool : list (option nat * Branch)) (new_flows : list Flow)
  : Res (list (option nat * Branch) * list Flow) :=
  match branches with
  | [] => OK (new_pool, new_flows)
  | branch :: branches' =>
      if gtb (track_factor * amt branch) res then
        let new_branch := mkBranch (Some branch) this_txn (split_factor * amt branch) in
        if gtb (amt new_branch) res then
          well_mixed_extend this_txn track_factor split_factor (S i) branches'
            (new_pool ++ [(Some i, new_branch)]) new_flows
        else
          flow ← follow_back new_branch (amt new_branch)
                   (Some (track_factor * amt branch - amt new_branch));
          well_mixed_extend this_txn track_factor split_factor (S i) branches'
            new_pool (new_flows ++ [flow])
      else
        well_mixed_extend this_txn track_factor split_factor (S i) branches'
          new_pool new_flows
  end.

(** The last [for branch in self]: the old pool is emptied or shrunk.
    The elements carry the index they had when the call began, which
    stands for the identity of the object. *)
Definition well_mixed_shrink (stay_factor : Q) (self : list (nat * Branch))
  : list (nat * Branch) :=
  fst (for_in_self (length self) 0
         (fun i (entry : nat * Branch) (_ : unit) self =>
            let branch := snd entry in
            if ltb (stay_factor * amt branch) res then
              (delete i self, OK tt)
            else
              (<[i := (fst entry, depreciate branch stay_factor)]> self, OK tt))
         tt self).

(** The state, after the call, of the object that was at index [i] of
    [self] when it began: a removed object keeps the amount it had. *)
Definition object_after (self : list Branch) (self' : list (nat * Branch))
    (i : nat) : option Branch :=
  match list_find (fun entry : nat * Branch => fst entry = i) self' with
  | Some (_, (_, branch)) => Some branch
  | None => self !! i
  end.

Definition repoint (self : list Branch) (self' : list (nat * Branch))
    (child : option nat * Branch) : Branch :=
  match fst child with
  | Some i => mkBranch (object_after self self' i) (txn (snd child)) (amt (snd child))
  | None => snd child
  end.

(** [Well_mixed_tracker.extend_branches]. *)
Definition Well_mixed_extend_branches (this_txn : Transaction)
  : TM (list Branch * PyFlows) :=
  fun self =>
    let extended :=
      track_factor ← div (amt_out this_txn) balance;
      split_factor ← div (amt_in this_txn) balance;
      stay_factor ← div (balance - amt_out this_txn) balance;
      '(new_pool, new_flows) ←
        well_mixed_extend this_txn track_factor split_factor 0 self [] [];
      let amt_untracked :=
        amt_in this_txn - sum (map (fun child => amt (snd child)) new_pool) in
      if gtb amt_untracked res then
        OK (stay_factor,
            new_pool ++ [(None, mkBranch None this_txn amt_untracked)],
            new_flows)
      else
        let tot_untracked := amt_out this_txn - sum (map amt self) in
        if gtb tot_untracked res then
          continues ← div (amt_in this_txn) (amt_out this_txn);
          let new_branch := mkBranch None this_txn (tot_untracked * continues) in
          flow ← follow_back new_branch (amt new_branch)
                   (Some (tot_untracked - amt new_branch));
          OK (stay_factor, new_pool, new_flows ++ [flow])
        else OK (stay_factor, new_pool, new_flows)
    in
    match extended with
    | Raise e => (self, Raise e)
    | OK (stay_factor, new_pool, new_flows) =>
        let self' := well_mixed_shrink stay_factor (imap pair self) in
        (map snd self', OK (map (repoint self self') new_pool, a_list new_flows))
    end.

(** [self.extend_branches(txn)]: the method of the class in use. *)
Definition extend_branches (this_txn : Transaction) : TM (list Branch * PyFlows) :=
  match heuristic cls with
  | no_tracking => Tracker_extend_branches cls this_txn
  | greedy => Greedy_extend_branches this_txn
  | well_mixed => Well_mixed_extend_branches this_txn
  end.

(** [Tracker.infer_withdraw(amt, fee=0, type='inferred', track=True)]. *)
Definition infer_withdraw (a fee : Q) (type : string) (track : bool)
  : TM (list Flow) :=
  if gtb (a + fee) res then
    inferred_withdraw ← TM_pure (Transaction_init fee_convention acct_ID acct_ID
      {| d_txn_ID := "i"; d_timestamp := snd timewindow; d_amt := a;
         d_src_fee := Some fee; d_tgt_fee := Some 0;
         d_type := type; d_categ := "withdraw";
         d_src_balance := None; d_tgt_balance := None |});
    '(new_branches, new_flows) ← extend_branches inferred_withdraw;
    leaves ← TM_pure (new_leaves new_branches (negb track));
    flows ← TM_pure (as_list new_flows);
    mret (leaves ++ flows)
  else mret [].

(** [Tracker.adjust_tracker_up] and [Tracker.adjust_tracker_down]. *)
Definition adjust_tracker_up (a : Q) : TM unit :=
  if infer cls then infer_deposit cls fee_convention timewindow acct_ID a
  else mret tt.

Definition adjust_tracker_down (a : Q) : TM (list Flow) :=
  infer_withdraw a 0 "inferred" (infer cls).

(** [Tracker.__init__]: the list starts empty. *)
Definition Tracker_init : list Branch * Res unit :=
  (if infer cls then infer_deposit cls fee_convention timewindow acct_ID balance
   else mret tt) [].

End Heuristics.

(** ** initialize.py: Account, and the accounts of the System *)

Record Account : Type := mkAccount {
  acct_ID : string;
  starting_balance : Q;
  balance : Q;
  tracked : bool;
  tracker : option (list Branch)
}.

(** [Account.__init__]. *)
Definition Account_init (acct_ID : string) : Account :=
  {| acct_ID := acct_ID; starting_balance := 0; balance := 0;
     tracked := false; tracker := None |}.

Definition has_tracker (self : Account) : bool :=
  match tracker self with Some _ => true | None => false end.

Definition close_out (self : Account) : Account :=
  {| acct_ID := acct_ID self; starting_balance := starting_balance self;
     balance := 0; tracked := tracked self; tracker := None |}.

Definition infer_balance (self : Account) (a : Q) : Account :=
  {| acct_ID := acct_ID self; starting_balance := starting_balance self + a;
     balance := balance self + a; tracked := tracked self; tracker := tracker self |}.

Definition remove_balance (self : Account) (a : Q) : Account :=
  {| acct_ID := acct_ID self; starting_balance := starting_balance self;
     balance := balance self - a; tracked := tracked self; tracker := tracker self |}.

Definition set_balance (self : Account) (b : Q) : Account :=
  {| acct_ID := acct_ID self; starting_balance := starting_balance self;
     balance := b; tracked := tracked self; tracker := tracker self |}.

Definition set_tracked (self : Account) : Account :=
  {| acct_ID := acct_ID self; starting_balance := starting_balance self;
     balance := balance self; tracked := true; tracker := tracker self |}.

Definition set_tracker (self : Account) (t : option (list Branch)) : Account :=
  {| acct_ID := acct_ID self; starting_balance := starting_balance self;
     balance := balance self; tracked := tracked self; tracker := t |}.

(** [System.accounts]: a dict from [acct_ID] to the account object, in
    insertion order.  A transaction refers to its accounts by ID. *)
Definition Accounts : Type := list (string * Account).

Fixpoint get_account (id : string) (accounts : Accounts) : option Account :=
  match accounts with
  | [] => None
  | (k, a) :: rest => if String.eqb k id then Some a else get_account id rest
  end.

(** The object behind [id] is changed in place. *)
Fixpoint update_account (id : string) (f : Account -> Account)
    (accounts : Accounts) : Accounts :=
  match accounts with
  | [] => []
  | (k, a) :: rest =>
      if String.eqb k id then (k, f a) :: rest
      else (k, a) :: update_account id f rest
  end.

(** The transaction object after [txn.fee_scaling = 1] and
    [txn.amt_in = 0]. *)
Definition corrected (t : Transaction) : Transaction :=
  {| src := src t; tgt := tgt t; txn_ID := txn_ID t;
     timestamp := timestamp t; type := type t; categ := categ t;
     amt_out := amt_out t; amt_in := 0; fee := fee t;
     fee_scaling := Some 1;
     src_balance := src_balance t; tgt_balance := tgt_balance t |}.

(** ** The driver: generators over the accounts *)

(** A generator of the driver yields flows and changes accounts; when it
    raises, the flows it has yielded are out and the changes stay. *)
Record Out (A : Type) : Type := mkOut {
  yielded : list Flow;
  accounts_after : Accounts;
  outcome : Res A
}.
Arguments mkOut {A}.
Arguments yielded {A}.
Arguments accounts_after {A}.
Arguments outcome {A}.

Definition EM (A : Type) : Type := Accounts -> Out A.

Definition EM_ret {A} (a : A) : EM A := fun σ => mkOut [] σ (OK a).

Definition EM_bind {A B} (m : EM A) (f : A -> EM B) : EM B :=
  fun σ =>
    let o := m σ in
    match outcome o with
    | OK a =>
        let o' := f a (accounts_after o) in
        mkOut (yielded o ++ yielded o') (accounts_after o') (outcome o')
    | Raise e => mkOut (yielded o) (accounts_after o) (Raise e)
    end.

#[global] Instance EM_mret : MRet EM := @EM_ret.
#[global] Instance EM_mbind : MBind EM := fun A B f m => EM_bind m f.

(** [yield from flows]. *)
Definition yield_from (flows : list Flow) : EM unit :=
  fun σ => mkOut flows σ (OK tt).

Definition EM_pure {A} (r : Res A) : EM A := fun σ => mkOut [] σ r.

(** [try: m  except: (report)]. *)
Definition try_except {A} (m : EM A) : EM (Res A) :=
  fun σ => let o := m σ in mkOut (yielded o) (accounts_after o) (OK (outcome o)).

(** Reading and changing the account object behind an ID. *)
Definition the_account (id : string) : EM Account :=
  fun σ =>
    match get_account id σ with
    | Some a => mkOut [] σ (OK a)
    | None => mkOut [] σ (Raise KeyError)
    end.

Definition change_account (id : string) (f : Account -> Account) : EM unit :=
  fun σ => mkOut [] (update_account id f σ) (OK tt).

(** A method call [account.tracker.m(...)]: [m] gets the account's
    balance, works on the tracker's list and leaves it as it made it. *)
Definition on_tracker {A} (id : string) (m : Q -> TM A) : EM A :=
  fun σ =>
    match get_account id σ with
    | None => mkOut [] σ (Raise KeyError)
    | Some a =>
        match tracker a with
        | None => mkOut [] σ (Raise AttributeError)
        | Some self =>
            let '(self', r) := m (balance a) self in
            mkOut [] (update_account id (fun a => set_tracker a (Some self')) σ) r
        end
    end.

Section Engine.

Variable cls : TrackerClass.
Variable fee_convention : option FeeConvention.
Variable timewindow : Z * Z.
Variable balance_type : option BalanceType.

Let res := resolution_limit cls.

(** [Account.track(Tracker_Class)]: the tracker is bound to the account
    once [Tracker.__init__] has returned. *)
Definition track (id : string) : EM unit :=
  a ← the_account id;
  match Tracker_init cls fee_convention timewindow id (balance a) with
  | (self, OK _) => change_account id (fun a => set_tracker a (Some self))
  | (_, Raise e) => EM_pure (Raise e)
  end.

(** [acct.tracked = True; if not acct.has_tracker(): acct.track(cls)]. *)
Definition start_tracking (id : string) : EM unit :=
  change_account id set_tracked;;
  a ← the_account id;
  if has_tracker a then mret tt else track id.

(** [Account.adjust_balance_up] and [Account.adjust_balance_down]. *)
Definition adjust_balance_up (id : string) (missing : Q) : EM unit :=
  a ← the_account id;
  (if has_tracker a then
     on_tracker id (fun _ => adjust_tracker_up cls fee_convention timewindow id missing)
   else mret tt);;
  change_account id (fun a => infer_balance a missing).

Definition adjust_balance_down (id : string) (extra : Q) : EM unit :=
  a ← the_account id;
  (if has_tracker a then
     flows ← on_tracker id (fun balance =>
       adjust_tracker_down cls fee_convention timewindow id balance extra);
     yield_from flows
   else mret tt);;
  change_account id (fun a => remove_balance a extra).

(** [System.needs_balances]: the lambda of [System.__init__] ([None]) or
    of [System.define_needs_balances]. *)
Definition needs_balances (t : Transaction) : EM (Q * Q) :=
  match balance_type with
  | None =>
      s ← the_account (src t);
      g ← the_account (tgt t);
      mret (max (balance s) (amt_out t), max (balance g) (- amt_in t))
  | Some pre =>
      sb ← EM_pure (attr (src_balance t));
      tb ← EM_pure (attr (tgt_balance t));
      mret (sb, tb)
  | Some post =>
      sb ← EM_pure (attr (src_balance t));
      tb ← EM_pure (attr (tgt_balance t));
      mret (sb + amt_out t, tb - amt_in t)
  end.

(** [System.process]. *)
Definition System_process (t : Transaction) : EM unit :=
  change_account (src t) (fun a => set_balance a (balance a - amt_out t));;
  change_account (tgt t) (fun a => set_balance a (balance a + amt_in t)).

(** [check_trackers]: an empty tracker, like no tracker, is false. *)
Definition check_tracker (id : string) (now : Z) : EM unit :=
  a ← the_account id;
  match tracker a with
  | Some (_ :: _) =>
      flows ← on_tracker id (fun _ => stop_tracking cls (Some now));
      yield_from flows
  | _ => mret tt
  end.

Definition check_trackers (t : Transaction) : EM unit :=
  check_tracker (src t) (timestamp t);;
  check_tracker (tgt t) (timestamp t).

(** [check_balances]. *)
Definition check_balance (id : string) (needed : Q) : EM unit :=
  a ← the_account id;
  if gtb needed (balance a) then adjust_balance_up id (needed - balance a)
  else if ltb needed (balance a) then adjust_balance_down id (balance a - needed)
  else mret tt.

Definition check_balances (t : Transaction) : EM unit :=
  '(src_needs, tgt_needs) ← needs_balances t;
  check_balance (src t) src_needs;;
  check_balance (tgt t) tgt_needs.

(** [Tracker.process], first [if]: more than the whole amount went
    towards the fee.  [withdraw_excess_fee] is the block under
    [if tgt_track]; [corrected] is the transaction object after
    [txn.fee_scaling = 1] and [txn.amt_in = 0], which come last. *)
Definition withdraw_excess_fee (t : Transaction) : EM unit :=
  start_tracking (tgt t);;
  flows ← on_tracker (tgt t) (fun balance =>
    infer_withdraw cls fee_convention timewindow (tgt t) balance
      0 (- amt_in t) "fee" true);
  yield_from flows.

Definition process_correct (t : Transaction) (tgt_track : bool) : EM Transaction :=
  if ltb (amt_in t) 0 then
    (if tgt_track then withdraw_excess_fee t else mret tt);;
    change_account (tgt t) (fun a => set_balance a (balance a + amt_in t));;
    mret (corrected t)
  else mret t.

(** [Tracker.process], second [if]. *)
Definition process_extend (t : Transaction) (src_track tgt_track : bool) : EM unit :=
  if gtb (amt_out t) res then
    new_branches ←
      (if src_track then
         start_tracking (src t);;
         '(new_branches, new_flows) ← on_tracker (src t) (fun balance =>
           extend_branches cls balance t);
         flows ← EM_pure (as_list new_flows);
         yield_from flows;;
         mret new_branches
       else
         s ← the_account (src t);
         (if has_tracker s then
            '(new_branches, new_flows) ← on_tracker (src t) (fun balance =>
              extend_branches cls balance t);
            leaves ← EM_pure (new_leaves new_branches true);
            flows ← EM_pure (as_list new_flows);
            yield_from (leaves ++ flows)
          else mret tt);;
         if tgt_track then
           let new_branch := mkBranch None t (amt_in t) in
           if gtb (amt_in t) res then mret [new_branch]
           else
             flow ← EM_pure (follow_back new_branch (amt new_branch)
                               (Some (amt_out t - amt_in t)));
             yield_from [flow];;
             mret []
         else mret []);
    if tgt_track then
      start_tracking (tgt t);;
      on_tracker (tgt t) (fun _ => add_branches new_branches)
    else
      leaves ← EM_pure (new_leaves new_branches false);
      yield_from leaves
  else mret tt.

(** [Tracker.process(txn, src_track, tgt_track)]; the result is the
    transaction object as the call leaves it. *)
Definition process (t : Transaction) (src_track tgt_track : bool) : EM Transaction :=
  t' ← process_correct t tgt_track;
  process_extend t' src_track tgt_track;;
  mret t'.

(** The tracking flags that [track_transactions] passes for a
    category. *)
Definition tracking_of (categ : string) : bool * bool :=
  if String.eqb categ "deposit" then (false, true)
  else if String.eqb categ "transfer" then (true, true)
  else if String.eqb categ "withdraw" then (true, false)
  else (false, false).

(** The body of the loop of [track_transactions] for one transaction,
    without the report and the set of inconsistent accounts.  When
    [process] raises, the transaction is as [process_correct] left it. *)
Definition track_transaction (t : Transaction) : EM unit :=
  try_except (
    (match time_cutoff cls with
     | Some cutoff => if (cutoff =? 0)%Z then mret tt else check_trackers t
     | None => mret tt
     end);;
    check_balances t);;
  let '(src_track, tgt_track) := tracking_of (categ t) in
  corrected ← try_except (process_correct t tgt_track);
  match corrected with
  | OK t' =>
      try_except (process_extend t' src_track tgt_track);;
      System_process t'
  | Raise _ => System_process t
  end.

Fixpoint track_transactions (txns : list Transaction) : EM unit :=
  match txns with
  | [] => mret tt
  | t :: txns' => track_transaction t;; track_transactions txns'
  end.

(** [track_remaining_funds]: what is done for one account, and the loop
    over [system.accounts.items()]. *)
Definition remaining_funds (id : string) : EM unit :=
  a ← the_account id;
  if has_tracker a then
    (match time_cutoff cls with
     | Some cutoff =>
         if (cutoff =? 0)%Z then mret tt
         else
           flows ← on_tracker id (fun _ => stop_tracking cls (Some (snd timewindow)));
           yield_from flows
     | None => mret tt
     end);;
    a ← the_account id;
    if infer cls then
      if gtb (balance a) res then
        flows ← on_tracker id (fun balance =>
          infer_withdraw cls fee_convention timewindow id balance
            (balance) 0 "inferred" true);
        yield_from flows
      else yield_from []
    else
      if gtb (balance a) res then
        flows ← on_tracker id (fun _ => stop_tracking cls None);
        yield_from flows
      else yield_from []
  else mret tt.

Fixpoint track_remaining_funds_from (ids : list string) : EM unit :=
  match ids with
  | [] => mret tt
  | id :: ids' =>
      try_except (remaining_funds id);;
      change_account id close_out;;
      track_remaining_funds_from ids'
  end.

Definition track_remaining_funds : EM unit :=
  fun accounts => track_remaining_funds_from (map fst accounts) accounts.

(** [Account.reset(no_balance, Tracker)] for the class in use, and
    [System.reset]. *)
Definition Account_reset (no_balance : bool) (id : string) : EM unit :=
  change_account id (fun a =>
    let start := if no_balance then 0 else starting_balance a in
    {| acct_ID := acct_ID a; starting_balance := start; balance := start;
       tracked := false; tracker := tracker a |});;
  track id.

Fixpoint System_reset_from (no_balance : bool) (ids : list string) : EM unit :=
  match ids with
  | [] => mret tt
  | id :: ids' => Account_reset no_balance id;; System_reset_from no_balance ids'
  end.

Definition System_reset (no_balance : bool) : EM unit :=
  fun accounts => System_reset_from no_balance (map fst accounts) accounts.

End Engine.

(** ** initialize.py: the boundary of the system *)

(** [categ in self.categ_follow], for a category that may be [None]. *)
Definition in_categ_follow (categ_follow : gset string) (categ : option string) : bool :=
  match categ with
  | Some c => bool_decide (c ∈ categ_follow)
  | None => false
  end.

(** [System.get_txn_categ_accts]: four [if]s in a row; when none of them
    holds the function comes to its end and returns [None]. *)
Definition get_txn_categ_accts (categ_follow : gset string)
    (src_categ tgt_categ : option string) : option string :=
  let src_follow := in_categ_follow categ_follow src_categ in
  let tgt_follow := in_categ_follow categ_follow tgt_categ in
  if src_follow && tgt_follow then Some "transfer"
  else if negb src_follow && tgt_follow then Some "deposit"
  else if src_follow && negb tgt_follow then Some "withdraw"
  else if negb src_follow && negb tgt_follow then Some "system"
  else None.

(** ** initialize.py: the rows of the transaction file *)

(** A row as [csv.DictReader] hands it over, for a file whose amounts
    and fees are numbers: the IDs of its two accounts, and the rest of
    the dict as the conversions of [Transaction.create] leave it, or the
    exception that [datetime.strptime] raises on its timestamp.

    A field that [float] cannot read is not an exception in
    [Transaction.create]: the string stays in the dict.  Such a row is
    not among the rows of this type; what the program does with it
    depends on the fee convention, and a transaction that is constructed
    with a string for its amount raises [TypeError] in
    [System.process] and in [System.needs_balances], outside every
    [try]. *)
Record Row : Type := mkRow {
  src_ID : string;
  tgt_ID : string;
  fields : Res TxnDict
}.

(** [System.has_account] and [System.create_account].
    [self.accounts[acct_ID] = Account(acct_ID)] puts a new key at the end
    of the dict; a key that is there keeps its place and gets the new
    object. *)
Definition has_account (acct_ID : string) (accounts : Accounts) : bool :=
  match get_account acct_ID accounts with
  | Some _ => true
  | None => false
  end.

Definition create_account (acct_ID : string) : EM Account :=
  fun σ =>
    let a := Account_init acct_ID in
    mkOut []
      (if has_account acct_ID σ then update_account acct_ID (fun _ => a) σ
       else σ ++ [(acct_ID, a)])
      (OK a).

(** [system.get_account(ID) if system.has_account(ID) else
    system.create_account(ID)]. *)
Definition account_for (acct_ID : string) : EM Account :=
  fun σ =>
    if has_account acct_ID σ then the_account acct_ID σ
    else create_account acct_ID σ.

(** The transaction object after [txn.type] and [txn.categ] were set. *)
Definition categorised (t : Transaction) (type' categ' : string) : Transaction :=
  {| src := src t; tgt := tgt t; txn_ID := txn_ID t;
     timestamp := timestamp t; type := type'; categ := categ';
     amt_out := amt_out t; amt_in := amt_in t; fee := fee t;
     fee_scaling := fee_scaling t;
     src_balance := src_balance t; tgt_balance := tgt_balance t |}.

(** [System.get_txn_categ] as [System.__init__] sets it: every
    transaction is a transfer, and keeps its type. *)
Definition get_txn_categ_default (t : Transaction) : Res (string * string) :=
  OK (type t, "transfer").

Section Initialize.

Variable fee_convention : option FeeConvention.
Variable balance_type : option BalanceType.

(** [System.get_txn_categ], the lambda that [System.__init__] or
    [System.define_boundary] installs: the type that the call leaves on
    the transaction (the boundaries with [+otc] put a prefix on it) and
    the category.  It raises when it reads an attribute that the row
    does not have. *)
Variable get_txn_categ : Transaction -> Res (string * string).

(** [Transaction.create(src, tgt, txn_dict, get_categ)]. *)
Definition Transaction_create (src tgt : string) (txn_dict : Res TxnDict)
    (get_categ : bool) : Res Transaction :=
  d ← txn_dict;
  t ← Transaction_init fee_convention src tgt d;
  if get_categ then
    '(type', categ') ← get_txn_categ t;
    OK (categorised t type' categ')
  else OK t.

(** One turn of the generator [initialize_transactions]: the accounts of
    the row are looked up or made, then the transaction; an exception is
    reported and the row passed over. *)
Definition initialize_transaction (row : Row) (get_categ : bool)
  : EM (Res Transaction) :=
  try_except (
    account_for (src_ID row);;
    account_for (tgt_ID row);;
    EM_pure (Transaction_create (src_ID row) (tgt_ID row) (fields row) get_categ)).

(** [for txn in initialize_transactions(rows, ...): body(txn)]: the
    generator runs one turn each time the loop asks for the next
    transaction. *)
Fixpoint initialize_transactions (rows : list Row) (get_categ : bool)
    (body : Transaction -> EM unit) : EM unit :=
  match rows with
  | [] => mret tt
  | row :: rows' =>
      made ← initialize_transaction row get_categ;
      match made with
      | OK t => body t
      | Raise _ => mret tt
      end;;
      initialize_transactions rows' get_categ body
  end.

(** [if needed > acct.balance: acct.infer_balance(needed - acct.balance)]. *)
Definition infer_missing (id : string) (needed : Q) : EM unit :=
  a ← the_account id;
  if gtb needed (balance a) then
    change_account id (fun a' => infer_balance a' (needed - balance a))
  else mret tt.

(** The body of the loop of [infer_starting_balance], and the loop. *)
Definition infer_balances (t : Transaction) : EM unit :=
  '(src_needs, tgt_needs) ← needs_balances balance_type t;
  infer_missing (src t) src_needs;;
  infer_missing (tgt t) tgt_needs;;
  System_process t.

Definition infer_starting_balance (rows : list Row) : EM unit :=
  initialize_transactions rows false infer_balances.

End Initialize.

(** ** follow.py: the run *)

(** [filter_out]: all the transactions of the flow are inferred ones. *)
Definition filter_out (wflow : Flow) : bool :=
  forallb (fun txn_type => String.eqb txn_type "inferred") (flow_txn_types wflow).

Section Run.

(** The class that [define_tracker] made, and what the system was set up
    with. *)
Variable cls : TrackerClass.
Variable fee_convention : option FeeConvention.
Variable timewindow : Z * Z.
Variable balance_type : option BalanceType.
Variable get_txn_categ : Transaction -> Res (string * string).

(** [run]: the system is reset, the transactions of the file are tracked
    as they are made, then the remaining funds.  What the result yields
    are the flows that go to [wflow_writer], before [Flow.to_print]
    formats them: with [infer], the flows of inferred transactions only
    are left out. *)
Definition run (no_balance : bool) (rows : list Row) : EM unit :=
  fun system =>
    let o :=
      (System_reset cls fee_convention timewindow no_balance;;
       initialize_transactions fee_convention get_txn_categ rows true
         (track_transaction cls fee_convention timewindow balance_type);;
       track_remaining_funds cls fee_convention timewindow) system in
    mkOut
      (List.filter (fun wflow => negb (infer cls && filter_out wflow)) (yielded o))
      (accounts_after o) (outcome o).

End Run.

(** * What the two loops over a changing list come to

    [for branch in self] with [self.remove(branch)] in its body: after a
    removal the next element has moved to the index that was just
    visited, and the iterator goes past it.  The two functions below say
    this by recursion on the list; [stop_tracking_loop] and
    [well_mixed_shrink_loop] prove that the loops compute them. *)

Definition expired (cutoff now : Z) (branch : Branch) : bool :=
  (now - timestamp (txn branch) >? cutoff)%Z.

Fixpoint stop_tracking_visits (cutoff now : Z) (self : list Branch)
    (flows : list Flow) : list Branch * Res (list Flow) :=
  match self with
  | [] => ([], OK flows)
  | branch :: rest =>
      if expired cutoff now branch then
        match follow_back branch (amt branch) None with
        | OK flow =>
            match rest with
            | [] => ([], OK (flows ++ [flow]))
            | skipped :: rest' =>
                let '(kept, r) := stop_tracking_visits cutoff now rest' (flows ++ [flow]) in
                (skipped :: kept, r)
            end
        | Raise e => (branch :: rest, Raise e)
        end
      else
        let '(kept, r) := stop_tracking_visits cutoff now rest flows in
        (branch :: kept, r)
  end.

Fixpoint well_mixed_shrink_visits (res stay_factor : Q)
    (self : list (nat * Branch)) : list (nat * Branch) :=
  match self with
  | [] => []
  | entry :: rest =>
      if ltb (stay_factor * amt (snd entry)) res then
        match rest with
        | [] => []
        | skipped :: rest' =>
            skipped :: well_mixed_shrink_visits res stay_factor rest'
        end
      else
        (fst entry, depreciate (snd entry) stay_factor)
          :: well_mixed_shrink_visits res stay_factor rest
  end.

(** * Predicates of the properties *)

(** The flows that the program makes: seeded by [Flow.__init__], then
    extended by [Flow.extend] any number of times. *)
Inductive produced : Flow -> Prop :=
| produced_init branch a f flow :
    Flow_init branch a f = OK flow -> produced flow
| produced_extend flow branch a flow' :
    produced flow -> Flow_extend flow branch a = OK flow' -> produced flow'.

Definition well_shaped (flow : Flow) : Prop :=
  length (flow_acct_IDs flow) = (length (flow_txn_IDs flow) + 1)%nat /\
  length (flow_durations flow) = (length (flow_txn_IDs flow) - 1)%nat /\
  length (flow_rev_fracs flow) = length (flow_txn_IDs flow) /\
  (1 <= length (flow_txn_IDs flow))%nat.

(** A computation of the driver that changes no other account than [id],
    and adds or drops no account. *)
Definition touches_only {A} (id : string) (m : EM A) : Prop :=
  forall σ,
    map fst (accounts_after (m σ)) = map fst σ /\
    forall id', id' <> id ->
      get_account id' (accounts_after (m σ)) = get_account id' σ.

(** The account behind [id], if there is one, has no tracker. *)
Definition closed_at (id : string) (σ : Accounts) : Prop :=
  forall a, get_account id σ = Some a -> tracker a = None.

(** What the tracker of an account holds: [sum(branch.amt for branch in
    tracker)]. *)
Definition tracked_amount (a : Account) : Q :=
  match tracker a with
  | Some self => sum (map amt self)
  | None => 0
  end.

(** A branch that holds no negative amount. *)
Definition nonneg (b : Branch) : Prop := 0 <= amt b.

(** The transactions behind a branch, from the one of its root branch
    down to its own, and the root branch of its chain. *)
Fixpoint lineage (self : Branch) : list Transaction :=
  match prev self with
  | Some p => lineage p ++ [txn self]
  | None => [txn self]
  end.

Fixpoint root (self : Branch) : Branch :=
  match prev self with
  | Some p => root p
  | None => self
  end.

(** The time between each element of a list of timestamps and the next. *)
Fixpoint gaps (ts : list Z) : list Z :=
  match ts with
  | t1 :: (t2 :: _) as rest => (t2 - t1)%Z :: gaps rest
  | _ => []
  end.

(** The trajectory that a flow describes is the one of the branch. *)
Definition follows (flow : Flow) (self : Branch) : Prop :=
  flow_txn_IDs flow = map txn_ID (lineage self) /\
  flow_txn_types flow = map type (lineage self) /\
  flow_acct_IDs flow = src (txn (root self)) :: map tgt (lineage self) /\
  flow_timestamp flow = timestamp (txn (root self)) /\
  beg_categ flow = categ (txn (root self)) /\
  end_categ flow = categ (txn self) /\
  flow_durations flow = gaps (map timestamp (lineage self)) /\
  flow_duration flow = (timestamp (txn self) - timestamp (txn (root self)))%Z /\
  flow_length flow = Z.of_nat (length (List.filter is_transfer (lineage self))).

(** No transaction behind the branch has a negative [fee_scaling]. *)
Definition fees_nonneg (self : Branch) : Prop :=
  Forall (fun t => forall s, fee_scaling t = Some s -> 0 <= s) (lineage self).

(** A number that is a fraction. *)
Definition fraction (r : Q) : Prop := 0 <= r /\ r <= 1.

(** What a function [view] sees of the accounts, in their order; a
    computation of the driver that leaves it as it is; and a [view] that
    does not see the tracker of an account nor its [tracked] flag. *)
Definition viewed {B} (view : Account -> B) (accounts : Accounts) : list (string * B) :=
  map (fun entry => (fst entry, view (snd entry))) accounts.

Definition preserves {A B} (view : Account -> B) (m : EM A) : Prop :=
  forall σ, viewed view (accounts_after (m σ)) = viewed view σ.

Definition tracker_blind {B} (view : Account -> B) : Prop :=
  (forall a x, view (set_tracker a x) = view a) /\
  (forall a, view (set_tracked a) = view a).

(** The account [a'] is what [Account.reset] makes of [a]: the balance
    is the starting balance (zero with [no_balance]), the account is not
    marked tracked, and its tracker is new: with inference on and a
    balance above the limit it holds the balance in one branch,
    otherwise nothing. *)
Definition reset_of (cls : TrackerClass) (no_balance : bool) (a a' : Account) : Prop :=
  acct_ID a' = acct_ID a /\
  starting_balance a' = (if no_balance then 0 else starting_balance a) /\
  balance a' = starting_balance a' /\
  tracked a' = false /\
  exists self,
    tracker a' = Some self /\
    if infer cls && gtb (balance a') (resolution_limit cls)
    then length self = 1%nat /\ sum (map amt self) == balance a'
    else self = [].

(** The account behind [id], if there is one, is closed out: no balance,
    no tracker. *)
Definition settled_at (id : string) (σ : Accounts) : Prop :=
  forall a, get_account id σ = Some a -> balance a = 0 /\ tracker a = None.

(** The accounts when the account of [id] has been looked up or made;
    the IDs that a list of IDs and the rows of a file come to, in the
    order in which they are first seen. *)
Definition with_account (id : string) (σ : Accounts) : Accounts :=
  if has_account id σ then σ else σ ++ [(id, Account_init id)].

Definition with_ID (IDs : list string) (id : string) : list string :=
  if bool_decide (id ∈ IDs) then IDs else IDs ++ [id].

Definition IDs_of (rows : list Row) (known : list string) : list string :=
  fold_left (fun IDs row => with_ID (with_ID IDs (src_ID row)) (tgt_ID row)) rows known.

(** The balance and the starting balance behind an ID; an account that
    is not there yet will start with none. *)
Definition balance_at (σ : Accounts) (id : string) : Q :=
  match get_account id σ with
  | Some a => balance a
  | None => 0
  end.

Definition start_at (σ : Accounts) (id : string) : Q :=
  match get_account id σ with
  | Some a => starting_balance a
  | None => 0
  end.

(** What a transaction moves into the account behind an ID. *)
Definition moved (t : Transaction) (id : string) : Q :=
  (if String.eqb (src t) id then - amt_out t else 0) +
  (if String.eqb (tgt t) id then amt_in t else 0).

(** From [σ] to [σ'] balances were inferred: the same accounts, each
    with its starting balance and its balance raised by the same
    amount. *)
Definition raised (σ σ' : Accounts) : Prop :=
  map fst σ' = map fst σ /\
  forall id, exists i,
    0 <= i /\ start_at σ' id == start_at σ id + i /\
    balance_at σ' id == balance_at σ id + i.

(** The transactions that the rows of a file give, without those that
    [Transaction.create] rejects; and all that a list of transactions
    moves into the account behind an ID. *)
Definition accepted (fc : option FeeConvention)
    (get_txn_categ : Transaction -> Res (string * string)) (get_categ : bool)
    (rows : list Row) : list Transaction :=
  omap (fun row =>
          match Transaction_create fc get_txn_categ (src_ID row) (tgt_ID row)
                  (fields row) get_categ with
          | OK t => Some t
          | Raise _ => None
          end) rows.

Definition net (txns : list Transaction) (id : string) : Q :=
  sum (map (fun t => moved t id) txns).

(** A chain of branches is connected when each of its transactions
    leaves the account that the one before it entered; a branch is held
    by the account that its transaction entered. *)
Fixpoint connected (self : Branch) : Prop :=
  match prev self with
  | Some p => tgt (txn p) = src (txn self) /\ connected p
  | None => True
  end.

Definition held_by (id : string) (b : Branch) : Prop :=
  tgt (txn b) = id /\ connected b.

(** Every tracker holds branches of its own account only. *)
Definition trackers_hold (σ : Accounts) : Prop :=
  forall id a self,
    get_account id σ = Some a -> tracker a = Some self -> Forall (held_by id) self.

(** A flow that was followed back along a connected chain. *)
Definition a_path (flow : Flow) : Prop :=
  exists self a fee, follow_back self a fee = OK flow /\ connected self.

(** A method of the tracker of [id] that keeps its branches in order and
    returns a result with [R]; a computation of the driver that keeps
    the trackers in order, yields paths and returns a result with [R]. *)
Definition keeps {A} (id : string) (R : A -> Prop) (m : TM A) : Prop :=
  forall self,
    Forall (held_by id) self ->
    Forall (held_by id) (fst (m self)) /\
    forall x, snd (m self) = OK x -> R x.

Definition sound {A} (R : A -> Prop) (m : EM A) : Prop :=
  forall σ,
    trackers_hold σ ->
    trackers_hold (accounts_after (m σ)) /\
    Forall a_path (yielded (m σ)) /\
    forall x, outcome (m σ) = OK x -> R x.

(** The branches and flows that [extend_branches] returns for a
    transaction: branches for the tracker of the target, and paths. *)
Definition extended (t : Transaction) (r : list Branch * PyFlows) : Prop :=
  Forall (held_by (tgt t)) (fst r) /\
  forall flows, as_list (snd r) = OK flows -> Forall a_path flows.

(** An entry of the well-mixed pool that stands for the object at its
    index in [self]: the same transaction and the same parent. *)
Definition stands_for (self : list Branch) (entry : nat * Branch) : Prop :=
  exists b, self !! fst entry = Some b /\
            txn (snd entry) = txn b /\ prev (snd entry) = prev b.

(** A child of the well-mixed pool: a branch of the transaction, whose
    parent is the branch at the index it carries, or a root branch. *)
Definition child_of (self : list Branch) (t : Transaction)
    (child : option nat * Branch) : Prop :=
  txn (snd child) = t /\
  match fst child with
  | Some i => exists b, self !! i = Some b /\ prev (snd child) = Some b
  | None => prev (snd child) = None
  end.

(** * Concrete inputs

    The records, transactions and system states at which the properties
    below are evaluated. *)

(** A record as [csv.DictReader] and [Transaction.create] hand it over. *)
Definition record (id : string) (ts : Z) (a : Q) (src_fee tgt_fee : option Q)
    (categ : string) : TxnDict :=
  {| d_txn_ID := id; d_timestamp := ts; d_amt := a;
     d_src_fee := src_fee; d_tgt_fee := tgt_fee;
     d_type := "p2p"; d_categ := categ;
     d_src_balance := None; d_tgt_balance := None |}.

(** Recipient pays a negative fee of 1 on 10; a split fee of 1 and 2. *)
Definition record_negative_fee : TxnDict :=
  record "t1" 0 10 None (Some (-1)) "transfer".

Definition record_split_fee : TxnDict :=
  record "t2" 0 10 (Some 1) (Some 2) "transfer".

(** A row whose amount reads [nan], with fees of 1. *)
Definition amounts_nan : Float.Amounts :=
  {| Float.f_amt := Float.nan;
     Float.f_src_fee := Some (Float.fin 1);
     Float.f_tgt_fee := Some (Float.fin 1) |}.

(** What a call of [Transaction.__init__] built, for a record it accepts. *)
Definition built (r : Res Transaction) : Transaction :=
  match r with
  | OK t => t
  | Raise _ =>
      {| src := ""; tgt := ""; txn_ID := ""; timestamp := 0%Z; type := "";
         categ := ""; amt_out := 0; amt_in := 0; fee := 0; fee_scaling := None;
         src_balance := None; tgt_balance := None |}
  end.

(** A deposit of 100 into B on which the sender pays a fee of 10
    ([fee_scaling = 10/100]), and a later transfer of 100 from B to C
    with the same fee. *)
Definition deposit_with_fee : Transaction :=
  Eval vm_compute in
    built (Transaction_init (Some sender) "A" "B"
             (record "t1" 0 100 (Some 10) None "deposit")).

Definition transfer_with_fee : Transaction :=
  Eval vm_compute in
    built (Transaction_init (Some sender) "B" "C"
             (record "t2" 3600 100 (Some 10) None "transfer")).

Definition root_with_fee : Branch := mkBranch None deposit_with_fee 110.

Definition child_with_fee : Branch :=
  mkBranch (Some root_with_fee) transfer_with_fee 100.

(** The class of the run: heuristic, no time cutoff, the default
    resolution limit of 0.01, no inference. *)
Definition plain (h : Heuristic) : TrackerClass :=
  {| heuristic := h; time_cutoff := None; resolution_limit := 0.01; infer := false |}.

(** Transactions without fees (no fee convention defined): one of 0.005,
    below the resolution limit, and one on which 0.995 of 1 goes to the
    recipient's fee. *)
Definition tiny_payment : Transaction :=
  Eval vm_compute in
    built (Transaction_init None "A" "B" (record "t3" 0 0.005 None None "transfer")).

Definition mostly_fee : Transaction :=
  Eval vm_compute in
    built (Transaction_init (Some recipient) "A" "B"
             (record "t4" 0 1 None (Some 0.995) "transfer")).

(** A greedy tracker with a resolution limit of 1/2, holding one branch
    of 3/2 from a deposit; a payment of 1 leaves the account. *)
Definition coarse (h : Heuristic) : TrackerClass :=
  {| heuristic := h; time_cutoff := None; resolution_limit := 1 # 2; infer := false |}.

Definition deposit_three_halves : Transaction :=
  Eval vm_compute in
    built (Transaction_init None "A" "B" (record "t5" 0 (3 # 2) None None "deposit")).

Definition branch_three_halves : Branch :=
  mkBranch None deposit_three_halves (3 # 2).

Definition payment_of_one : Transaction :=
  Eval vm_compute in
    built (Transaction_init None "B" "C" (record "t6" 60 1 None None "transfer")).

(** A cutoff of 24 hours; two deposits into B, at 0 s and at 60 s, both
    more than 24 hours old at 108000 s (30 hours). *)
Definition with_cutoff (h : Heuristic) : TrackerClass :=
  {| heuristic := h; time_cutoff := Some 86400%Z; resolution_limit := 0.01;
     infer := false |}.

Definition old_deposit (id : string) (ts : Z) (a : Q) : Transaction :=
  built (Transaction_init None "A" "B" (record id ts a None None "deposit")).

Definition old_branch_1 : Branch :=
  Eval vm_compute in mkBranch None (old_deposit "d1" 0 50) 50.

Definition old_branch_2 : Branch :=
  Eval vm_compute in mkBranch None (old_deposit "d2" 60 70) 70.

(** B holds 0.03 and 99.97 from two deposits and has a balance of 100;
    a transfer of 75 leaves a quarter of the balance behind. *)
Definition small_deposit : Transaction :=
  Eval vm_compute in
    built (Transaction_init None "A" "B" (record "d3" 0 0.03 None None "deposit")).

Definition large_deposit : Transaction :=
  Eval vm_compute in
    built (Transaction_init None "A" "B" (record "d4" 60 99.97 None None "deposit")).

Definition transfer_of_75 : Transaction :=
  Eval vm_compute in
    built (Transaction_init None "B" "C" (record "t7" 120 75 None None "transfer")).

Definition small_branch : Branch := mkBranch None small_deposit 0.03.

Definition large_branch : Branch := mkBranch None large_deposit 99.97.

(** The accounts A, B and C as [System.create_account] makes them, reset
    for a run with the class [cls]; the time window of the system. *)
Definition window : Z * Z := (0, 200000)%Z.

Definition accounts_at_start (cls : TrackerClass) (fc : option FeeConvention)
  : Accounts :=
  accounts_after
    (System_reset cls fc window false
       [("A", Account_init "A"); ("B", Account_init "B"); ("C", Account_init "C")]).

(** The run of C1: the two deposits into B, then the transfer of 75 out
    of B, with the well-mixed heuristic. *)
Definition after_well_mixed_run : Accounts :=
  accounts_after
    (track_transactions (plain well_mixed) None window None
       [small_deposit; large_deposit; transfer_of_75]
       (accounts_at_start (plain well_mixed) None)).

(** Transactions on which the recipient's fee is more than the amount:
    a fee of 1.005 on 1 (an excess of 0.005, below the resolution limit),
    a fee of 3 on 1 (an excess of 2), and a fee of 1 on an amount of -5. *)
Definition fifty_into_B : Transaction :=
  Eval vm_compute in
    built (Transaction_init (Some recipient) "A" "B"
             (record "d5" 0 50 None (Some 0) "deposit")).

Definition small_excess_fee : Transaction :=
  Eval vm_compute in
    built (Transaction_init (Some recipient) "C" "B"
             (record "t8" 60 1 None (Some 1.005) "transfer")).

Definition large_excess_fee : Transaction :=
  Eval vm_compute in
    built (Transaction_init (Some recipient) "C" "B"
             (record "t9" 60 1 None (Some 3) "transfer")).

Definition negative_amount : Transaction :=
  Eval vm_compute in
    built (Transaction_init (Some recipient) "C" "B"
             (record "t10" 60 (-5) None (Some 1) "withdraw")).

Definition B_holds_fifty : Accounts :=
  accounts_after
    (track_transactions (plain greedy) (Some recipient) window None
       [fifty_into_B] (accounts_at_start (plain greedy) (Some recipient))).

(** A class with inference on; two accounts, of which A has an inferred
    starting balance of 40 and, after a run, a balance of 7. *)
Definition inferring (h : Heuristic) : TrackerClass :=
  {| heuristic := h; time_cutoff := None; resolution_limit := 0.01; infer := true |}.

Definition two_accounts : Accounts :=
  [("A", {| acct_ID := "A"; starting_balance := 40; balance := 7;
            tracked := true; tracker := None |});
   ("B", Account_init "B")].

(** The two accounts after a reset for a run with inference: A holds
    its starting balance of 40 in one branch. *)
Definition funds_in_A : Accounts :=
  accounts_after (System_reset (inferring greedy) None window false two_accounts).

(** Three rows of a file under the recipient convention: 50 from A to B,
    30 from B to C on which the recipient pays 1, and a row from D to E
    that is rejected for its negative fee. *)
Definition three_rows : list Row :=
  [ {| src_ID := "A"; tgt_ID := "B";
       fields := OK (record "r1" 0 50 None (Some 0) "") |};
    {| src_ID := "B"; tgt_ID := "C";
       fields := OK (record "r2" 60 30 None (Some 1) "") |};
    {| src_ID := "D"; tgt_ID := "E";
       fields := OK (record "r3" 120 10 None (Some (-1)) "") |} ].

(** * Properties *)

(** ** Tests on numbers *)

Lemma ltb_true (x y : Q) : ltb x y = true <-> x < y.
Proof.
  unfold ltb. rewrite negb_true_iff. split.
  - intros H. apply Qnot_le_lt. intros Hle.
    apply Qle_bool_iff in Hle. congruence.
  - intros H. destruct (Qle_bool y x) eqn:E; [|reflexivity].
    apply Qle_bool_iff in E. exfalso. exact (Qlt_not_le _ _ H E).
Qed.

Lemma ltb_false (x y : Q) : ltb x y = false <-> y <= x.
Proof.
  unfold ltb. rewrite negb_false_iff. apply Qle_bool_iff.
Qed.

Lemma gtb_true (x y : Q) : gtb x y = true <-> y < x.
Proof. apply ltb_true. Qed.

Lemma gtb_false (x y : Q) : gtb x y = false <-> x <= y.
Proof. apply ltb_false. Qed.

Lemma truthy_false (x : Q) : truthy x = false <-> x == 0.
Proof.
  unfold truthy. rewrite negb_false_iff. apply Qeq_bool_iff.
Qed.

Lemma truthy_true (x : Q) : truthy x = true <-> ~ x == 0.
Proof.
  unfold truthy. rewrite negb_true_iff. split.
  - intros H E. apply Qeq_bool_iff in E. congruence.
  - intros H. destruct (Qeq_bool x 0) eqn:E; [|reflexivity].
    apply Qeq_bool_iff in E. contradiction.
Qed.

(** ** C9: the check of [Transaction.__init__] *)

Lemma Transaction_init_amounts fc s g d t :
  Transaction_init fc s g d = OK t ->
  get_amounts fc d = OK (amt_out t, amt_in t, fee t).
Proof.
  unfold Transaction_init.
  destruct (get_amounts fc d) as [[[out inn] f]|e]; simpl; [|discriminate].
  destruct (ltb out inn); [discriminate|].
  intros [= <-]. reflexivity.
Qed.

(** Over exact numbers, whatever the fee convention (none defined,
    sender, recipient or split): when the amounts derived from the record
    have [amt_out < amt_in], [Transaction.__init__] raises [ValueError];
    and a transaction that was constructed has [amt_in <= amt_out]. *)
Lemma Transaction_init_rejects_negative_fee
    (fc : option FeeConvention) (s g : string) (d : TxnDict) :
  (forall out inn f,
      get_amounts fc d = OK (out, inn, f) -> out < inn ->
      Transaction_init fc s g d = Raise ValueError) /\
  (forall t, Transaction_init fc s g d = OK t -> amt_in t <= amt_out t).
Proof.
  split.
  - intros out inn f Hget Hlt. unfold Transaction_init. rewrite Hget. simpl.
    apply ltb_true in Hlt. rewrite Hlt. reflexivity.
  - intros t. unfold Transaction_init.
    destruct (get_amounts fc d) as [[[out inn] f]|e]; simpl; [|discriminate].
    destruct (ltb out inn) eqn:E; [discriminate|].
    intros [= <-]. simpl. apply ltb_false. exact E.
Qed.

Lemma Transaction_init_rejects_negative_fee_witness :
  Transaction_init (Some recipient) "A" "B" record_negative_fee = Raise ValueError /\
  (exists t, Transaction_init (Some split) "A" "B" record_split_fee = OK t /\
             amt_in t <= amt_out t).
Proof.
  split.
  - apply (proj1 (Transaction_init_rejects_negative_fee
                    (Some recipient) "A" "B" record_negative_fee) 10 (10 - -1) (-1)).
    + reflexivity.
    + reflexivity.
  - eexists. split.
    + reflexivity.
    + apply (proj2 (Transaction_init_rejects_negative_fee
                      (Some split) "A" "B" record_split_fee)).
      reflexivity.
Defined.

(** The check over floats.  A test [x < y] that fails leaves [x >= y]
    for numbers, and nothing for [nan]. *)
Lemma lt_false_ge (x y : Float.float) :
  Float.lt x y = false ->
  Float.ge x y = true \/ x = Float.nan \/ y = Float.nan.
Proof.
  destruct x as [p|n|], y as [q|n'|]; simpl; auto.
  - intros H. left. apply ltb_false in H. apply Qle_bool_iff. exact H.
  - intros H. left. apply negb_false_iff in H. exact H.
  - intros H. left. rewrite H. reflexivity.
  - intros H. left. destruct n, n'; simpl in *; congruence.
Qed.

(** At finite numbers and without rounding, the check over floats is
    the check of [Transaction_init]. *)
Lemma Transaction_init_of_record fc s g d :
  Float.Transaction_init Float.add_exact Float.sub_exact fc (Float.of_record d) =
    match Transaction_init fc s g d with
    | OK t => OK (Float.fin (amt_out t), Float.fin (amt_in t), Float.fin (fee t))
    | Raise e => Raise e
    end.
Proof.
  unfold Float.Transaction_init, Transaction_init, Float.get_amounts, get_amounts,
    Float.of_record.
  destruct d as [id ts a [sf|] [tf|] ty c sb tb], fc as [[]|]; simpl;
    try reflexivity;
    match goal with |- context [ltb ?x ?y] => destruct (ltb x y) eqn:E end;
    simpl; try reflexivity;
    match goal with
    | E : ltb ?x ?y = _ |- context [ltb ?x' ?y'] =>
        assert (E' : ltb x' y' = ltb x y)
          by (unfold ltb; f_equal; apply eq_true_iff_eq; rewrite !Qle_bool_iff;
              split; intros; lra);
        rewrite E', E
    end; reflexivity.
Qed.

(** C9, as the code has it.  Whatever the fee convention and whatever
    [+] and [-] return: when the amounts derived from the row have
    [amt_out < amt_in], [Transaction.__init__] raises [ValueError]; a
    transaction that was constructed has the derived amounts, fails the
    test [amt_out < amt_in], and so has [amt_out >= amt_in] unless one
    of the two is [nan]. *)
Theorem Transaction_init_tests_the_amounts
    (add sub : Float.float -> Float.float -> Float.float)
    (fc : option FeeConvention) (d : Float.Amounts) :
  (forall out inn f,
      Float.get_amounts add sub fc d = OK (out, inn, f) -> Float.lt out inn = true ->
      Float.Transaction_init add sub fc d = Raise ValueError) /\
  (forall out inn f,
      Float.Transaction_init add sub fc d = OK (out, inn, f) ->
      Float.get_amounts add sub fc d = OK (out, inn, f) /\
      Float.lt out inn = false /\
      (Float.ge out inn = true \/ out = Float.nan \/ inn = Float.nan)).
Proof.
  split.
  - intros out inn f Hget Hlt. unfold Float.Transaction_init. rewrite Hget. simpl.
    rewrite Hlt. reflexivity.
  - intros out inn f. unfold Float.Transaction_init.
    destruct (Float.get_amounts add sub fc d) as [[[out' inn'] f']|e]; simpl;
      [|discriminate].
    destruct (Float.lt out' inn') eqn:E; [discriminate|].
    intros [= <- <- <-]. split; [reflexivity|]. split; [exact E|].
    apply lt_false_ge. exact E.
Qed.

Lemma Transaction_init_tests_the_amounts_witness :
  Float.Transaction_init Float.add_exact Float.sub_exact (Some recipient)
    (Float.of_record record_negative_fee) = Raise ValueError /\
  (exists out inn f,
     Float.Transaction_init Float.add_exact Float.sub_exact (Some split)
       (Float.of_record record_split_fee) = OK (out, inn, f) /\
     Float.ge out inn = true).
Proof.
  split.
  - eapply (proj1 (Transaction_init_tests_the_amounts Float.add_exact Float.sub_exact
                     (Some recipient) (Float.of_record record_negative_fee))).
    + reflexivity.
    + reflexivity.
  - eexists. eexists. eexists. split; [reflexivity|].
    destruct (proj2 (Transaction_init_tests_the_amounts Float.add_exact Float.sub_exact
                       (Some split) (Float.of_record record_split_fee)) _ _ _ eq_refl)
      as (_ & _ & [H|[H|H]]); [exact H|discriminate H|discriminate H].
Defined.

(** C9 as stated fails.  [float] reads an amount of [nan]; under each of
    the three conventions the amounts derived from it are [nan], the test
    [amt_out < amt_in] fails, the transaction is constructed, and
    [amt_out >= amt_in] is false of it. *)
Lemma nan_amount_is_constructed :
  (exists out inn f,
     Float.Transaction_init Float.add_exact Float.sub_exact (Some sender) amounts_nan =
       OK (out, inn, f) /\ Float.ge out inn = false) /\
  (exists out inn f,
     Float.Transaction_init Float.add_exact Float.sub_exact (Some recipient) amounts_nan =
       OK (out, inn, f) /\ Float.ge out inn = false) /\
  (exists out inn f,
     Float.Transaction_init Float.add_exact Float.sub_exact (Some split) amounts_nan =
       OK (out, inn, f) /\ Float.ge out inn = false).
Proof.
  split; [|split]; eexists; eexists; eexists; (split; [reflexivity|reflexivity]).
Qed.

(** ** C4: the fee of [Branch.follow_back] *)

#[local] Arguments follow_back : simpl never.
#[local] Arguments effective_fee : simpl never.

Lemma effective_fee_supplied self a f :
  ~ f == 0 -> effective_fee self a (Some f) = OK f.
Proof.
  intros H. unfold effective_fee. apply truthy_true in H. rewrite H. reflexivity.
Qed.

Lemma effective_fee_omitted self a s :
  fee_scaling (txn self) = Some s -> effective_fee self a None = OK (a * s).
Proof. intros H. unfold effective_fee. rewrite H. reflexivity. Qed.

(** A fee of [0] is false in [fee if fee else ...]: it is treated as an
    omitted fee. *)
Lemma effective_fee_zero self a f :
  f == 0 -> effective_fee self a (Some f) = effective_fee self a None.
Proof.
  intros H. unfold effective_fee. apply truthy_false in H. rewrite H. reflexivity.
Qed.

(** The body of [follow_back]. *)
Lemma follow_back_eq self a fee :
  follow_back self a fee =
    (f ← effective_fee self a fee;
     match prev self with
     | Some p => flow ← follow_back p (a + f) None; Flow_extend flow self a
     | None => Flow_init self a f
     end).
Proof. destruct self; reflexivity. Qed.

Lemma follow_back_zero_fee self a f :
  f == 0 -> follow_back self a (Some f) = follow_back self a None.
Proof.
  intros H. rewrite !follow_back_eq.
  rewrite (effective_fee_zero _ _ _ H). reflexivity.
Qed.

(** The parent is asked for [amt + fee], with the fee that
    [effective_fee] settled on. *)
Lemma follow_back_asks_parent self p a fee f :
  prev self = Some p -> effective_fee self a fee = OK f ->
  follow_back self a fee =
    (flow ← follow_back p (a + f) None; Flow_extend flow self a).
Proof.
  intros Hp Hf. rewrite follow_back_eq, Hf, Hp. reflexivity.
Qed.

Lemma follow_back_seeds_root self a fee f :
  prev self = None -> effective_fee self a fee = OK f ->
  follow_back self a fee = Flow_init self a f.
Proof.
  intros Hp Hf. rewrite follow_back_eq, Hf, Hp. reflexivity.
Qed.

(** C4, as the code has it.  [follow_back] works with the fee of the
    caller when it is not zero, and with [amt * fee_scaling] when the fee
    is left out or is zero; the parent is asked for the amount plus the
    fee that the call works with, and a root branch seeds the flow with
    that amount and fee. *)
Theorem follow_back_fee_in_effect (self : Branch) (a : Q) (fee : option Q) :
  (forall f, fee = Some f -> ~ f == 0 -> effective_fee self a fee = OK f) /\
  (forall s,
      fee = None \/ (exists f, fee = Some f /\ f == 0) ->
      fee_scaling (txn self) = Some s ->
      effective_fee self a fee = OK (a * s)) /\
  (forall f,
      effective_fee self a fee = OK f ->
      match prev self with
      | Some p =>
          follow_back self a fee =
            (flow ← follow_back p (a + f) None; Flow_extend flow self a)
      | None => follow_back self a fee = Flow_init self a f
      end).
Proof.
  split; [|split].
  - intros f -> Hf. exact (effective_fee_supplied self a f Hf).
  - intros s [->|(f & -> & Hf)] Hs.
    + exact (effective_fee_omitted self a s Hs).
    + rewrite (effective_fee_zero self a f Hf). exact (effective_fee_omitted self a s Hs).
  - intros f Hf. destruct (prev self) as [p|] eqn:Hp.
    + exact (follow_back_asks_parent self p a fee f Hp Hf).
    + exact (follow_back_seeds_root self a fee f Hp Hf).
Qed.

(** C4 as stated fails at a fee of zero.  [root_with_fee] stands for a
    deposit with [fee_scaling = 10/100].  Following it back for 100 with
    the fee [0] given by the caller seeds the flow with
    [100 + 100 * 10/100 = 110], as if no fee had been given, and not with
    [100 + 0]; on the child the same call asks the parent for more than
    [100 + 0]. *)
Lemma follow_back_ignores_a_zero_fee :
  (exists flow,
      follow_back root_with_fee 100 (Some 0) = OK flow /\
      flow_amt flow == 110 /\ ~ flow_amt flow == 100 + 0) /\
  follow_back root_with_fee 100 (Some 0) = follow_back root_with_fee 100 None /\
  (exists f,
      effective_fee child_with_fee 100 (Some 0) = OK f /\ f == 10 /\
      follow_back child_with_fee 100 (Some 0) =
        (flow ← follow_back root_with_fee (100 + f) None;
         Flow_extend flow child_with_fee 100)).
Proof.
  split; [|split].
  - eexists. split; [vm_compute; reflexivity|]. split.
    + reflexivity.
    + intros H. discriminate H.
  - apply follow_back_zero_fee. reflexivity.
  - eexists. split; [vm_compute; reflexivity|]. split.
    + reflexivity.
    + reflexivity.
Qed.

(** ** C6: the shape of a flow *)

Lemma Flow_init_well_shaped branch a f flow :
  Flow_init branch a f = OK flow -> well_shaped flow.
Proof.
  unfold Flow_init.
  destruct (div f (a + f)) as [r|e]; simpl; [|discriminate].
  destruct (div (a + f) (amt_out (txn branch))) as [r'|e]; simpl; [|discriminate].
  destruct (if is_transfer (txn branch) then div _ _ else OK 0) as [w|e];
    simpl; [|discriminate].
  intros [= <-]. unfold well_shaped. simpl. lia.
Qed.

Lemma Flow_extend_well_shaped flow branch a flow' :
  well_shaped flow -> Flow_extend flow branch a = OK flow' -> well_shaped flow'.
Proof.
  intros (Ha & Hd & Hr & Hn). unfold Flow_extend.
  destruct (div a (flow_amt flow)) as [r|e]; simpl; [|discriminate].
  destruct (prev branch) as [p|]; simpl; [|discriminate].
  intros [= <-]. unfold well_shaped. simpl.
  rewrite !length_app. simpl. lia.
Qed.

(** Induction along the chain of [prev]. *)
Lemma Branch_chain_ind (P : Branch -> Prop)
    (step : forall p t b, (forall q, p = Some q -> P q) -> P (mkBranch p t b)) :
  forall self, P self.
Proof.
  fix ind 1. intros [p t b]. apply step.
  destruct p as [q0|]; intros q E.
  - injection E as <-. apply ind.
  - discriminate E.
Qed.

Lemma follow_back_produced self :
  forall a fee flow, follow_back self a fee = OK flow -> produced flow.
Proof.
  induction self as [p t b IH] using Branch_chain_ind.
  intros a fee flow. rewrite follow_back_eq.
  destruct (effective_fee (mkBranch p t b) a fee) as [f|e]; simpl; [|discriminate].
  destruct p as [q|].
  - destruct (follow_back q (a + f) None) as [flow0|e] eqn:E; simpl; [|discriminate].
    intros H. eapply produced_extend; [|exact H].
    eapply IH; [reflexivity|exact E].
  - intros H. eapply produced_init. exact H.
Qed.

Lemma produced_well_shaped flow : produced flow -> well_shaped flow.
Proof.
  induction 1 as [branch a f flow H|flow branch a flow' _ IH H].
  - exact (Flow_init_well_shaped _ _ _ _ H).
  - exact (Flow_extend_well_shaped _ _ _ _ IH H).
Qed.

(** The flows that [follow_back] returns are of that shape. *)
Lemma follow_back_well_shaped self a fee flow :
  follow_back self a fee = OK flow -> well_shaped flow.
Proof.
  intros H. apply produced_well_shaped. exact (follow_back_produced _ _ _ _ H).
Qed.

(** C6.  Every flow that was seeded and then extended any number of
    times has one account ID more than transaction IDs, one duration less
    (there is at least one transaction ID), and as many revenue fractions
    as transaction IDs. *)
Theorem produced_flow_well_shaped (flow : Flow) :
  produced flow ->
  length (flow_acct_IDs flow) = (length (flow_txn_IDs flow) + 1)%nat /\
  length (flow_durations flow) = (length (flow_txn_IDs flow) - 1)%nat /\
  length (flow_rev_fracs flow) = length (flow_txn_IDs flow) /\
  (1 <= length (flow_txn_IDs flow))%nat.
Proof. exact (produced_well_shaped flow). Qed.

Lemma produced_flow_well_shaped_witness :
  exists flow,
    follow_back child_with_fee 100 None = OK flow /\
    length (flow_acct_IDs flow) = (length (flow_txn_IDs flow) + 1)%nat /\
    length (flow_durations flow) = (length (flow_txn_IDs flow) - 1)%nat /\
    length (flow_rev_fracs flow) = length (flow_txn_IDs flow) /\
    (1 <= length (flow_txn_IDs flow))%nat.
Proof.
  eexists. split.
  - vm_compute. reflexivity.
  - apply produced_flow_well_shaped.
    apply (follow_back_produced child_with_fee 100 None).
    vm_compute. reflexivity.
Defined.

(** ** C10: the tracker without tracking *)

Lemma Tracker_extend_branches_unbound cls t self :
  amt_out t <= resolution_limit cls ->
  Tracker_extend_branches cls t self = (self, Raise UnboundLocalError).
Proof.
  intros H. unfold Tracker_extend_branches, TM_pure.
  apply gtb_false in H. rewrite H. reflexivity.
Qed.

Lemma Tracker_extend_branches_sliver cls t self :
  resolution_limit cls < amt_out t -> amt_in t <= resolution_limit cls ->
  Tracker_extend_branches cls t self =
    (self,
     flow ← follow_back (mkBranch None t (amt_in t)) (amt_in t)
              (Some (amt_out t - amt_in t));
     OK ([], a_Flow flow)).
Proof.
  intros Hout Hin. unfold Tracker_extend_branches, TM_pure.
  apply gtb_true in Hout. apply gtb_false in Hin. rewrite Hout, Hin. reflexivity.
Qed.

Lemma Tracker_extend_branches_whole cls t self :
  resolution_limit cls < amt_out t -> resolution_limit cls < amt_in t ->
  Tracker_extend_branches cls t self =
    (self, OK ([mkBranch None t (amt_in t)], a_list [])).
Proof.
  intros Hout Hin. unfold Tracker_extend_branches, TM_pure.
  apply gtb_true in Hout. apply gtb_true in Hin. rewrite Hout, Hin. reflexivity.
Qed.

(** C10 fails on the code.  With [amt_out <= resolution_limit] the names
    [new_branches] and [new_flows] are unbound at the [return]:
    [UnboundLocalError].  With [resolution_limit < amt_out] and
    [amt_in <= resolution_limit] the call raises or binds [new_flows] to
    one [Flow], never to a list. *)
Theorem Tracker_extend_branches_is_partial
    (cls : TrackerClass) (t : Transaction) (self : list Branch) :
  (amt_out t <= resolution_limit cls ->
   Tracker_extend_branches cls t self = (self, Raise UnboundLocalError)) /\
  (resolution_limit cls < amt_out t -> amt_in t <= resolution_limit cls ->
   forall new_branches flows,
     snd (Tracker_extend_branches cls t self) <> OK (new_branches, a_list flows)).
Proof.
  split.
  - apply Tracker_extend_branches_unbound.
  - intros Hout Hin new_branches flows.
    rewrite (Tracker_extend_branches_sliver _ _ _ Hout Hin). simpl.
    destruct (follow_back (mkBranch None t (amt_in t)) (amt_in t)
                (Some (amt_out t - amt_in t))) as [flow|e];
      simpl; intros H; discriminate H.
Qed.

Lemma Tracker_extend_branches_is_partial_witness :
  Tracker_extend_branches (plain no_tracking) tiny_payment [] =
    ([], Raise UnboundLocalError) /\
  (forall new_branches flows,
     snd (Tracker_extend_branches (plain no_tracking) mostly_fee []) <>
       OK (new_branches, a_list flows)) /\
  (exists flow,
     Tracker_extend_branches (plain no_tracking) mostly_fee [] =
       ([], OK ([], a_Flow flow))).
Proof.
  split; [|split].
  - apply (proj1 (Tracker_extend_branches_is_partial
                    (plain no_tracking) tiny_payment [])).
    vm_compute. intros H. discriminate H.
  - apply (proj2 (Tracker_extend_branches_is_partial
                    (plain no_tracking) mostly_fee [])).
    + reflexivity.
    + vm_compute. intros H. discriminate H.
  - eexists. vm_compute. reflexivity.
Defined.

(** ** C5: one turn of the loop of the greedy tracker *)

Lemma set_last_snoc {A} (l : list A) (x y : A) :
  <[pred (length (l ++ [x])) := y]> (l ++ [x]) = l ++ [y].
Proof.
  rewrite length_app. simpl. replace (pred (length l + 1)) with (length l + 0)%nat by lia.
  rewrite insert_app_r. reflexivity.
Qed.

Lemma pop_loop_done cls fuel a branches self :
  a <= resolution_limit cls ->
  pop_loop cls fuel a branches self = (self, OK branches).
Proof.
  intros H. apply gtb_false in H. destruct fuel; simpl; rewrite H; reflexivity.
Qed.

Lemma pop_loop_empty cls fuel a branches :
  resolution_limit cls < a ->
  pop_loop cls (S fuel) a branches [] = ([], Raise IndexError).
Proof. intros H. apply gtb_true in H. simpl. rewrite H. reflexivity. Qed.

(** The last branch is consumed: popped, and its amount taken off. *)
Lemma pop_loop_consume cls fuel a branches self b :
  resolution_limit cls < a -> amt b < a + resolution_limit cls ->
  pop_loop cls (S fuel) a branches (self ++ [b]) =
    pop_loop cls fuel (a - amt b) (branches ++ [b]) self.
Proof.
  intros Ha Hb. apply gtb_true in Ha. apply ltb_true in Hb.
  simpl. rewrite Ha, last_snoc, Hb, removelast_last. reflexivity.
Qed.

(** The last branch is split: a detached branch of the amount that was
    still to remove, the branch in place decremented, nothing left to
    remove. *)
Lemma pop_loop_split cls fuel a branches self b :
  resolution_limit cls < a -> a + resolution_limit cls <= amt b ->
  pop_loop cls (S fuel) a branches (self ++ [b]) =
    pop_loop cls fuel 0 (branches ++ [mkBranch (prev b) (txn b) a])
      (self ++ [decrement b a]).
Proof.
  intros Ha Hb. apply gtb_true in Ha. apply ltb_false in Hb.
  simpl. rewrite Ha, last_snoc, Hb, set_last_snoc. reflexivity.
Qed.

(** C5 at the limit.  When the last branch holds exactly
    [amt_to_remove + resolution_limit], it is not consumed: the loop
    splits it, leaves [resolution_limit] of it in the tracker and ends
    (the limit is not negative). *)
Theorem pop_loop_splits_at_the_limit
    (cls : TrackerClass) (fuel : nat) (a : Q)
    (branches self : list Branch) (b : Branch) :
  0 <= resolution_limit cls ->
  resolution_limit cls < a ->
  amt b == a + resolution_limit cls ->
  pop_loop cls (S fuel) a branches (self ++ [b]) =
    (self ++ [decrement b a],
     OK (branches ++ [mkBranch (prev b) (txn b) a])) /\
  amt (decrement b a) == resolution_limit cls.
Proof.
  intros Hres Ha Hb. split.
  - rewrite pop_loop_split; [|exact Ha|rewrite Hb; apply Qle_refl].
    apply pop_loop_done. exact Hres.
  - simpl. rewrite Hb. ring.
Qed.

Lemma pop_loop_splits_at_the_limit_witness :
  pop_loop (coarse greedy) 2 1 [] [branch_three_halves] =
    ([decrement branch_three_halves 1],
     OK [mkBranch None deposit_three_halves 1]) /\
  amt (decrement branch_three_halves 1) == 1 # 2.
Proof.
  apply (pop_loop_splits_at_the_limit (coarse greedy) 1 1 [] [] branch_three_halves).
  - vm_compute. intros H. discriminate H.
  - reflexivity.
  - reflexivity.
Defined.

(** The same through [Greedy_tracker.extend_branches]: the branch of 3/2
    stays in the tracker with 1/2, and a branch of 1 goes on. *)
Lemma Greedy_extend_branches_at_the_limit :
  exists self' new_stack,
    Greedy_extend_branches (coarse greedy) payment_of_one [branch_three_halves] =
      (self', OK (new_stack, a_list [])) /\
    map amt self' = [(3 # 2) - 1] /\
    map (fun b => Qred (amt b)) new_stack = [1].
Proof.
  eexists. eexists. split; [vm_compute; reflexivity|]. split; reflexivity.
Qed.

(** ** C3: [Tracker.stop_tracking] *)

Lemma lookup_at_end {A} (pre l : list A) : (pre ++ l) !! length pre = l !! 0%nat.
Proof.
  rewrite lookup_app_r by lia. replace (length pre - length pre)%nat with 0%nat by lia.
  reflexivity.
Qed.

Lemma delete_at_end {A} (pre : list A) (x : A) (l : list A) :
  delete (length pre) (pre ++ x :: l) = pre ++ l.
Proof. induction pre as [|y pre IH]; simpl; [reflexivity|]. f_equal. exact IH. Qed.

Lemma insert_at_end {A} (pre : list A) (x y : A) (l : list A) :
  <[length pre := y]> (pre ++ x :: l) = pre ++ y :: l.
Proof. induction pre as [|z pre IH]; simpl; [reflexivity|]. f_equal. exact IH. Qed.

Lemma snoc_app {A} (pre : list A) (x : A) (l : list A) :
  pre ++ x :: l = (pre ++ [x]) ++ l.
Proof. rewrite <- app_assoc. reflexivity. Qed.

Lemma length_snoc {A} (pre : list A) (x : A) : length (pre ++ [x]) = S (length pre).
Proof. rewrite length_app. simpl. lia. Qed.

(** The loop of [stop_tracking(timestamp)], started at the end of the
    part [pre] that it has been through, with enough fuel for the rest. *)
Lemma stop_tracking_loop cls cutoff now :
  time_cutoff cls = Some cutoff ->
  forall fuel self pre flows,
    (length self <= fuel)%nat ->
    for_in_self fuel (length pre)
      (fun i branch flows self =>
         match time_cutoff cls with
         | None => (self, Raise TypeError)
         | Some cutoff =>
             if (now - timestamp (txn branch) >? cutoff)%Z then
               match follow_back branch (amt branch) None with
               | OK flow => (delete i self, OK (flows ++ [flow]))
               | Raise e => (self, Raise e)
               end
             else (self, OK flows)
         end)
      flows (pre ++ self) =
    (let '(kept, r) := stop_tracking_visits cutoff now self flows in (pre ++ kept, r)).
Proof.
  intros Hc. rewrite Hc.
  induction fuel as [|fuel IH]; intros self pre flows Hlen.
  - destruct self; [|simpl in Hlen; lia]. reflexivity.
  - destruct self as [|branch rest].
    + simpl. rewrite lookup_at_end. reflexivity.
    + simpl in Hlen. cbn [for_in_self]. rewrite lookup_at_end. cbn [lookup list_lookup].
      cbn [stop_tracking_visits]. unfold expired at 1.
      destruct (now - timestamp (txn branch) >? cutoff)%Z.
      * destruct (follow_back branch (amt branch) None) as [flow|e]; [|reflexivity].
        rewrite delete_at_end.
        destruct rest as [|skipped rest'].
        -- rewrite app_nil_r. destruct fuel; simpl.
           ++ reflexivity.
           ++ rewrite lookup_ge_None_2 by (simpl; lia). reflexivity.
        -- rewrite (snoc_app pre skipped rest'), <- (length_snoc pre skipped).
           rewrite IH by (simpl in Hlen; lia).
           destruct (stop_tracking_visits cutoff now rest' (flows ++ [flow])) as [kept r].
           rewrite <- app_assoc. reflexivity.
      * rewrite (snoc_app pre branch rest), <- (length_snoc pre branch).
        rewrite IH by lia.
        destruct (stop_tracking_visits cutoff now rest flows) as [kept r].
        rewrite <- app_assoc. reflexivity.
Qed.

Lemma stop_tracking_timestamp cls cutoff now self :
  time_cutoff cls = Some cutoff ->
  stop_tracking cls (Some now) self = stop_tracking_visits cutoff now self [].
Proof.
  intros Hc. unfold stop_tracking.
  pose proof (stop_tracking_loop cls cutoff now Hc (length self) self [] [] (le_n _)) as H.
  cbn [length app] in H. rewrite H.
  destruct (stop_tracking_visits cutoff now self []) as [kept r]. reflexivity.
Qed.

(** X2: without a timestamp every branch is followed back, one flow per
    branch, and the tracker is left empty (when no [follow_back]
    raises). *)
Lemma stop_tracking_flush cls self flows :
  comprehension (fun b => follow_back b (amt b) None) self = OK flows ->
  stop_tracking cls None self = ([], OK flows) /\ length flows = length self.
Proof.
  intros H. unfold stop_tracking. rewrite H. split; [reflexivity|].
  revert flows H. induction self as [|b self IH]; intros flows H; simpl in H.
  - injection H as <-. reflexivity.
  - destruct (follow_back b (amt b) None) as [flow|e]; simpl in H; [|discriminate].
    destruct (comprehension _ self) as [flows'|e]; simpl in H; [|discriminate].
    injection H as <-. simpl. f_equal. apply IH. reflexivity.
Qed.

(** A branch within the cutoff stays where it is. *)
Lemma stop_tracking_keeps_recent cls cutoff now branch rest :
  time_cutoff cls = Some cutoff ->
  expired cutoff now branch = false ->
  exists kept r,
    stop_tracking cls (Some now) (branch :: rest) = (branch :: kept, r).
Proof.
  intros Hc He. rewrite (stop_tracking_timestamp _ _ _ _ Hc). simpl. rewrite He.
  destruct (stop_tracking_visits cutoff now rest []) as [kept r]. eauto.
Qed.

Lemma stop_tracking_visits_flows cutoff now self :
  forall flows,
    stop_tracking_visits cutoff now self flows =
      (fst (stop_tracking_visits cutoff now self []),
       more ← snd (stop_tracking_visits cutoff now self []); OK (flows ++ more)).
Proof.
  remember (length self) as n eqn:Hn.
  assert (Hle : (length self <= n)%nat) by lia. clear Hn.
  revert self Hle. induction n as [|n IH]; intros self Hle flows.
  - destruct self; [|simpl in Hle; lia]. simpl. rewrite app_nil_r. reflexivity.
  - destruct self as [|branch rest]; [simpl; rewrite app_nil_r; reflexivity|].
    simpl in Hle. cbn [stop_tracking_visits].
    destruct (expired cutoff now branch).
    + destruct (follow_back branch (amt branch) None) as [flow|e]; [|reflexivity].
      destruct rest as [|skipped rest'].
      * reflexivity.
      * rewrite (IH rest') by (simpl in Hle; lia).
        rewrite (IH rest' ltac:(simpl in Hle; lia) ([] ++ [flow])).
        destruct (stop_tracking_visits cutoff now rest' []) as [kept [more|e]];
          simpl; [|reflexivity].
        rewrite <- app_assoc. reflexivity.
    + rewrite (IH rest) by lia.
      destruct (stop_tracking_visits cutoff now rest []) as [kept [more|e]];
        reflexivity.
Qed.

(** C3 fails on the code.  When the branch at the head of the tracker is
    past the cutoff and is followed back, the branch behind it is passed
    over: it stays in the tracker and yields no flow, past the cutoff or
    not.  The rest of the list is treated as a list of its own. *)
Theorem stop_tracking_skips_after_removal
    (cls : TrackerClass) (cutoff now : Z)
    (b1 b2 : Branch) (rest : list Branch) (flow1 : Flow) :
  time_cutoff cls = Some cutoff ->
  (now - timestamp (txn b1) > cutoff)%Z ->
  (now - timestamp (txn b2) > cutoff)%Z ->
  follow_back b1 (amt b1) None = OK flow1 ->
  stop_tracking cls (Some now) (b1 :: b2 :: rest) =
    (b2 :: fst (stop_tracking cls (Some now) rest),
     flows ← snd (stop_tracking cls (Some now) rest); OK (flow1 :: flows)).
Proof.
  intros Hc H1 _ Hf. rewrite !(stop_tracking_timestamp _ _ _ _ Hc).
  cbn [stop_tracking_visits]. unfold expired at 1.
  apply Z.gtb_gt in H1. rewrite H1, Hf.
  rewrite stop_tracking_visits_flows.
  destruct (stop_tracking_visits cutoff now rest []) as [kept [more|e]]; reflexivity.
Qed.

Lemma stop_tracking_skips_after_removal_witness :
  exists flow1,
    follow_back old_branch_1 (amt old_branch_1) None = OK flow1 /\
    stop_tracking (with_cutoff greedy) (Some 108000%Z) [old_branch_1; old_branch_2] =
      ([old_branch_2], OK [flow1]).
Proof.
  eexists. split.
  - vm_compute. reflexivity.
  - apply (stop_tracking_skips_after_removal
             (with_cutoff greedy) 86400 108000 old_branch_1 old_branch_2 []).
    + reflexivity.
    + reflexivity.
    + reflexivity.
    + vm_compute. reflexivity.
Defined.

(** ** C2: the last loop of [Well_mixed_tracker.extend_branches] *)

Lemma well_mixed_shrink_loop cls stay_factor :
  forall fuel (self pre : list (nat * Branch)),
    (length self <= fuel)%nat ->
    fst (for_in_self fuel (length pre)
           (fun i (entry : nat * Branch) (_ : unit) self =>
              let branch := snd entry in
              if ltb (stay_factor * amt branch) (resolution_limit cls) then
                (delete i self, OK tt)
              else
                (<[i := (fst entry, depreciate branch stay_factor)]> self, OK tt))
           tt (pre ++ self)) =
    pre ++ well_mixed_shrink_visits (resolution_limit cls) stay_factor self.
Proof.
  induction fuel as [|fuel IH]; intros self pre Hlen.
  - destruct self; [|simpl in Hlen; lia]. reflexivity.
  - destruct self as [|entry rest].
    + simpl. rewrite lookup_at_end. reflexivity.
    + simpl in Hlen. cbn [for_in_self]. rewrite lookup_at_end. cbn [lookup list_lookup].
      cbn [well_mixed_shrink_visits]. cbv zeta.
      destruct (ltb (stay_factor * amt (snd entry)) (resolution_limit cls)).
      * rewrite delete_at_end.
        destruct rest as [|skipped rest'].
        -- rewrite app_nil_r. destruct fuel; simpl.
           ++ reflexivity.
           ++ rewrite lookup_ge_None_2 by (simpl; lia). reflexivity.
        -- rewrite (snoc_app pre skipped rest'), <- (length_snoc pre skipped).
           rewrite IH by (simpl in Hlen; lia).
           rewrite <- app_assoc. reflexivity.
      * rewrite insert_at_end.
        rewrite (snoc_app pre _ rest), <- (length_snoc pre (fst entry, depreciate (snd entry) stay_factor)).
        rewrite IH by lia.
        rewrite <- app_assoc. reflexivity.
Qed.

Lemma well_mixed_shrink_eq cls stay_factor self :
  well_mixed_shrink cls stay_factor self =
    well_mixed_shrink_visits (resolution_limit cls) stay_factor self.
Proof.
  unfold well_mixed_shrink.
  exact (well_mixed_shrink_loop cls stay_factor (length self) self [] (le_n _)).
Qed.

(** What the loop does to a branch that it visits. *)
Lemma well_mixed_shrink_depreciates cls stay_factor entry rest :
  resolution_limit cls <= stay_factor * amt (snd entry) ->
  well_mixed_shrink cls stay_factor (entry :: rest) =
    (fst entry, depreciate (snd entry) stay_factor)
      :: well_mixed_shrink cls stay_factor rest.
Proof.
  intros H. rewrite !well_mixed_shrink_eq. simpl.
  apply ltb_false in H. rewrite H. reflexivity.
Qed.

(** C2 fails on the code.  When the branch at the head is removed
    ([stay_factor * amt < resolution_limit]), the branch behind it is
    passed over: it stays in the tracker with the amount it had, neither
    removed nor depreciated, whatever that amount is. *)
Theorem well_mixed_shrink_skips_after_removal
    (cls : TrackerClass) (stay_factor : Q)
    (entry skipped : nat * Branch) (rest : list (nat * Branch)) :
  stay_factor * amt (snd entry) < resolution_limit cls ->
  well_mixed_shrink cls stay_factor (entry :: skipped :: rest) =
    skipped :: well_mixed_shrink cls stay_factor rest.
Proof.
  intros H. rewrite !well_mixed_shrink_eq. simpl.
  apply ltb_true in H. rewrite H. reflexivity.
Qed.

Lemma well_mixed_shrink_skips_after_removal_witness :
  well_mixed_shrink (plain well_mixed) (1 # 4)
    [(0%nat, small_branch); (1%nat, large_branch)] =
  [(1%nat, large_branch)].
Proof.
  apply (well_mixed_shrink_skips_after_removal (plain well_mixed) (1 # 4)
           (0%nat, small_branch) (1%nat, large_branch) []).
  reflexivity.
Defined.

(** The same through [Well_mixed_tracker.extend_branches], for a balance
    of 100 and a transfer of 75: the branch of 99.97 stays as it was,
    where a quarter of it should stay; 9/400 and 29991/400 go on. *)
Lemma Well_mixed_extend_branches_leaves_a_branch_whole :
  exists new_pool,
    Well_mixed_extend_branches (plain well_mixed) 100 transfer_of_75
      [small_branch; large_branch] =
    ([large_branch], OK (new_pool, a_list [])) /\
    map (fun b => Qred (amt b)) new_pool = [9 # 400; 29991 # 400].
Proof.
  eexists. split; [vm_compute; reflexivity|]. reflexivity.
Qed.

(** ** C8: the flush at the end of the stream *)

Lemma get_update_account id id' f (σ : Accounts) :
  get_account id' (update_account id f σ) =
    if String.eqb id id' then option_map f (get_account id' σ)
    else get_account id' σ.
Proof.
  induction σ as [|[k a] σ IH]; simpl.
  - destruct (String.eqb id id'); reflexivity.
  - destruct (String.eqb k id) eqn:Ek.
    + apply String.eqb_eq in Ek. subst k. simpl.
      destruct (String.eqb id id') eqn:E; reflexivity.
    + simpl. destruct (String.eqb k id') eqn:Ek'.
      * apply String.eqb_eq in Ek'. subst k. rewrite String.eqb_sym, Ek. reflexivity.
      * exact IH.
Qed.

Lemma keys_update_account id f (σ : Accounts) :
  map fst (update_account id f σ) = map fst σ.
Proof.
  induction σ as [|[k a] σ IH]; simpl; [reflexivity|].
  destruct (String.eqb k id); simpl; [reflexivity|]. f_equal. exact IH.
Qed.

Lemma get_account_key id (σ : Accounts) a :
  get_account id σ = Some a -> In id (map fst σ).
Proof.
  induction σ as [|[k b] σ IH]; simpl; [discriminate|].
  destruct (String.eqb k id) eqn:E.
  - apply String.eqb_eq in E. auto.
  - intros H. right. exact (IH H).
Qed.

Lemma touches_only_ret {A} id (a : A) : touches_only id (mret a : EM A).
Proof. intros σ. split; [reflexivity|]. intros; reflexivity. Qed.

Lemma touches_only_pure {A} id (r : Res A) : touches_only id (EM_pure r).
Proof. intros σ. split; [reflexivity|]. intros; reflexivity. Qed.

Lemma touches_only_yield id flows : touches_only id (yield_from flows).
Proof. intros σ. split; [reflexivity|]. intros; reflexivity. Qed.

Lemma touches_only_the_account id id0 : touches_only id (the_account id0).
Proof.
  intros σ. unfold the_account. destruct (get_account id0 σ); split; try reflexivity;
    intros; reflexivity.
Qed.

Lemma touches_only_change id f : touches_only id (change_account id f).
Proof.
  intros σ. unfold change_account. simpl. split.
  - apply keys_update_account.
  - intros id' H. rewrite get_update_account.
    destruct (String.eqb id id') eqn:E; [|reflexivity].
    apply String.eqb_eq in E. congruence.
Qed.

Lemma touches_only_on_tracker {A} id (m : Q -> TM A) : touches_only id (on_tracker id m).
Proof.
  intros σ. unfold on_tracker.
  destruct (get_account id σ) as [a|]; [|split; [reflexivity|intros; reflexivity]].
  destruct (tracker a) as [self|]; [|split; [reflexivity|intros; reflexivity]].
  destruct (m (balance a) self) as [self' r]. simpl. split.
  - apply keys_update_account.
  - intros id' H. rewrite get_update_account.
    destruct (String.eqb id id') eqn:E; [|reflexivity].
    apply String.eqb_eq in E. congruence.
Qed.

Lemma touches_only_bind {A B} id (m : EM A) (f : A -> EM B) :
  touches_only id m -> (forall a, touches_only id (f a)) ->
  touches_only id (m ≫= f).
Proof.
  intros Hm Hf σ. unfold mbind, EM_mbind, EM_bind.
  destruct (Hm σ) as [Hk Hg].
  destruct (outcome (m σ)) as [a|e]; simpl.
  - destruct (Hf a (accounts_after (m σ))) as [Hk' Hg']. split.
    + rewrite Hk'. exact Hk.
    + intros id' H. rewrite (Hg' id' H). exact (Hg id' H).
  - split; assumption.
Qed.

Lemma touches_only_try {A} id (m : EM A) :
  touches_only id m -> touches_only id (try_except m).
Proof. intros Hm σ. exact (Hm σ). Qed.

Lemma touches_only_remaining_funds cls fc tw id :
  touches_only id (remaining_funds cls fc tw id).
Proof.
  unfold remaining_funds.
  apply touches_only_bind; [apply touches_only_the_account|]. intros a.
  destruct (has_tracker a); [|apply touches_only_ret].
  apply touches_only_bind.
  - destruct (time_cutoff cls) as [cutoff|]; [|apply touches_only_ret].
    destruct (cutoff =? 0)%Z; [apply touches_only_ret|].
    apply touches_only_bind; [apply touches_only_on_tracker|].
    intros flows. apply touches_only_yield.
  - intros _. apply touches_only_bind; [apply touches_only_the_account|]. intros a'.
    destruct (infer cls); destruct (gtb (balance a') (resolution_limit cls));
      try apply touches_only_yield;
      (apply touches_only_bind; [apply touches_only_on_tracker|]);
      intros flows; apply touches_only_yield.
Qed.

(** For an account without a tracker nothing is yielded and nothing
    changes, whether the lookup succeeds or not. *)
Lemma remaining_funds_closed cls fc tw id σ :
  closed_at id σ ->
  yielded (remaining_funds cls fc tw id σ) = [] /\
  accounts_after (remaining_funds cls fc tw id σ) = σ.
Proof.
  intros H. unfold remaining_funds, mbind, EM_mbind, EM_bind, the_account.
  destruct (get_account id σ) as [a|] eqn:E; simpl.
  - unfold has_tracker. rewrite (H a E). simpl. split; reflexivity.
  - split; reflexivity.
Qed.

(** One turn of the loop of [track_remaining_funds]. *)
Lemma track_remaining_funds_from_cons cls fc tw id ids σ :
  let o := remaining_funds cls fc tw id σ in
  let rest :=
    track_remaining_funds_from cls fc tw ids
      (update_account id close_out (accounts_after o)) in
  track_remaining_funds_from cls fc tw (id :: ids) σ =
    mkOut (yielded o ++ yielded rest) (accounts_after rest) (outcome rest).
Proof.
  simpl. unfold mbind, EM_mbind, EM_bind, try_except, change_account. simpl.
  reflexivity.
Qed.

Lemma closed_at_close_out id id' σ :
  closed_at id' σ \/ id' = id ->
  closed_at id' (update_account id close_out σ).
Proof.
  intros H a. rewrite get_update_account.
  destruct (String.eqb id id') eqn:E.
  - destruct (get_account id' σ) as [b|]; simpl; [|discriminate].
    intros [= <-]. reflexivity.
  - destruct H as [H|H]; [apply H|].
    subst id'. rewrite String.eqb_refl in E. discriminate.
Qed.

(** After the flush the accounts are those that were there, and every
    account that the loop went through, or that had no tracker, has
    none. *)
Lemma track_remaining_funds_from_closes cls fc tw ids :
  forall σ,
    let σ' := accounts_after (track_remaining_funds_from cls fc tw ids σ) in
    map fst σ' = map fst σ /\
    forall id, In id ids \/ closed_at id σ -> closed_at id σ'.
Proof.
  induction ids as [|id ids IH]; intros σ.
  - simpl. split; [reflexivity|]. intros id [[]|H]. exact H.
  - rewrite track_remaining_funds_from_cons. cbv zeta. simpl accounts_after.
    destruct (touches_only_remaining_funds cls fc tw id σ) as [Hk Hg].
    destruct (IH (update_account id close_out
                    (accounts_after (remaining_funds cls fc tw id σ)))) as [Hk' Hc'].
    split.
    + rewrite Hk', keys_update_account. exact Hk.
    + intros id' H. apply Hc'.
      destruct (String.eqb id id') eqn:E.
      * apply String.eqb_eq in E. subst id'. right.
        apply closed_at_close_out. right. reflexivity.
      * apply String.eqb_neq in E.
        destruct H as [[H|H]|H]; [congruence|left; exact H|].
        right. apply closed_at_close_out. left.
        intros a. rewrite Hg by congruence. apply H.
Qed.

(** A flush of accounts that have no tracker yields nothing. *)
Lemma track_remaining_funds_from_closed cls fc tw ids :
  forall σ, (forall id, closed_at id σ) ->
    yielded (track_remaining_funds_from cls fc tw ids σ) = [].
Proof.
  induction ids as [|id ids IH]; intros σ H; [reflexivity|].
  rewrite track_remaining_funds_from_cons. cbv zeta. simpl yielded.
  destruct (remaining_funds_closed cls fc tw id σ (H id)) as [Hy Ha].
  rewrite Hy, Ha. simpl. apply IH.
  intros id'. apply closed_at_close_out. left. apply H.
Qed.

(** C8.  Running the flush at the end of the stream a second time, on
    the accounts as the first run left them, yields no flow. *)
Theorem track_remaining_funds_twice
    (cls : TrackerClass) (fee_convention : option FeeConvention)
    (timewindow : Z * Z) (accounts : Accounts) :
  yielded
    (track_remaining_funds cls fee_convention timewindow
       (accounts_after
          (track_remaining_funds cls fee_convention timewindow accounts))) = [].
Proof.
  unfold track_remaining_funds at 1.
  apply track_remaining_funds_from_closed.
  intros id a Ha. unfold track_remaining_funds in Ha |- *.
  destruct (track_remaining_funds_from_closes cls fee_convention timewindow
              (map fst accounts) accounts) as [Hk Hc].
  apply (Hc id); [|exact Ha].
  left. rewrite <- Hk. exact (get_account_key _ _ _ Ha).
Qed.

(** ** C7: a fee larger than the amount *)

Lemma get_update_same id f (σ : Accounts) :
  get_account id (update_account id f σ) = option_map f (get_account id σ).
Proof. rewrite get_update_account, String.eqb_refl. reflexivity. Qed.

(** [Tracker.__init__] returns: the transaction of an inferred deposit
    has no fee. *)
Lemma Tracker_init_returns cls fc tw id b :
  exists self, Tracker_init cls fc tw id b = (self, OK tt).
Proof.
  unfold Tracker_init. destruct (infer cls); [|eexists; reflexivity].
  unfold infer_deposit. destruct (gtb b (resolution_limit cls)); [|eexists; reflexivity].
  unfold mbind, TM_mbind, TM_bind, TM_pure, Transaction_init.
  assert (H1 : ltb (b + 0) b = false) by (apply ltb_false; lra).
  assert (H2 : ltb b (b - 0) = false) by (apply ltb_false; lra).
  assert (H3 : ltb (b + 0) (b - 0) = false) by (apply ltb_false; lra).
  assert (H4 : ltb b b = false) by (apply ltb_false; lra).
  destruct fc as [[]|]; simpl; rewrite ?H1, ?H2, ?H3, ?H4; eexists; reflexivity.
Qed.

(** [acct.tracked = True; if not acct.has_tracker(): acct.track(cls)]
    returns for an account that exists, and leaves its balance alone. *)
Lemma start_tracking_returns cls fc tw id σ a :
  get_account id σ = Some a ->
  exists self,
    start_tracking cls fc tw id σ =
      mkOut [] (accounts_after (start_tracking cls fc tw id σ)) (OK tt) /\
    get_account id (accounts_after (start_tracking cls fc tw id σ)) =
      Some (set_tracker (set_tracked a) (Some self)).
Proof.
  intros Ha. unfold start_tracking, mbind, EM_mbind, EM_bind, change_account, the_account.
  simpl. rewrite get_update_same, Ha. simpl.
  destruct (tracker a) as [self|] eqn:Et.
  - exists self. unfold has_tracker. simpl. rewrite Et. simpl. split; [reflexivity|].
    rewrite get_update_same, Ha. simpl. unfold set_tracker, set_tracked. simpl.
    rewrite Et. reflexivity.
  - unfold has_tracker. simpl. rewrite Et. simpl.
    unfold track, mbind, EM_mbind, EM_bind, the_account. simpl.
    rewrite get_update_same, Ha. simpl.
    destruct (Tracker_init_returns cls fc tw id (balance a)) as [self Hs].
    rewrite Hs. exists self. unfold change_account. simpl. split; [reflexivity|].
    rewrite get_update_same, get_update_same, Ha. reflexivity.
Qed.

(** An excess fee within the resolution limit: [infer_withdraw] does
    nothing. *)
Lemma infer_withdraw_below_limit cls fc tw id b a f type track self :
  a + f <= resolution_limit cls ->
  infer_withdraw cls fc tw id b a f type track self = (self, OK []).
Proof.
  intros H. unfold infer_withdraw. apply gtb_false in H. rewrite H. reflexivity.
Qed.

Lemma withdraw_excess_fee_below_limit cls fc tw t σ a :
  get_account (tgt t) σ = Some a ->
  - amt_in t <= resolution_limit cls ->
  exists self,
    withdraw_excess_fee cls fc tw t σ =
      mkOut [] (accounts_after (withdraw_excess_fee cls fc tw t σ)) (OK tt) /\
    get_account (tgt t) (accounts_after (withdraw_excess_fee cls fc tw t σ)) =
      Some (set_tracker (set_tracked a) (Some self)).
Proof.
  intros Ha Hlim.
  destruct (start_tracking_returns cls fc tw (tgt t) σ a Ha) as (self & Hs & Hg).
  exists self. unfold withdraw_excess_fee, mbind, EM_mbind, EM_bind.
  destruct (start_tracking cls fc tw (tgt t) σ) as [y σ1 r].
  simpl in Hs, Hg. injection Hs as -> ->. simpl.
  unfold on_tracker. rewrite Hg. simpl.
  rewrite infer_withdraw_below_limit by (rewrite Qplus_0_l; exact Hlim).
  simpl. split; [reflexivity|].
  rewrite get_update_same, Hg. reflexivity.
Qed.

Lemma process_correct_eq cls fc tw t tgt_track σ :
  amt_in t < 0 ->
  process_correct cls fc tw t tgt_track σ =
    ((if tgt_track then withdraw_excess_fee cls fc tw t else mret tt);;
     change_account (tgt t) (fun a => set_balance a (balance a + amt_in t));;
     mret (corrected t)) σ.
Proof.
  intros H. unfold process_correct. apply ltb_true in H. rewrite H. reflexivity.
Qed.

(** The correction of [process] when it returns.  For a transaction
    with [amt_in < 0], let [w] be the run of the block under
    [if tgt_track] (nothing when the target is not tracked).
    - When [w] returns, its flows are the flows of the correction,
      [amt_in] is added to the target's balance, and the transaction is
      left with [amt_in = 0] and [fee_scaling = 1].
    - When the target is not tracked, [w] returns and yields nothing.
    - When the target is tracked and the excess fee [- amt_in] is within
      the resolution limit, [w] returns and yields nothing: no flow
      accounts for the excess fee; the target's balance ends at
      [balance + amt_in].
    - The corrected transaction has the [amt_out] it had, so
      [0 <= amt_in <= amt_out] holds for it when [0 <= amt_out].
    - [process] goes on with the corrected transaction. *)
Lemma process_correct_clamps
    (cls : TrackerClass) (fc : option FeeConvention) (tw : Z * Z)
    (t : Transaction) (tgt_track : bool) (σ : Accounts) :
  amt_in t < 0 ->
  let w := (if tgt_track then withdraw_excess_fee cls fc tw t else mret tt) σ in
  let σ' :=
    update_account (tgt t) (fun a => set_balance a (balance a + amt_in t))
      (accounts_after w) in
  (outcome w = OK tt ->
   process_correct cls fc tw t tgt_track σ = mkOut (yielded w) σ' (OK (corrected t))) /\
  (tgt_track = false -> w = mkOut [] σ (OK tt)) /\
  (tgt_track = true -> - amt_in t <= resolution_limit cls ->
   forall a, get_account (tgt t) σ = Some a ->
     yielded w = [] /\ outcome w = OK tt /\
     exists a', get_account (tgt t) σ' = Some a' /\
                balance a' = balance a + amt_in t /\ tracked a' = true) /\
  (amt_in (corrected t) = 0 /\ fee_scaling (corrected t) = Some 1 /\
   amt_out (corrected t) = amt_out t) /\
  (0 <= amt_out t ->
   0 <= amt_in (corrected t) /\ amt_in (corrected t) <= amt_out (corrected t)) /\
  (outcome w = OK tt ->
   forall src_track,
     let o := process_extend cls fc tw (corrected t) src_track tgt_track σ' in
     process cls fc tw t src_track tgt_track σ =
       mkOut (yielded w ++ yielded o) (accounts_after o)
         (match outcome o with
          | OK _ => OK (corrected t)
          | Raise e => Raise e
          end)).
Proof.
  intros Hneg w σ'.
  assert (Hcorrect : outcome w = OK tt ->
            process_correct cls fc tw t tgt_track σ =
              mkOut (yielded w) σ' (OK (corrected t))).
  { intros Hw. rewrite (process_correct_eq _ _ _ _ _ _ Hneg).
    unfold mbind, EM_mbind, EM_bind. fold w. rewrite Hw. simpl.
    rewrite app_nil_r. reflexivity. }
  split; [exact Hcorrect|]. split; [|split; [|split; [|split]]].
  - intros ->. reflexivity.
  - intros -> Hlim a Ha. subst σ' w.
    destruct (withdraw_excess_fee_below_limit cls fc tw t σ a Ha Hlim)
      as (self & Hw & Hg).
    rewrite Hw. simpl. split; [reflexivity|]. split; [reflexivity|].
    eexists. split.
    + rewrite get_update_same, Hg. reflexivity.
    + split; reflexivity.
  - repeat split; reflexivity.
  - intros Hout. simpl. split; [apply Qle_refl|exact Hout].
  - intros Hw src_track o. unfold process, mbind, EM_mbind, EM_bind.
    rewrite (Hcorrect Hw). simpl. fold o.
    destruct (outcome o) as [[]|e]; simpl; rewrite ?app_nil_r; reflexivity.
Qed.

Lemma process_correct_clamps_witness :
  amt_in small_excess_fee < 0 /\
  exists b,
    get_account "B" B_holds_fifty = Some b /\
    yielded (withdraw_excess_fee (plain greedy) (Some recipient) window
               small_excess_fee B_holds_fifty) = [] /\
    outcome (withdraw_excess_fee (plain greedy) (Some recipient) window
               small_excess_fee B_holds_fifty) = OK tt /\
    exists b',
      get_account "B"
        (update_account "B"
           (fun a => set_balance a (balance a + amt_in small_excess_fee))
           (accounts_after
              (withdraw_excess_fee (plain greedy) (Some recipient) window
                 small_excess_fee B_holds_fifty))) = Some b' /\
      balance b' = balance b + amt_in small_excess_fee /\ tracked b' = true.
Proof.
  split; [reflexivity|].
  eexists. split; [vm_compute; reflexivity|].
  refine (proj1 (proj2 (proj2
    (process_correct_clamps (plain greedy) (Some recipient) window
       small_excess_fee true B_holds_fifty eq_refl))) eq_refl _ _ _).
  - vm_compute. intros H. discriminate H.
  - vm_compute. reflexivity.
Defined.

(** B is tracked and holds 50.  A transfer of 1 to B
    with a recipient's fee of 1.005 has [amt_in = -0.005]: it is
    corrected, and no flow is yielded for the excess fee.  A record with
    the amount -5 and a fee of 1 has [amt_out = -5], [amt_in = -6]: after
    the correction [amt_out < amt_in]. *)
Lemma excess_fee_without_flow :
  (amt_in small_excess_fee < 0 /\
   (exists b, get_account "B" B_holds_fifty = Some b /\
              tracked b = true /\ option_map (map amt) (tracker b) = Some [50]) /\
   yielded (process_correct (plain greedy) (Some recipient) window
              small_excess_fee true B_holds_fifty) = [] /\
   outcome (process_correct (plain greedy) (Some recipient) window
              small_excess_fee true B_holds_fifty) = OK (corrected small_excess_fee)) /\
  (amt_in negative_amount < 0 /\
   outcome (process_correct (plain greedy) (Some recipient) window
              negative_amount false B_holds_fifty) = OK (corrected negative_amount) /\
   amt_out (corrected negative_amount) < amt_in (corrected negative_amount)).
Proof.
  split.
  - split; [reflexivity|]. split; [|split].
    + eexists. split; [vm_compute; reflexivity|]. split; reflexivity.
    + vm_compute. reflexivity.
    + vm_compute. reflexivity.
  - split; [reflexivity|]. split.
    + vm_compute. reflexivity.
    + reflexivity.
Qed.

(** C7 fails on the code under the recipient convention.  B is tracked
    and holds 50; a transfer of 1 to B with a recipient's fee of 3 has
    [amt_in = -2], an excess fee of 2 above the resolution limit.
    [infer_withdraw] passes the excess fee as [src_fee]; under the
    recipient convention [get_amounts] does not read it, the inferred
    withdraw has [amt_out = 0], and the greedy tracker divides by it:
    [process] raises before the correction.  No flow is yielded for the
    transaction, and [System.process] works with the transaction as it
    was, [amt_in = -2]: B ends with a balance of 48 while its tracker
    still holds 50.  Under the split convention the same call yields the
    flow of 2 that ends with a transaction of type [fee]. *)
Theorem excess_fee_under_the_recipient_convention :
  amt_in large_excess_fee < 0 /\
  (exists b,
     get_account "B" B_holds_fifty = Some b /\
     tracked b = true /\ option_map (map amt) (tracker b) = Some [50]) /\
  outcome (process_correct (plain greedy) (Some recipient) window
             large_excess_fee true B_holds_fifty) = Raise ZeroDivisionError /\
  yielded (track_transaction (plain greedy) (Some recipient) window None
             large_excess_fee B_holds_fifty) = [] /\
  (exists b,
     get_account "B"
       (accounts_after (track_transaction (plain greedy) (Some recipient) window None
                          large_excess_fee B_holds_fifty)) = Some b /\
     balance b == 48 /\ option_map (map amt) (tracker b) = Some [50]) /\
  map (fun f => (Qred (flow_amt f), flow_txn_types f))
    (yielded (process_correct (plain greedy) (Some split) window
                large_excess_fee true B_holds_fifty)) =
  [(2, ["p2p"; "fee"])].
Proof.
  split; [reflexivity|]. split.
  { eexists. split; [vm_compute; reflexivity|]. split; reflexivity. }
  split; [vm_compute; reflexivity|]. split; [vm_compute; reflexivity|]. split.
  - eexists. split; [vm_compute; reflexivity|]. split; reflexivity.
  - vm_compute. reflexivity.
Qed.

(** ** C1: tracked amounts and the balance *)

(** C1 fails on the code.  Well-mixed heuristic, resolution limit 0.01:
    B receives 0.03 and 99.97 and sends 75.  Before the transfer B's
    tracker holds its balance, 100.  After it the balance is 25 and the
    tracker holds the branch of 99.97 as it was: the last loop of
    [Well_mixed_tracker.extend_branches] removed the branch of 0.03 and
    went past the one behind it. *)
Theorem well_mixed_run_tracks_more_than_the_balance :
  (exists b,
     get_account "B"
       (accounts_after
          (track_transactions (plain well_mixed) None window None
             [small_deposit; large_deposit]
             (accounts_at_start (plain well_mixed) None))) = Some b /\
     tracker b = Some [small_branch; large_branch] /\
     tracked_amount b == balance b) /\
  (exists b,
     get_account "B" after_well_mixed_run = Some b /\
     tracker b = Some [large_branch] /\
     balance b == 25 /\
     balance b + 74 < tracked_amount b).
Proof.
  split.
  - eexists. split; [vm_compute; reflexivity|]. split; reflexivity.
  - eexists. split; [vm_compute; reflexivity|]. split; [reflexivity|].
    split; reflexivity.
Qed.

(** ** The greedy heuristic conserves the tracked amount

    What C1 asks for does hold for [Greedy_tracker.extend_branches], up
    to the resolution limit on each side. *)

Lemma fold_left_Qplus (l : list Q) (a : Q) :
  fold_left Qplus l a == a + fold_left Qplus l 0.
Proof.
  revert a. induction l as [|x l IH]; intros a; simpl.
  - lra.
  - rewrite (IH (a + x)), (IH (0 + x)). lra.
Qed.

Lemma sum_cons (x : Q) (l : list Q) : sum (x :: l) == x + sum l.
Proof. unfold sum. simpl. rewrite fold_left_Qplus. lra. Qed.

Lemma sum_app (l l' : list Q) : sum (l ++ l') == sum l + sum l'.
Proof.
  induction l as [|x l IH]; simpl.
  - change (sum []) with 0. lra.
  - rewrite !sum_cons, IH. lra.
Qed.

Lemma sum_snoc (l : list Q) (x : Q) : sum (l ++ [x]) == sum l + x.
Proof. rewrite sum_app, sum_cons. change (sum []) with 0. lra. Qed.

Lemma sum_nonneg (l : list Q) : Forall (fun x => 0 <= x) l -> 0 <= sum l.
Proof.
  induction 1 as [|x l Hx _ IH]; [change (sum []) with 0; lra|].
  rewrite sum_cons. lra.
Qed.

Lemma snoc_or_nil {A} (l : list A) : l = [] \/ exists l' x, l = l' ++ [x].
Proof. destruct l as [|y l] using rev_ind; eauto. Qed.

(** The loop ends with a result: it takes off the tracker what it
    collects, and collects the amount asked for up to the limit. *)
Lemma sum_amt_snoc (l : list Branch) (b : Branch) :
  sum (map amt (l ++ [b])) == sum (map amt l) + amt b.
Proof. rewrite map_app. apply sum_snoc. Qed.

Lemma sum_amt_cons (b : Branch) (l : list Branch) :
  sum (map amt (b :: l)) == amt b + sum (map amt l).
Proof. apply sum_cons. Qed.

Lemma pop_loop_accounts cls :
  0 <= resolution_limit cls ->
  forall fuel a branches self,
    (length self < fuel)%nat ->
    Forall nonneg self ->
    - resolution_limit cls <= a ->
    a <= sum (map amt self) ->
    exists self' out,
      pop_loop cls fuel a branches self = (self', OK (branches ++ out)) /\
      sum (map amt self') + sum (map amt out) == sum (map amt self) /\
      a - resolution_limit cls <= sum (map amt out) /\
      sum (map amt out) <= a + resolution_limit cls /\
      Forall nonneg self' /\ Forall nonneg out.
Proof.
  intros Hres. induction fuel as [|fuel IH]; intros a branches self Hlen Hpos Hlow Hup;
    [lia|].
  destruct (Qlt_le_dec (resolution_limit cls) a) as [Ha|Ha].
  - destruct (snoc_or_nil self) as [->|(l & b & ->)].
    + exfalso. change (sum (map amt [])) with 0 in Hup. lra.
    + pose proof (sum_amt_snoc l b) as Elb.
      apply Forall_app in Hpos as [Hl Hb]. apply Forall_inv in Hb.
      rewrite length_app in Hlen. simpl in Hlen. unfold nonneg in Hb.
      destruct (Qlt_le_dec (amt b) (a + resolution_limit cls)) as [Hb'|Hb'].
      * rewrite (pop_loop_consume _ _ _ _ _ _ Ha Hb').
        destruct (IH (a - amt b) (branches ++ [b]) l) as
          (self' & out & Heq & Hsum & Hlo & Hhi & Hs & Ho);
          [lia|exact Hl|lra|lra|].
        exists self', (b :: out). rewrite Heq, <- app_assoc. split; [reflexivity|].
        pose proof (sum_amt_cons b out) as Ebo.
        repeat split; try lra; auto.
      * rewrite (pop_loop_split _ _ _ _ _ _ Ha Hb'), pop_loop_done by exact Hres.
        exists (l ++ [decrement b a]), [mkBranch (prev b) (txn b) a].
        split; [reflexivity|].
        pose proof (sum_amt_snoc l (decrement b a)) as Eld.
        change (sum (map amt [mkBranch (prev b) (txn b) a])) with (0 + a).
        simpl in Eld.
        repeat split; try lra.
        -- apply Forall_app. split; [exact Hl|].
           constructor; [|constructor]. unfold nonneg. simpl. lra.
        -- constructor; [|constructor]. unfold nonneg. simpl. lra.
  - rewrite pop_loop_done by exact Ha. exists self, [].
    rewrite app_nil_r. split; [reflexivity|].
    change (sum (map amt [])) with 0. repeat split; try lra; auto.
Qed.

Lemma sum_amt_app (l l' : list Branch) :
  sum (map amt (l ++ l')) == sum (map amt l) + sum (map amt l').
Proof. rewrite map_app. apply sum_app. Qed.

Lemma sum_amt_rev (l : list Branch) : sum (map amt (rev l)) == sum (map amt l).
Proof.
  induction l as [|b l IH]; [reflexivity|]. simpl rev.
  pose proof (sum_amt_snoc (rev l) b). pose proof (sum_amt_cons b l). lra.
Qed.

(** The children of the collected branches hold at most the share
    [continues] of what was collected. *)
Lemma greedy_extend_bound cls t c :
  0 <= c ->
  forall bs ns nf ns' nf',
    Forall nonneg bs ->
    greedy_extend cls t c bs ns nf = OK (ns', nf') ->
    exists kids,
      ns' = ns ++ kids /\
      sum (map amt kids) <= c * sum (map amt bs) /\
      Forall nonneg kids.
Proof.
  intros Hc. induction bs as [|b bs IH]; intros ns nf ns' nf' Hpos H; simpl in H.
  - injection H as <- <-. exists []. rewrite app_nil_r. split; [reflexivity|].
    change (sum (map amt [])) with 0. split; [lra|constructor].
  - apply Forall_cons in Hpos as [Hb Hbs]. unfold nonneg in Hb.
    pose proof (sum_amt_cons b bs) as Eb.
    assert (Hkid : 0 <= amt b * c) by (apply Qmult_le_0_compat; assumption).
    assert (Hrest : 0 <= c * sum (map amt bs)).
    { apply Qmult_le_0_compat; [exact Hc|]. apply sum_nonneg.
      apply Forall_map. exact Hbs. }
    assert (Hdist : c * sum (map amt (b :: bs)) == amt b * c + c * sum (map amt bs)).
    { rewrite Eb. ring. }
    destruct (gtb (amt b * c) (resolution_limit cls)) eqn:E.
    + destruct (IH _ _ _ _ Hbs H) as (kids & -> & Hsum & Hk).
      exists (mkBranch (Some b) t (amt b * c) :: kids).
      rewrite <- app_assoc. split; [reflexivity|].
      pose proof (sum_amt_cons (mkBranch (Some b) t (amt b * c)) kids) as Ek.
      simpl amt in Ek. split; [lra|].
      constructor; [exact Hkid|exact Hk].
    + destruct (follow_back _ _ _) as [flow|e]; simpl in H; [|discriminate].
      destruct (IH _ _ _ _ Hbs H) as (kids & -> & Hsum & Hk).
      exists kids. split; [reflexivity|]. split; [lra|exact Hk].
Qed.

(** X1: conservation for the greedy tracker.  With a limit that is not
    negative, a tracker without negative amounts and a transaction with
    [0 <= amt_in <= amt_out] and [0 < amt_out]: whether the call returns
    or raises, the tracker gives up [min(amt_out, tracked)] up to the
    limit and keeps no negative amount; and the branches that the call
    returns for the target hold at most [amt_in] plus the limit. *)
Theorem Greedy_extend_branches_conserves
    (cls : TrackerClass) (t : Transaction) (self : list Branch) :
  0 <= resolution_limit cls ->
  Forall nonneg self ->
  0 < amt_out t -> 0 <= amt_in t -> amt_in t <= amt_out t ->
  let tracked := sum (map amt self) in
  let r := Greedy_extend_branches cls t self in
  sum (map amt (fst r)) <=
    tracked - min (amt_out t) tracked + resolution_limit cls /\
  tracked - min (amt_out t) tracked - resolution_limit cls <=
    sum (map amt (fst r)) /\
  Forall nonneg (fst r) /\
  forall new_stack flows,
    snd r = OK (new_stack, flows) ->
    sum (map amt new_stack) <= amt_in t + resolution_limit cls /\
    Forall nonneg new_stack.
Proof.
  intros Hres Hpos Hout Hin Hfee tracked r.
  assert (Htracked : 0 <= tracked).
  { apply sum_nonneg. apply Forall_map. exact Hpos. }
  set (a := min (amt_out t) tracked).
  assert (Ha : 0 <= a /\ a <= tracked /\ a <= amt_out t).
  { unfold a, min. destruct (ltb tracked (amt_out t)) eqn:E.
    - apply ltb_true in E. lra.
    - apply ltb_false in E. lra. }
  destruct Ha as (Ha0 & Hat & Hao).
  destruct (pop_loop_accounts cls Hres (S (length self)) a [] self)
    as (self' & out & Hloop & Hsum & Hlo & Hhi & Hs & Ho);
    [lia|exact Hpos|lra|exact Hat|].
  fold tracked in Hsum.
  subst r. unfold Greedy_extend_branches. fold tracked a. rewrite Hloop.
  cbn [fst snd app].
  split; [lra|]. split; [lra|]. split; [exact Hs|].
  intros new_stack flows.
  unfold div. destruct (Qeq_bool (amt_out t) 0) eqn:E0.
  { apply Qeq_bool_iff in E0. lra. }
  set (c := amt_in t / amt_out t). simpl.
  assert (Hc0 : 0 <= c).
  { unfold c. apply Qle_shift_div_l; [exact Hout|]. lra. }
  assert (Hc1 : c <= 1).
  { unfold c. apply Qle_shift_div_r; [exact Hout|]. lra. }
  assert (Hcout : c * amt_out t == amt_in t).
  { unfold c. field. lra. }
  destruct (greedy_extend cls t c (rev out) [] []) as [[kids0 flows0]|e] eqn:Ext;
    simpl; [|discriminate].
  destruct (greedy_extend_bound cls t c Hc0 (rev out) [] [] kids0 flows0
              (Forall_rev Ho) Ext) as (kids & -> & Hkids & Hk).
  simpl app in *.
  pose proof (sum_amt_rev out) as Erev.
  assert (Hbound : sum (map amt kids) <= amt_in t + resolution_limit cls).
  { assert (c * sum (map amt (rev out)) <= c * (amt_out t + resolution_limit cls)).
    { assert (sum (map amt (rev out)) <= amt_out t + resolution_limit cls) by lra.
      nra. }
    assert (c * resolution_limit cls <= 1 * resolution_limit cls).
    { nra. }
    lra. }
  destruct (gtb (amt_in t - sum (map amt kids)) (resolution_limit cls)) eqn:Eu.
  - intros [= <- <-]. apply gtb_true in Eu.
    pose proof (sum_amt_snoc kids (mkBranch None t (amt_in t - sum (map amt kids)))) as Ek.
    simpl amt in Ek. split; [lra|].
    apply Forall_app. split; [exact Hk|]. constructor; [|constructor].
    unfold nonneg. simpl. lra.
  - destruct (gtb (amt_out t - tracked) (resolution_limit cls)).
    + destruct (follow_back _ _ _) as [flow|e]; simpl; [|discriminate].
      intros [= <- <-]. split; [exact Hbound|exact Hk].
    + intros [= <- <-]. split; [exact Hbound|exact Hk].
Qed.

Lemma Greedy_extend_branches_conserves_witness :
  sum (map amt (fst (Greedy_extend_branches (coarse greedy) payment_of_one
                       [branch_three_halves]))) <=
    sum (map amt [branch_three_halves])
    - min (amt_out payment_of_one) (sum (map amt [branch_three_halves]))
    + resolution_limit (coarse greedy) /\
  sum (map amt [branch_three_halves])
  - min (amt_out payment_of_one) (sum (map amt [branch_three_halves]))
  - resolution_limit (coarse greedy) <=
    sum (map amt (fst (Greedy_extend_branches (coarse greedy) payment_of_one
                         [branch_three_halves]))) /\
  Forall nonneg (fst (Greedy_extend_branches (coarse greedy) payment_of_one
                        [branch_three_halves])) /\
  forall new_stack flows,
    snd (Greedy_extend_branches (coarse greedy) payment_of_one
           [branch_three_halves]) = OK (new_stack, flows) ->
    sum (map amt new_stack) <=
      amt_in payment_of_one + resolution_limit (coarse greedy) /\
    Forall nonneg new_stack.
Proof.
  apply (Greedy_extend_branches_conserves (coarse greedy) payment_of_one
           [branch_three_halves]).
  - vm_compute. intros H. discriminate H.
  - constructor; [|constructor]. vm_compute. intros H. discriminate H.
  - reflexivity.
  - vm_compute. intros H. discriminate H.
  - vm_compute. intros H. discriminate H.
Defined.

Lemma stop_tracking_flush_witness :
  exists flow1 flow2,
    stop_tracking (plain greedy) None [old_branch_1; old_branch_2] =
      ([], OK [flow1; flow2]) /\
    length [flow1; flow2] = length [old_branch_1; old_branch_2].
Proof.
  eexists. eexists.
  apply (stop_tracking_flush (plain greedy) [old_branch_1; old_branch_2]).
  vm_compute. reflexivity.
Defined.

(** The flush of C8 on accounts that hold something: the first pass
    yields the flow of the 50 that B holds, the second pass nothing. *)
Lemma track_remaining_funds_first_pass :
  map (fun f => (flow_amt f, flow_acct_IDs f))
    (yielded (track_remaining_funds (plain greedy) (Some recipient) window
                B_holds_fifty)) = [(50 + 50 * (0 # 50), ["A"; "B"])] /\
  map (fun entry => tracker (snd entry))
    (accounts_after (track_remaining_funds (plain greedy) (Some recipient) window
                       B_holds_fifty)) = [None; None; None].
Proof. split; vm_compute; reflexivity. Qed.

(** ** The trajectory of a flow *)

Lemma lineage_eq self :
  lineage self =
    match prev self with
    | Some p => lineage p ++ [txn self]
    | None => [txn self]
    end.
Proof. destruct self; reflexivity. Qed.

Lemma root_eq self :
  root self = match prev self with Some p => root p | None => self end.
Proof. destruct self; reflexivity. Qed.

Lemma gaps_snoc (ts : list Z) (y x : Z) :
  gaps ((ts ++ [y]) ++ [x]) = gaps (ts ++ [y]) ++ [(x - y)%Z].
Proof.
  induction ts as [|t1 ts IH]; [reflexivity|].
  destruct ts as [|t2 ts]; [reflexivity|].
  change (gaps (((t1 :: t2 :: ts) ++ [y]) ++ [x]))
    with ((t2 - t1)%Z :: gaps (((t2 :: ts) ++ [y]) ++ [x])).
  rewrite IH. reflexivity.
Qed.

Lemma lineage_ends self : exists ts, lineage self = ts ++ [txn self].
Proof.
  rewrite lineage_eq. destruct (prev self) as [p|].
  - eexists. reflexivity.
  - exists []. reflexivity.
Qed.

Lemma filter_snoc {A} (f : A -> bool) (l : list A) (x : A) :
  List.filter f (l ++ [x]) = List.filter f l ++ (if f x then [x] else []).
Proof. rewrite List.filter_app. reflexivity. Qed.

Lemma follow_back_follows self :
  forall a fee flow, follow_back self a fee = OK flow -> follows flow self.
Proof.
  induction self as [p t b IH] using Branch_chain_ind.
  intros a fee flow. rewrite follow_back_eq.
  destruct (effective_fee (mkBranch p t b) a fee) as [f|e]; simpl; [|discriminate].
  unfold follows.
  rewrite (lineage_eq (mkBranch p t b)), (root_eq (mkBranch p t b)).
  cbn [prev txn].
  destruct p as [q|].
  - destruct (follow_back q (a + f) None) as [flow0|e] eqn:E; simpl; [|discriminate].
    destruct (IH q eq_refl _ _ _ E) as (H1 & H2 & H3 & H4 & H5 & H6 & H7 & H8 & H9).
    unfold Flow_extend. cbn [prev txn].
    destruct (div a (flow_amt flow0)) as [r|e]; simpl; [|discriminate].
    intros [= <-]. cbn.
    rewrite H1, H2, H3, H4, H5, H7, H8, H9, !map_app, filter_snoc, length_app.
    destruct (lineage_ends q) as [ts Hts].
    repeat split; try reflexivity.
    + rewrite Hts, !map_app. cbn [map]. rewrite gaps_snoc. reflexivity.
    + lia.
    + destruct (is_transfer t); simpl; lia.
  - unfold Flow_init. cbn [txn].
    destruct (div f (a + f)) as [r|e]; simpl; [|discriminate].
    destruct (div (a + f) (amt_out t)) as [r'|e]; simpl; [|discriminate].
    destruct (if is_transfer t then div (amt_in t) (amt_out t) else OK 0) as [w|e];
      simpl; [|discriminate].
    intros [= <-]. cbn.
    repeat split; try reflexivity.
    + lia.
    + destruct (is_transfer t); reflexivity.
Qed.

(** X4: the flow that [follow_back] returns describes the chain of the
    branch: the transactions from the root branch down, the source of the
    first and the target of each, the time spent between each and the
    next, from the first to the last in all, and the number of transfers
    among them. *)
Theorem follow_back_trajectory
    (self : Branch) (a : Q) (fee : option Q) (flow : Flow) :
  follow_back self a fee = OK flow ->
  flow_txn_IDs flow = map txn_ID (lineage self) /\
  flow_txn_types flow = map type (lineage self) /\
  flow_acct_IDs flow = src (txn (root self)) :: map tgt (lineage self) /\
  flow_timestamp flow = timestamp (txn (root self)) /\
  beg_categ flow = categ (txn (root self)) /\
  end_categ flow = categ (txn self) /\
  flow_durations flow = gaps (map timestamp (lineage self)) /\
  flow_duration flow = (timestamp (txn self) - timestamp (txn (root self)))%Z /\
  flow_length flow = Z.of_nat (length (List.filter is_transfer (lineage self))).
Proof. exact (follow_back_follows self a fee flow). Qed.

Lemma follow_back_trajectory_witness :
  exists flow,
    follow_back child_with_fee 100 None = OK flow /\
    flow_txn_IDs flow = ["t1"; "t2"] /\
    flow_txn_types flow = ["p2p"; "p2p"] /\
    flow_acct_IDs flow = ["A"; "B"; "C"] /\
    flow_timestamp flow = 0%Z /\
    beg_categ flow = "deposit" /\
    end_categ flow = "transfer" /\
    flow_durations flow = [3600%Z] /\
    flow_duration flow = 3600%Z /\
    flow_length flow = 1%Z.
Proof.
  eexists. split.
  - vm_compute. reflexivity.
  - apply (follow_back_trajectory child_with_fee 100 None). vm_compute. reflexivity.
Defined.

(** ** The amounts of a flow *)

Lemma effective_fee_nonneg self a fee f :
  effective_fee self a fee = OK f ->
  0 <= a -> (forall f0, fee = Some f0 -> 0 <= f0) ->
  (forall s, fee_scaling (txn self) = Some s -> 0 <= s) ->
  0 <= f.
Proof.
  unfold effective_fee. intros H Ha Hfee Hs.
  assert (Hc : match fee_scaling (txn self) with
               | Some s => OK (a * s)
               | None => Raise TypeError
               end = OK f -> 0 <= f).
  { destruct (fee_scaling (txn self)) as [s|]; [|discriminate].
    intros [= <-]. apply Qmult_le_0_compat; [exact Ha|]. apply Hs. reflexivity. }
  destruct fee as [f0|]; [|exact (Hc H)].
  destruct (truthy f0); [|exact (Hc H)].
  injection H as <-. apply Hfee. reflexivity.
Qed.

Lemma div_OK x y r : div x y = OK r -> ~ y == 0 /\ r = x / y.
Proof.
  unfold div. destruct (Qeq_bool y 0) eqn:E; [discriminate|].
  intros [= <-]. split; [|reflexivity].
  intros Hz. apply Qeq_bool_iff in Hz. congruence.
Qed.

Lemma fraction_of_part x y : 0 <= x -> x <= y -> 0 < y -> fraction (1 - x / y).
Proof.
  intros Hx Hxy Hy. unfold fraction.
  assert (0 <= x / y) by (apply Qle_shift_div_l; [exact Hy|lra]).
  assert (x / y <= 1) by (apply Qle_shift_div_r; [exact Hy|lra]).
  lra.
Qed.

Lemma follow_back_fractions_of self :
  forall a fee flow,
    follow_back self a fee = OK flow ->
    0 <= a -> (forall f0, fee = Some f0 -> 0 <= f0) -> fees_nonneg self ->
    a <= flow_amt flow /\ 0 < flow_amt flow /\ Forall fraction (flow_rev_fracs flow).
Proof.
  induction self as [p t b IH] using Branch_chain_ind.
  intros a fee flow. rewrite follow_back_eq.
  destruct (effective_fee (mkBranch p t b) a fee) as [f|e] eqn:Ef; simpl; [|discriminate].
  intros H Ha Hfee Hs. unfold fees_nonneg in Hs. rewrite lineage_eq in Hs. cbn [prev txn] in Hs.
  assert (Hf : 0 <= f).
  { apply (effective_fee_nonneg _ _ _ _ Ef Ha Hfee). cbn [txn].
    destruct p; [apply Forall_app in Hs as [_ Hs]|]; apply Forall_inv in Hs; exact Hs. }
  destruct p as [q|].
  - apply Forall_app in Hs as [Hq _].
    destruct (follow_back q (a + f) None) as [flow0|e] eqn:E; simpl in H; [|discriminate].
    destruct (IH q eq_refl _ _ _ E) as (Hle & Hpos & Hfr);
      [lra|discriminate|exact Hq|].
    unfold Flow_extend in H. cbn [prev txn] in H.
    destruct (div a (flow_amt flow0)) as [r|e] eqn:Ed; simpl in H; [|discriminate].
    apply div_OK in Ed as [_ ->].
    injection H as <-. cbn. split; [lra|]. split; [exact Hpos|].
    apply Forall_app. split; [exact Hfr|]. constructor; [|constructor].
    apply fraction_of_part; lra.
  - unfold Flow_init in H. cbn [txn] in H.
    destruct (div f (a + f)) as [r|e] eqn:Ed; simpl in H; [|discriminate].
    apply div_OK in Ed as [Hn ->].
    destruct (div (a + f) (amt_out t)) as [r'|e]; simpl in H; [|discriminate].
    destruct (if is_transfer t then div (amt_in t) (amt_out t) else OK 0) as [w|e];
      simpl in H; [|discriminate].
    injection H as <-. cbn.
    assert (Hpos : 0 < a + f).
    { destruct (Qlt_le_dec 0 (a + f)) as [Hlt|Hge]; [exact Hlt|].
      exfalso. apply Hn. lra. }
    split; [lra|]. split; [exact Hpos|].
    constructor; [|constructor]. unfold fraction. split.
    + apply Qle_shift_div_l; [exact Hpos|lra].
    + apply Qle_shift_div_r; [exact Hpos|lra].
Qed.

(** X5: when the amount asked for and the fee given are not negative and
    no transaction behind the branch has a negative [fee_scaling], the
    flow that [follow_back] returns holds at least the amount asked for,
    more than nothing, and each of its [rev_fracs] is a fraction, between
    0 and 1. *)
Theorem follow_back_fractions
    (self : Branch) (a : Q) (fee : option Q) (flow : Flow) :
  follow_back self a fee = OK flow ->
  0 <= a -> (forall f0, fee = Some f0 -> 0 <= f0) -> fees_nonneg self ->
  a <= flow_amt flow /\ 0 < flow_amt flow /\
  Forall (fun r => 0 <= r /\ r <= 1) (flow_rev_fracs flow).
Proof. exact (follow_back_fractions_of self a fee flow). Qed.

Lemma follow_back_fractions_witness :
  exists flow,
    follow_back child_with_fee 100 None = OK flow /\
    100 <= flow_amt flow /\ 0 < flow_amt flow /\
    Forall (fun r => 0 <= r /\ r <= 1) (flow_rev_fracs flow).
Proof.
  eexists. split.
  - vm_compute. reflexivity.
  - apply (follow_back_fractions child_with_fee 100 None).
    + vm_compute. reflexivity.
    + vm_compute. intros H. discriminate H.
    + intros f0 H. discriminate H.
    + repeat constructor; intros s [= <-]; vm_compute; intros H; discriminate H.
Defined.

Lemma follow_back_last_of self a fee flow :
  follow_back self a fee = OK flow ->
  ~ flow_amt flow == 0 /\
  exists r, last (flow_rev_fracs flow) = Some r /\ r == 1 - a / flow_amt flow.
Proof.
  rewrite follow_back_eq.
  destruct (effective_fee self a fee) as [f|e]; simpl; [|discriminate].
  destruct (prev self) as [q|] eqn:Ep.
  - destruct (follow_back q (a + f) None) as [flow0|e]; simpl; [|discriminate].
    unfold Flow_extend. rewrite Ep.
    destruct (div a (flow_amt flow0)) as [r|e] eqn:Ed; simpl; [|discriminate].
    apply div_OK in Ed as [Hn ->].
    intros [= <-]. cbn. split; [exact Hn|].
    eexists. split; [apply last_snoc|reflexivity].
  - unfold Flow_init.
    destruct (div f (a + f)) as [r|e] eqn:Ed; simpl; [|discriminate].
    apply div_OK in Ed as [Hn ->].
    destruct (div (a + f) (amt_out (txn self))) as [r'|e]; simpl; [|discriminate].
    destruct (if is_transfer (txn self) then div (amt_in (txn self)) (amt_out (txn self))
              else OK 0) as [w|e]; simpl; [|discriminate].
    intros [= <-]. cbn. split; [exact Hn|].
    eexists. split; [reflexivity|]. field. exact Hn.
Qed.

(** X6: in every flow that [follow_back(amt, fee)] returns, the amount
    of the flow is not zero and the last of its [rev_fracs] is the share
    of that amount which did not reach the end: [1 - amt / flow.amt]. *)
Theorem follow_back_last_rev_frac
    (self : Branch) (a : Q) (fee : option Q) (flow : Flow) :
  follow_back self a fee = OK flow ->
  ~ flow_amt flow == 0 /\
  exists r, last (flow_rev_fracs flow) = Some r /\ r == 1 - a / flow_amt flow.
Proof. exact (follow_back_last_of self a fee flow). Qed.

Lemma follow_back_last_rev_frac_witness :
  exists flow,
    follow_back child_with_fee 100 None = OK flow /\
    ~ flow_amt flow == 0 /\
    exists r, last (flow_rev_fracs flow) = Some r /\ r == 1 - 100 / flow_amt flow.
Proof.
  eexists. split.
  - vm_compute. reflexivity.
  - apply (follow_back_last_rev_frac child_with_fee 100 None). vm_compute. reflexivity.
Defined.

(** ** What the heuristics hand over to the target *)

Lemma greedy_hands_over cls t self new flows :
  snd (Greedy_extend_branches cls t self) = OK (new, flows) ->
  amt_in t - resolution_limit cls <= sum (map amt new) \/
  sum (map amt new) == amt_in t.
Proof.
  unfold Greedy_extend_branches.
  destruct (pop_loop cls (S (length self)) _ [] self) as [self' [branches|e]];
    cbn [snd]; [|discriminate].
  destruct (div (amt_in t) (amt_out t)) as [c|e]; simpl; [|discriminate].
  destruct (greedy_extend cls t c (rev branches) [] []) as [[ns nf]|e];
    simpl; [|discriminate].
  destruct (gtb (amt_in t - sum (map amt ns)) (resolution_limit cls)) eqn:Eu.
  - intros [= <- <-]. right.
    pose proof (sum_amt_snoc ns (mkBranch None t (amt_in t - sum (map amt ns)))) as E.
    simpl amt in E. lra.
  - apply gtb_false in Eu.
    destruct (gtb (amt_out t - sum (map amt self)) (resolution_limit cls)).
    + destruct (follow_back _ _ _) as [flow|e]; simpl; [|discriminate].
      intros [= <- <-]. left. lra.
    + intros [= <- <-]. left. lra.
Qed.

Lemma repoint_amt self self' child : amt (repoint self self' child) = amt (snd child).
Proof. unfold repoint. destruct (fst child); reflexivity. Qed.

Lemma map_amt_repoint self self' (pool : list (option nat * Branch)) :
  map amt (map (repoint self self') pool) = map (fun child => amt (snd child)) pool.
Proof.
  rewrite map_map. apply map_ext. intros child. apply repoint_amt.
Qed.

Lemma well_mixed_hands_over cls bal t self new flows :
  snd (Well_mixed_extend_branches cls bal t self) = OK (new, flows) ->
  amt_in t - resolution_limit cls <= sum (map amt new) \/
  sum (map amt new) == amt_in t.
Proof.
  unfold Well_mixed_extend_branches.
  destruct (div (amt_out t) bal) as [tf|e]; simpl; [|discriminate].
  destruct (div (amt_in t) bal) as [sf|e]; simpl; [|discriminate].
  destruct (div (bal - amt_out t) bal) as [stay|e]; simpl; [|discriminate].
  destruct (well_mixed_extend cls t tf sf 0 self [] []) as [[pool nf]|e];
    simpl; [|discriminate].
  destruct (gtb (amt_in t - sum (map (fun child => amt (snd child)) pool))
              (resolution_limit cls)) eqn:Eu.
  - simpl. intros [= <- <-]. right. rewrite map_amt_repoint, map_app.
    pose proof (sum_snoc (map (fun child => amt (snd child)) pool)
                  (amt_in t - sum (map (fun child => amt (snd child)) pool))) as E.
    cbn [map snd amt]. lra.
  - apply gtb_false in Eu.
    destruct (gtb (amt_out t - sum (map amt self)) (resolution_limit cls)).
    + destruct (div (amt_in t) (amt_out t)) as [c|e]; simpl; [|discriminate].
      destruct (follow_back _ _ _) as [flow|e]; simpl; [|discriminate].
      intros [= <- <-]. left. rewrite map_amt_repoint. lra.
    + simpl. intros [= <- <-]. left. rewrite map_amt_repoint. lra.
Qed.

Lemma no_tracking_hands_over cls t self new flows :
  snd (Tracker_extend_branches cls t self) = OK (new, flows) ->
  amt_in t - resolution_limit cls <= sum (map amt new) \/
  sum (map amt new) == amt_in t.
Proof.
  unfold Tracker_extend_branches, TM_pure. cbn [snd].
  destruct (gtb (amt_out t) (resolution_limit cls)); [|discriminate].
  destruct (gtb (amt_in t) (resolution_limit cls)) eqn:Ei.
  - intros [= <- <-]. right. cbn. unfold sum. simpl. lra.
  - apply gtb_false in Ei.
    destruct (follow_back _ _ _) as [flow|e]; simpl; [|discriminate].
    intros [= <- <-]. left. change (sum (map amt [])) with 0. lra.
Qed.

(** X7: whatever the heuristic (none, greedy, well-mixed), when
    [extend_branches] returns, the branches that it hands over for the
    target hold [amt_in] of the transaction, or less by the resolution
    limit at most: the limit is not negative. *)
Theorem extend_branches_hands_over
    (cls : TrackerClass) (bal : Q) (t : Transaction) (self : list Branch)
    (new : list Branch) (flows : PyFlows) :
  0 <= resolution_limit cls ->
  snd (extend_branches cls bal t self) = OK (new, flows) ->
  amt_in t - resolution_limit cls <= sum (map amt new).
Proof.
  intros Hres H.
  assert (Hor : amt_in t - resolution_limit cls <= sum (map amt new) \/
                sum (map amt new) == amt_in t).
  { unfold extend_branches in H. destruct (heuristic cls).
    - exact (no_tracking_hands_over _ _ _ _ _ H).
    - exact (greedy_hands_over _ _ _ _ _ H).
    - exact (well_mixed_hands_over _ _ _ _ _ _ H). }
  destruct Hor; lra.
Qed.

Lemma extend_branches_hands_over_witness :
  exists self' new,
    extend_branches (plain well_mixed) 100 transfer_of_75 [small_branch; large_branch] =
      (self', OK (new, a_list [])) /\
    amt_in transfer_of_75 - resolution_limit (plain well_mixed) <= sum (map amt new).
Proof.
  eexists. eexists. split.
  - vm_compute. reflexivity.
  - apply (extend_branches_hands_over (plain well_mixed) 100 transfer_of_75
             [small_branch; large_branch] _ (a_list [])).
    + vm_compute. intros H. discriminate H.
    + vm_compute. reflexivity.
Defined.

(** ** The well-mixed pool when no branch is removed *)








(** ** What [stop_tracking] does with the branches of a tracker *)

Lemma stop_tracking_visits_partition cutoff now :
  forall n self acc kept flows,
    (length self <= n)%nat ->
    stop_tracking_visits cutoff now self acc = (kept, OK flows) ->
    sublist kept self /\
    (length kept + length flows = length self + length acc)%nat /\
    sublist (List.filter (fun b => negb (expired cutoff now b)) self) kept.
Proof.
  induction n as [|n IH]; intros self acc kept flows Hlen.
  - destruct self; [|simpl in Hlen; lia]. simpl. intros [= <- <-].
    split; [constructor|]. split; [reflexivity|constructor].
  - destruct self as [|branch rest].
    + simpl. intros [= <- <-]. split; [constructor|]. split; [reflexivity|constructor].
    + simpl in Hlen. cbn [stop_tracking_visits List.filter].
      destruct (expired cutoff now branch) eqn:Ex; cbn [negb].
      * destruct (follow_back branch (amt branch) None) as [flow|e]; [|discriminate].
        destruct rest as [|skipped rest'].
        -- intros [= <- <-]. split; [constructor; constructor|]. split.
           ++ rewrite length_app. simpl. lia.
           ++ constructor.
        -- destruct (stop_tracking_visits cutoff now rest' (acc ++ [flow]))
             as [kept' r] eqn:E.
           intros [= <- ->].
           destruct (IH rest' _ _ _ ltac:(simpl in Hlen; lia) E) as (Hs & Hl & Hf).
           rewrite length_app in Hl. simpl in Hl. split; [|split].
           ++ apply sublist_cons. apply sublist_skip. exact Hs.
           ++ simpl. lia.
           ++ cbn [List.filter]. destruct (negb (expired cutoff now skipped)).
              ** apply sublist_skip. exact Hf.
              ** apply sublist_cons. exact Hf.
      * destruct (stop_tracking_visits cutoff now rest acc) as [kept' r] eqn:E.
        intros [= <- ->].
        destruct (IH rest _ _ _ ltac:(lia) E) as (Hs & Hl & Hf). split; [|split].
        -- apply sublist_skip. exact Hs.
        -- simpl. lia.
        -- apply sublist_skip. exact Hf.
Qed.

(** X9: when [stop_tracking(timestamp)] returns, no branch has gone
    without a flow: the branches left in the tracker are branches that
    were there, in their order; those left and the flows returned are as
    many as the branches were; and every branch within the cutoff is
    left in the tracker. *)
Theorem stop_tracking_loses_no_branch
    (cls : TrackerClass) (cutoff now : Z) (self kept : list Branch)
    (flows : list Flow) :
  time_cutoff cls = Some cutoff ->
  stop_tracking cls (Some now) self = (kept, OK flows) ->
  sublist kept self /\
  (length kept + length flows = length self)%nat /\
  sublist (List.filter (fun b => negb (expired cutoff now b)) self) kept.
Proof.
  intros Hc. rewrite (stop_tracking_timestamp _ _ _ _ Hc). intros H.
  destruct (stop_tracking_visits_partition cutoff now (length self) self [] kept flows
              (le_n _) H) as (Hs & Hl & Hf).
  simpl in Hl. split; [exact Hs|]. split; [lia|exact Hf].
Qed.

Lemma stop_tracking_loses_no_branch_witness :
  exists flow1,
    stop_tracking (with_cutoff greedy) (Some 108000%Z) [old_branch_1; old_branch_2] =
      ([old_branch_2], OK [flow1]) /\
    sublist [old_branch_2] [old_branch_1; old_branch_2] /\
    (length [old_branch_2] + length [flow1] = length [old_branch_1; old_branch_2])%nat /\
    sublist (List.filter (fun b => negb (expired 86400 108000 b))
               [old_branch_1; old_branch_2]) [old_branch_2].
Proof.
  eexists. split.
  - vm_compute. reflexivity.
  - apply (stop_tracking_loses_no_branch (with_cutoff greedy) 86400 108000
             [old_branch_1; old_branch_2]).
    + reflexivity.
    + vm_compute. reflexivity.
Defined.

(** ** The branches that the greedy tracker takes *)

Lemma pop_loop_takes cls :
  0 <= resolution_limit cls ->
  forall fuel a branches self self' out,
    pop_loop cls fuel a branches self = (self', OK out) ->
    exists taken pre post,
      out = branches ++ taken /\ self = pre ++ post /\
      ((self' = pre /\ taken = rev post) \/
       (exists b post' x,
          post = b :: post' /\ self' = pre ++ [decrement b x] /\
          taken = rev post' ++ [mkBranch (prev b) (txn b) x])).
Proof.
  intros Hres. induction fuel as [|fuel IH]; intros a branches self self' out H.
  - simpl in H. destruct (gtb a (resolution_limit cls)); [discriminate|].
    injection H as <- <-. exists [], self, []. rewrite !app_nil_r.
    split; [reflexivity|]. split; [reflexivity|]. left. split; reflexivity.
  - destruct (Qlt_le_dec (resolution_limit cls) a) as [Ha|Ha].
    + destruct (snoc_or_nil self) as [->|(l & b & ->)].
      * rewrite pop_loop_empty in H by exact Ha. discriminate.
      * destruct (Qlt_le_dec (amt b) (a + resolution_limit cls)) as [Hb|Hb].
        -- rewrite (pop_loop_consume _ _ _ _ _ _ Ha Hb) in H.
           destruct (IH _ _ _ _ _ H) as (taken & pre & post & -> & -> & Hcase).
           exists (b :: taken), pre, (post ++ [b]).
           rewrite <- !app_assoc. split; [reflexivity|]. split; [reflexivity|].
           destruct Hcase as [[-> ->]|(b0 & post' & x & -> & -> & ->)].
           ++ left. split; [reflexivity|]. rewrite rev_app_distr. reflexivity.
           ++ right. exists b0, (post' ++ [b]), x.
              split; [reflexivity|]. split; [reflexivity|].
              rewrite rev_app_distr. reflexivity.
        -- rewrite (pop_loop_split _ _ _ _ _ _ Ha Hb), pop_loop_done in H by exact Hres.
           injection H as <- <-.
           exists [mkBranch (prev b) (txn b) a], l, [b].
           split; [reflexivity|]. split; [reflexivity|].
           right. exists b, [], a. repeat split; reflexivity.
    + rewrite pop_loop_done in H by exact Ha. injection H as <- <-.
      exists [], self, []. rewrite !app_nil_r.
      split; [reflexivity|]. split; [reflexivity|]. left. split; reflexivity.
Qed.

(** X10: last in, first out.  With a limit that is not negative, the
    loop of [Greedy_tracker.extend_branches] takes its branches from the
    end of the tracker: the tracker is left with its first branches as
    they were; the branches taken are the last ones, the newest first,
    all of them whole, or all whole but the oldest of them, of which a
    part is taken and the rest stays at the end of the tracker. *)
Theorem pop_loop_takes_from_the_end
    (cls : TrackerClass) (fuel : nat) (a : Q) (self self' out : list Branch) :
  0 <= resolution_limit cls ->
  pop_loop cls fuel a [] self = (self', OK out) ->
  exists pre post,
    self = pre ++ post /\
    ((self' = pre /\ out = rev post) \/
     (exists b post' x,
        post = b :: post' /\ self' = pre ++ [decrement b x] /\
        out = rev post' ++ [mkBranch (prev b) (txn b) x])).
Proof.
  intros Hres H.
  destruct (pop_loop_takes cls Hres _ _ _ _ _ _ H) as (taken & pre & post & -> & -> & Hc).
  exists pre, post. split; [reflexivity|exact Hc].
Qed.

Lemma pop_loop_takes_from_the_end_witness :
  exists pre post,
    [old_branch_1; old_branch_2] = pre ++ post /\
    (([decrement old_branch_1 5] = pre /\ [old_branch_2; mkBranch None (txn old_branch_1) 5] = rev post) \/
     (exists b post' x,
        post = b :: post' /\ [decrement old_branch_1 5] = pre ++ [decrement b x] /\
        [old_branch_2; mkBranch None (txn old_branch_1) 5] =
          rev post' ++ [mkBranch (prev b) (txn b) x])).
Proof.
  apply (pop_loop_takes_from_the_end (plain greedy) 3 75 [old_branch_1; old_branch_2]).
  - vm_compute. intros H. discriminate H.
  - vm_compute. reflexivity.
Defined.

(** ** What the driver leaves alone *)

Lemma viewed_update {B} (view : Account -> B) id f (σ : Accounts) :
  (forall a, view (f a) = view a) ->
  viewed view (update_account id f σ) = viewed view σ.
Proof.
  intros H. induction σ as [|[k a] σ IH]; [reflexivity|]. simpl.
  destruct (String.eqb k id); simpl.
  - rewrite H. reflexivity.
  - f_equal. exact IH.
Qed.

Lemma viewed_keys {B} (view : Account -> B) (σ σ' : Accounts) :
  viewed view σ = viewed view σ' -> map fst σ = map fst σ'.
Proof.
  intros H. apply (f_equal (map fst)) in H. unfold viewed in H.
  rewrite !map_map in H. exact H.
Qed.

Lemma viewed_get {B} (view : Account -> B) (σ σ' : Accounts) id :
  viewed view σ = viewed view σ' ->
  option_map view (get_account id σ) = option_map view (get_account id σ').
Proof.
  revert σ'. induction σ as [|[k a] σ IH]; intros [|[k' a'] σ'] H; try discriminate.
  - reflexivity.
  - simpl in H. injection H as -> Hv H. simpl.
    destruct (String.eqb k' id); [simpl; f_equal; exact Hv|]. apply IH. exact H.
Qed.

Lemma preserves_ret {A B} (view : Account -> B) (a : A) : preserves view (mret a : EM A).
Proof. intros σ. reflexivity. Qed.

Lemma preserves_pure {A B} (view : Account -> B) (r : Res A) : preserves view (EM_pure r).
Proof. intros σ. reflexivity. Qed.

Lemma preserves_yield {B} (view : Account -> B) flows : preserves view (yield_from flows).
Proof. intros σ. reflexivity. Qed.

Lemma preserves_the_account {B} (view : Account -> B) id : preserves view (the_account id).
Proof. intros σ. unfold the_account. destruct (get_account id σ); reflexivity. Qed.

Lemma preserves_change {B} (view : Account -> B) id f :
  (forall a, view (f a) = view a) -> preserves view (change_account id f).
Proof. intros H σ. apply viewed_update. exact H. Qed.

Lemma preserves_on_tracker {A B} (view : Account -> B) id (m : Q -> TM A) :
  tracker_blind view -> preserves view (on_tracker id m).
Proof.
  intros [H _] σ. unfold on_tracker.
  destruct (get_account id σ) as [a|]; [|reflexivity].
  destruct (tracker a) as [self|]; [|reflexivity].
  destruct (m (balance a) self) as [self' r]. simpl.
  apply viewed_update. intros a'. apply H.
Qed.

Lemma preserves_bind {A B C} (view : Account -> C) (m : EM A) (f : A -> EM B) :
  preserves view m -> (forall a, preserves view (f a)) -> preserves view (m ≫= f).
Proof.
  intros Hm Hf σ. unfold mbind, EM_mbind, EM_bind.
  destruct (outcome (m σ)) as [a|e]; simpl.
  - rewrite (Hf a). apply Hm.
  - apply Hm.
Qed.

Ltac preserved :=
  repeat first
    [ apply preserves_ret | apply preserves_pure | apply preserves_yield
    | apply preserves_the_account
    | apply preserves_on_tracker; assumption
    | apply preserves_bind; [|intros ?] ].

Lemma preserves_track {B} (view : Account -> B) cls fc tw id :
  tracker_blind view -> preserves view (track cls fc tw id).
Proof.
  intros Hv. unfold track. apply preserves_bind; [apply preserves_the_account|].
  intros a. destruct (Tracker_init cls fc tw id (balance a)) as [self [[]|e]].
  - apply preserves_change. intros a'. apply Hv.
  - apply preserves_pure.
Qed.

Lemma preserves_start_tracking {B} (view : Account -> B) cls fc tw id :
  tracker_blind view -> preserves view (start_tracking cls fc tw id).
Proof.
  intros Hv. unfold start_tracking.
  apply preserves_bind; [apply preserves_change; apply Hv|]. intros _.
  apply preserves_bind; [apply preserves_the_account|]. intros a.
  destruct (has_tracker a); [apply preserves_ret|apply preserves_track; exact Hv].
Qed.

(** ** Trackers at the start of a run *)

(** [Tracker.infer_deposit] returns: the inferred transaction has no
    fee.  Above the limit the tracker gets one root branch of the
    amount, of an inferred deposit; otherwise nothing. *)
Lemma infer_deposit_returns cls fc tw id b self :
  exists self',
    infer_deposit cls fc tw id b self = (self', OK tt) /\
    ((resolution_limit cls < b /\
      exists t, self' = self ++ [mkBranch None t (amt_in t)] /\ amt_in t == b /\
                categ t = "deposit" /\ type t = "inferred" /\ tgt t = id) \/
     (b <= resolution_limit cls /\ self' = self)).
Proof.
  unfold infer_deposit. destruct (gtb b (resolution_limit cls)) eqn:E.
  - apply gtb_true in E.
    unfold mbind, TM_mbind, TM_bind, TM_pure, Transaction_init.
    assert (H1 : ltb (b + 0) b = false) by (apply ltb_false; lra).
    assert (H2 : ltb b (b - 0) = false) by (apply ltb_false; lra).
    assert (H3 : ltb (b + 0) (b - 0) = false) by (apply ltb_false; lra).
    assert (H4 : ltb b b = false) by (apply ltb_false; lra).
    destruct fc as [[]|]; simpl; rewrite ?H1, ?H2, ?H3, ?H4;
      (eexists; split; [reflexivity|]; left; split; [exact E|];
       eexists; split; [reflexivity|]; simpl; repeat split; try reflexivity; lra).
  - apply gtb_false in E. exists self. split; [reflexivity|]. right. split; [exact E|reflexivity].
Qed.

Lemma Tracker_init_holds cls fc tw id b :
  exists self,
    Tracker_init cls fc tw id b = (self, OK tt) /\
    (if infer cls && gtb b (resolution_limit cls)
     then length self = 1%nat /\ sum (map amt self) == b
     else self = []) /\
    Forall (held_by id) self.
Proof.
  unfold Tracker_init. destruct (infer cls); simpl.
  - destruct (infer_deposit_returns cls fc tw id b []) as (self & -> & Hcase).
    exists self. split; [reflexivity|].
    destruct Hcase as [[Hb (t & -> & Ht & _ & _ & Hid)]|[Hb ->]].
    + apply gtb_true in Hb. rewrite Hb. split.
      * split; [reflexivity|]. simpl. unfold sum. simpl. lra.
      * constructor; [|constructor]. split; [exact Hid|exact I].
    + apply gtb_false in Hb. rewrite Hb. split; [reflexivity|constructor].
  - exists []. split; [reflexivity|]. split; [reflexivity|constructor].
Qed.

(** The account that [Account.reset] leaves, for the class in use. *)
Lemma Account_reset_at cls fc tw (no_balance : bool) id σ a :
  get_account id σ = Some a ->
  exists self,
    let start := if no_balance then 0 else starting_balance a in
    let a' := {| acct_ID := acct_ID a; starting_balance := start; balance := start;
                 tracked := false; tracker := Some self |} in
    outcome (Account_reset cls fc tw no_balance id σ) = OK tt /\
    yielded (Account_reset cls fc tw no_balance id σ) = [] /\
    accounts_after (Account_reset cls fc tw no_balance id σ) =
      update_account id (fun _ => a') σ /\
    (if infer cls && gtb start (resolution_limit cls)
     then length self = 1%nat /\ sum (map amt self) == start
     else self = []) /\
    Forall (held_by id) self.
Proof.
  intros Ha. unfold Account_reset, track, mbind, EM_mbind, EM_bind, change_account,
    the_account. simpl. rewrite get_update_same, Ha. simpl.
  set (start := if no_balance then 0 else starting_balance a).
  destruct (Tracker_init_holds cls fc tw id start) as (self & Hs & Hself & Hheld).
  rewrite Hs. simpl. exists self. split; [reflexivity|]. split; [reflexivity|].
  split; [|split; [exact Hself|exact Hheld]].
  clear Hs Hself. induction σ as [|[k c] σ IH]; [discriminate|].
  simpl in Ha |- *. destruct (String.eqb k id) eqn:E.
  - injection Ha as ->. simpl. rewrite E. reflexivity.
  - simpl. rewrite E. f_equal. apply IH. exact Ha.
Qed.

Lemma get_account_present id (σ : Accounts) :
  In id (map fst σ) -> exists a, get_account id σ = Some a.
Proof.
  induction σ as [|[k a] σ IH]; simpl; [intros []|].
  destruct (String.eqb k id) eqn:E; [eauto|].
  intros [H|H]; [|exact (IH H)].
  subst k. rewrite String.eqb_refl in E. discriminate.
Qed.

Lemma get_update_other id id' f (σ : Accounts) :
  id <> id' -> get_account id' (update_account id f σ) = get_account id' σ.
Proof.
  intros H. rewrite get_update_account.
  destruct (String.eqb id id') eqn:E; [|reflexivity].
  apply String.eqb_eq in E. contradiction.
Qed.

Lemma System_reset_from_spec cls fc tw no_balance ids :
  forall σ,
    List.NoDup ids -> (forall id, In id ids -> In id (map fst σ)) ->
    let o := System_reset_from cls fc tw no_balance ids σ in
    outcome o = OK tt /\ yielded o = [] /\
    map fst (accounts_after o) = map fst σ /\
    forall id,
      (In id ids -> forall a, get_account id σ = Some a ->
         exists a', get_account id (accounts_after o) = Some a' /\
                    reset_of cls no_balance a a' /\
                    forall self, tracker a' = Some self -> Forall (held_by id) self) /\
      (~ In id ids -> get_account id (accounts_after o) = get_account id σ).
Proof.
  induction ids as [|id0 ids IH]; intros σ Hnd Hin.
  - simpl. repeat split; try reflexivity. intros [].
  - apply List.NoDup_cons_iff in Hnd as [Hnot Hnd].
    destruct (get_account_present id0 σ (Hin id0 (or_introl eq_refl))) as [a0 Ha0].
    destruct (Account_reset_at cls fc tw no_balance id0 σ a0 Ha0)
      as (self & Ho & Hy & Ha & Hself & Hheld).
    cbv zeta in Ha, Hself.
    set (a0' := {| acct_ID := acct_ID a0;
                   starting_balance := if no_balance then 0 else starting_balance a0;
                   balance := if no_balance then 0 else starting_balance a0;
                   tracked := false; tracker := Some self |}) in *.
    specialize (IH (update_account id0 (fun _ => a0') σ) Hnd).
    destruct IH as (Ho' & Hy' & Hk' & Hget').
    { intros id H. rewrite keys_update_account. apply Hin. right. exact H. }
    cbn [System_reset_from]. unfold mbind, EM_mbind, EM_bind.
    rewrite Ho, Hy, Ha. cbn [yielded accounts_after outcome app].
    split; [exact Ho'|]. split; [exact Hy'|]. split.
    { rewrite Hk'. apply keys_update_account. }
    intros id. split.
    + intros [<-|H] a Hget.
      * exists a0'. split.
        -- rewrite (proj2 (Hget' id0) Hnot), get_update_same, Ha0. reflexivity.
        -- rewrite Ha0 in Hget. injection Hget as <-. split.
           ++ unfold reset_of. simpl. repeat split; try reflexivity.
              exists self. split; [reflexivity|exact Hself].
           ++ simpl. intros self' [= <-]. exact Hheld.
      * apply (proj1 (Hget' id) H).
        rewrite get_update_other; [exact Hget|]. intros ->. contradiction.
    + intros H. rewrite (proj2 (Hget' id)) by (intros H'; apply H; right; exact H').
      apply get_update_other. intros ->. apply H. left. reflexivity.
Qed.

(** X11: [System.reset] for the class in use.  Every account of the
    system (a dict: no key twice) is reset and the call returns: the
    accounts are the same, each has its starting balance as its balance
    (zero with [no_balance]), is not marked tracked, and has a new
    tracker that holds its balance in one branch when inference is on
    and the balance is above the resolution limit, and nothing
    otherwise. *)
Theorem System_reset_starts_afresh
    (cls : TrackerClass) (fc : option FeeConvention) (tw : Z * Z)
    (no_balance : bool) (σ : Accounts) :
  List.NoDup (map fst σ) ->
  let o := System_reset cls fc tw no_balance σ in
  outcome o = OK tt /\ yielded o = [] /\
  map fst (accounts_after o) = map fst σ /\
  forall id a, get_account id σ = Some a ->
    exists a', get_account id (accounts_after o) = Some a' /\
      acct_ID a' = acct_ID a /\
      starting_balance a' = (if no_balance then 0 else starting_balance a) /\
      balance a' = starting_balance a' /\
      tracked a' = false /\
      exists self,
        tracker a' = Some self /\
        if infer cls && gtb (balance a') (resolution_limit cls)
        then length self = 1%nat /\ sum (map amt self) == balance a'
        else self = [].
Proof.
  intros Hnd o.
  destruct (System_reset_from_spec cls fc tw no_balance (map fst σ) σ Hnd
              (fun id H => H)) as (Ho & Hy & Hk & Hget).
  split; [exact Ho|]. split; [exact Hy|]. split; [exact Hk|].
  intros id a Ha.
  destruct (proj1 (Hget id) (get_account_key _ _ _ Ha) a Ha) as (a' & Ha' & Hr & _).
  exists a'. split; [exact Ha'|exact Hr].
Qed.

Lemma System_reset_starts_afresh_witness :
  let o := System_reset (inferring greedy) None window false two_accounts in
  outcome o = OK tt /\ yielded o = [] /\
  map fst (accounts_after o) = map fst two_accounts /\
  forall id a, get_account id two_accounts = Some a ->
    exists a', get_account id (accounts_after o) = Some a' /\
      acct_ID a' = acct_ID a /\
      starting_balance a' = (if false then 0 else starting_balance a) /\
      balance a' = starting_balance a' /\
      tracked a' = false /\
      exists self,
        tracker a' = Some self /\
        if infer (inferring greedy) && gtb (balance a') (resolution_limit (inferring greedy))
        then length self = 1%nat /\ sum (map amt self) == balance a'
        else self = [].
Proof.
  apply (System_reset_starts_afresh (inferring greedy) None window false two_accounts).
  repeat constructor; simpl; intuition discriminate.
Defined.

(** ** Running the driver *)

(** Running [m ≫= f]. *)
Lemma bind_run {A B} (m : EM A) (f : A -> EM B) σ a :
  outcome (m σ) = OK a ->
  (m ≫= f) σ =
    mkOut (yielded (m σ) ++ yielded (f a (accounts_after (m σ))))
      (accounts_after (f a (accounts_after (m σ))))
      (outcome (f a (accounts_after (m σ)))).
Proof.
  intros H. unfold mbind, EM_mbind, EM_bind. rewrite H. reflexivity.
Qed.

Lemma the_account_run id σ a :
  get_account id σ = Some a -> the_account id σ = mkOut [] σ (OK a).
Proof. intros H. unfold the_account. rewrite H. reflexivity. Qed.

(** Running [try: m  except: ...] and what follows it. *)
Lemma try_bind_run {A B} (m : EM A) (f : Res A -> EM B) σ :
  (try_except m ≫= f) σ =
    mkOut (yielded (m σ) ++ yielded (f (outcome (m σ)) (accounts_after (m σ))))
      (accounts_after (f (outcome (m σ)) (accounts_after (m σ))))
      (outcome (f (outcome (m σ)) (accounts_after (m σ)))).
Proof. reflexivity. Qed.

(** ** The accounts after the flush *)

Lemma identity_blind : tracker_blind (fun a => (acct_ID a, starting_balance a)).
Proof. split; intros; reflexivity. Qed.

Lemma preserves_remaining_funds {B} (view : Account -> B) cls fc tw id :
  tracker_blind view -> preserves view (remaining_funds cls fc tw id).
Proof.
  intros Hv. unfold remaining_funds.
  apply preserves_bind; [apply preserves_the_account|]. intros a.
  destruct (has_tracker a); [|apply preserves_ret].
  apply preserves_bind.
  - destruct (time_cutoff cls) as [cutoff|]; [|apply preserves_ret].
    destruct (cutoff =? 0)%Z; preserved.
  - intros _. apply preserves_bind; [apply preserves_the_account|]. intros a'.
    destruct (infer cls); destruct (gtb (balance a') (resolution_limit cls)); preserved.
Qed.

Lemma track_remaining_funds_from_run cls fc tw ids :
  forall σ,
    let o := track_remaining_funds_from cls fc tw ids σ in
    outcome o = OK tt /\
    viewed (fun a => (acct_ID a, starting_balance a)) (accounts_after o) =
      viewed (fun a => (acct_ID a, starting_balance a)) σ /\
    forall id, In id ids \/ settled_at id σ -> settled_at id (accounts_after o).
Proof.
  induction ids as [|id ids IH]; intros σ.
  - simpl. split; [reflexivity|]. split; [reflexivity|]. intros id [[]|H]. exact H.
  - rewrite track_remaining_funds_from_cons. cbv zeta.
    cbn [outcome accounts_after yielded].
    set (σ0 := accounts_after (remaining_funds cls fc tw id σ)).
    destruct (IH (update_account id close_out σ0)) as (Ho & Hv & Hs).
    split; [exact Ho|]. split.
    + rewrite Hv, viewed_update by reflexivity.
      apply preserves_remaining_funds. exact identity_blind.
    + intros id' H. apply Hs.
      destruct (String.eqb id id') eqn:E.
      * apply String.eqb_eq in E. subst id'. right.
        intros a. rewrite get_update_same.
        destruct (get_account id σ0); simpl; [|discriminate].
        intros [= <-]. split; reflexivity.
      * apply String.eqb_neq in E.
        destruct H as [[H|H]|H]; [congruence|left; exact H|].
        right. intros a. rewrite get_update_other by exact E.
        unfold σ0.
        rewrite (proj2 (touches_only_remaining_funds cls fc tw id σ)) by congruence.
        apply H.
Qed.

(** With a limit that is not negative the loop of the greedy tracker is
    over within the turns that [pop_loop] is given: a split leaves
    nothing to remove, and every other turn takes a branch off the
    tracker. *)
Lemma pop_loop_ends cls :
  0 <= resolution_limit cls ->
  forall fuel a branches self,
    (length self < fuel)%nat ->
    snd (pop_loop cls fuel a branches self) <> Raise MemoryError.
Proof.
  intros Hres. induction fuel as [|fuel IH]; intros a branches self Hlen; [lia|].
  destruct (Qlt_le_dec (resolution_limit cls) a) as [Ha|Ha].
  - destruct (snoc_or_nil self) as [->|(l & b & ->)].
    + rewrite pop_loop_empty by exact Ha. discriminate.
    + rewrite length_snoc in Hlen.
      destruct (Qlt_le_dec (amt b) (a + resolution_limit cls)) as [Hlt|Hge].
      * rewrite (pop_loop_consume _ _ _ _ _ _ Ha Hlt). apply IH. lia.
      * rewrite (pop_loop_split _ _ _ _ _ _ Ha Hge), pop_loop_done by exact Hres.
        discriminate.
  - rewrite pop_loop_done by exact Ha. discriminate.
Qed.

(** X14: the flush at the end of the stream, for a resolution limit
    that is not negative, returns and closes every account out: the
    accounts are those that were there, each with a balance of zero, no
    tracker, and the ID and starting balance that it had. *)
Theorem track_remaining_funds_closes_out
    (cls : TrackerClass) (fc : option FeeConvention) (tw : Z * Z) (σ : Accounts) :
  0 <= resolution_limit cls ->
  let o := track_remaining_funds cls fc tw σ in
  outcome o = OK tt /\
  map fst (accounts_after o) = map fst σ /\
  forall id a',
    get_account id (accounts_after o) = Some a' ->
    balance a' = 0 /\ tracker a' = None /\
    exists a, get_account id σ = Some a /\
              acct_ID a' = acct_ID a /\ starting_balance a' = starting_balance a.
Proof.
  intros _ o. subst o. unfold track_remaining_funds.
  destruct (track_remaining_funds_from_run cls fc tw (map fst σ) σ) as (Ho & Hv & Hs).
  split; [exact Ho|]. split; [exact (viewed_keys _ _ _ Hv)|].
  intros id a' Ha'.
  assert (Hin : In id (map fst σ)).
  { rewrite <- (viewed_keys _ _ _ Hv). exact (get_account_key _ _ _ Ha'). }
  destruct (Hs id (or_introl Hin) a' Ha') as [Hb Ht].
  split; [exact Hb|]. split; [exact Ht|].
  pose proof (viewed_get _ _ _ id Hv) as Hg. rewrite Ha' in Hg.
  destruct (get_account id σ) as [a|]; [|discriminate].
  injection Hg as H1 H2. exists a. split; [reflexivity|]. split; assumption.
Qed.

Lemma track_remaining_funds_closes_out_witness :
  0 <= resolution_limit (inferring greedy) /\
  let o := track_remaining_funds (inferring greedy) None window funds_in_A in
  outcome o = OK tt /\
  map fst (accounts_after o) = map fst funds_in_A /\
  forall id a',
    get_account id (accounts_after o) = Some a' ->
    balance a' = 0 /\ tracker a' = None /\
    exists a, get_account id funds_in_A = Some a /\
              acct_ID a' = acct_ID a /\ starting_balance a' = starting_balance a.
Proof.
  assert (H : 0 <= resolution_limit (inferring greedy)).
  { vm_compute. intros E. discriminate E. }
  split; [exact H|].
  exact (track_remaining_funds_closes_out (inferring greedy) None window funds_in_A H).
Defined.

(** The flush of those accounts: the 40 that A holds are written out as
    a flow of the inferred deposit, which the run would filter out. *)
Lemma track_remaining_funds_funds_in_A :
  map (fun flow => (flow_acct_IDs flow, Qred (flow_amt flow), flow_txn_types flow))
    (yielded (track_remaining_funds (inferring greedy) None window funds_in_A)) =
  [(["A"; "A"; "A"], 40, ["inferred"; "inferred"])].
Proof. vm_compute. reflexivity. Qed.

(** ** The boundary by accounts and the tracking flags *)

(** X15: [System.get_txn_categ_accts] always returns a category, and
    [track_transactions] then tracks the source exactly when its
    category is followed and the target exactly when its category is
    followed. *)
Theorem get_txn_categ_accts_tracking
    (categ_follow : gset string) (src_categ tgt_categ : option string) :
  exists c,
    get_txn_categ_accts categ_follow src_categ tgt_categ = Some c /\
    tracking_of c =
      (in_categ_follow categ_follow src_categ, in_categ_follow categ_follow tgt_categ).
Proof.
  unfold get_txn_categ_accts.
  destruct (in_categ_follow categ_follow src_categ),
           (in_categ_follow categ_follow tgt_categ);
    eexists; (split; [reflexivity|reflexivity]).
Qed.

(** ** The accounts of the rows *)

Lemma has_account_In id (σ : Accounts) :
  has_account id σ = true <-> In id (map fst σ).
Proof.
  unfold has_account. split.
  - destruct (get_account id σ) as [a|] eqn:E; [|discriminate].
    intros _. exact (get_account_key _ _ _ E).
  - intros H. destruct (get_account_present _ _ H) as [a ->]. reflexivity.
Qed.

Lemma get_account_app id (σ : Accounts) k a :
  get_account id (σ ++ [(k, a)]) =
    match get_account id σ with
    | Some x => Some x
    | None => if String.eqb k id then Some a else None
    end.
Proof.
  induction σ as [|[k' c] σ IH]; [reflexivity|]. simpl.
  destruct (String.eqb k' id); [reflexivity|exact IH].
Qed.

Lemma account_for_run id σ :
  exists a, account_for id σ = mkOut [] (with_account id σ) (OK a).
Proof.
  unfold account_for, with_account, create_account, the_account, has_account.
  destruct (get_account id σ) as [a|]; eexists; reflexivity.
Qed.

Lemma with_account_keys id σ :
  map fst (with_account id σ) = with_ID (map fst σ) id.
Proof.
  unfold with_account, with_ID.
  destruct (has_account id σ) eqn:E.
  - apply has_account_In in E. rewrite bool_decide_true; [reflexivity|].
    apply list_elem_of_In. exact E.
  - rewrite bool_decide_false.
    + rewrite map_app. reflexivity.
    + intros H. apply list_elem_of_In in H. apply has_account_In in H. congruence.
Qed.

Lemma with_account_get id σ id' :
  get_account id' (with_account id σ) =
    match get_account id' σ with
    | Some a => Some a
    | None => if String.eqb id id' then Some (Account_init id) else None
    end.
Proof.
  unfold with_account, has_account. destruct (get_account id σ) as [a|] eqn:E.
  - destruct (get_account id' σ) as [a'|] eqn:E'; [reflexivity|].
    destruct (String.eqb id id') eqn:Ei; [|reflexivity].
    apply String.eqb_eq in Ei. congruence.
  - apply get_account_app.
Qed.

Lemma with_account_has id σ : has_account id (with_account id σ) = true.
Proof.
  unfold has_account at 1. rewrite with_account_get, String.eqb_refl.
  destruct (get_account id σ); reflexivity.
Qed.

Lemma with_account_balance id σ id' :
  balance_at (with_account id σ) id' = balance_at σ id' /\
  start_at (with_account id σ) id' = start_at σ id'.
Proof.
  unfold balance_at, start_at. rewrite with_account_get.
  destruct (get_account id' σ); [split; reflexivity|].
  destruct (String.eqb id id'); split; reflexivity.
Qed.

Lemma out_eta {A} (o : Out A) : mkOut (yielded o) (accounts_after o) (outcome o) = o.
Proof. destruct o; reflexivity. Qed.

(** Running [m ≫= f] when [m] returns without a flow. *)
Lemma bind_quiet {A B} (m : EM A) (f : A -> EM B) σ σ1 a :
  m σ = mkOut [] σ1 (OK a) -> (m ≫= f) σ = f a σ1.
Proof.
  intros H. unfold mbind, EM_mbind, EM_bind. rewrite H. simpl. apply out_eta.
Qed.

Lemma initialize_transaction_run fc gtc row gc σ :
  initialize_transaction fc gtc row gc σ =
    mkOut [] (with_account (tgt_ID row) (with_account (src_ID row) σ))
      (OK (Transaction_create fc gtc (src_ID row) (tgt_ID row) (fields row) gc)).
Proof.
  unfold initialize_transaction, try_except.
  destruct (account_for_run (src_ID row) σ) as [a Ha].
  destruct (account_for_run (tgt_ID row) (with_account (src_ID row) σ)) as [b Hb].
  rewrite (bind_quiet _ _ _ _ _ Ha), (bind_quiet _ _ _ _ _ Hb). reflexivity.
Qed.

(** One turn of a loop over [initialize_transactions]. *)
Lemma initialize_transactions_cons fc gtc row rows gc body σ :
  initialize_transactions fc gtc (row :: rows) gc body σ =
    let σ1 := with_account (tgt_ID row) (with_account (src_ID row) σ) in
    match Transaction_create fc gtc (src_ID row) (tgt_ID row) (fields row) gc with
    | OK t => (body t;; initialize_transactions fc gtc rows gc body) σ1
    | Raise _ => initialize_transactions fc gtc rows gc body σ1
    end.
Proof.
  cbn [initialize_transactions].
  rewrite (bind_quiet _ _ _ _ _ (initialize_transaction_run fc gtc row gc σ)).
  cbv zeta.
  destruct (Transaction_create fc gtc (src_ID row) (tgt_ID row) (fields row) gc) as [t|e].
  - reflexivity.
  - exact (bind_quiet (mret tt) (fun _ => initialize_transactions fc gtc rows gc body)
             _ _ tt eq_refl).
Qed.

(** A transaction keeps the IDs that [Transaction.create] was given. *)
Lemma Transaction_create_IDs fc gtc s g d gc t :
  Transaction_create fc gtc s g d gc = OK t -> src t = s /\ tgt t = g.
Proof.
  unfold Transaction_create. destruct d as [d|e]; simpl; [|discriminate].
  unfold Transaction_init.
  destruct (get_amounts fc d) as [[[out inn] f]|e]; simpl; [|discriminate].
  destruct (ltb out inn); simpl; [discriminate|].
  destruct gc.
  - destruct (gtc _) as [[ty c]|e]; simpl; [|discriminate].
    intros [= <-]. split; reflexivity.
  - intros [= <-]. split; reflexivity.
Qed.

(** ** Inferring the starting balances *)

Lemma max_ge x y : x <= Py.max x y /\ y <= Py.max x y.
Proof.
  unfold Py.max. destruct (gtb y x) eqn:E.
  - apply gtb_true in E. lra.
  - apply gtb_false in E. lra.
Qed.

Lemma raised_refl σ : raised σ σ.
Proof.
  split; [reflexivity|]. intros id. exists 0. split; [lra|]. split; ring.
Qed.

Lemma raised_trans σ1 σ2 σ3 : raised σ1 σ2 -> raised σ2 σ3 -> raised σ1 σ3.
Proof.
  intros [Hk H] [Hk' H']. split; [congruence|]. intros id.
  destruct (H id) as (i & Hi & Hs & Hb). destruct (H' id) as (j & Hj & Hs' & Hb').
  exists (i + j). split; [lra|]. split; lra.
Qed.

Lemma infer_missing_run id needed σ a :
  get_account id σ = Some a ->
  infer_missing id needed σ =
    mkOut []
      (if gtb needed (balance a)
       then update_account id (fun a' => infer_balance a' (needed - balance a)) σ
       else σ)
      (OK tt).
Proof.
  intros Ha. unfold infer_missing.
  rewrite (bind_quiet _ _ _ _ _ (the_account_run _ _ _ Ha)).
  destruct (gtb needed (balance a)); reflexivity.
Qed.

Lemma infer_missing_raised id needed σ a :
  get_account id σ = Some a ->
  let σ' := if gtb needed (balance a)
            then update_account id (fun a' => infer_balance a' (needed - balance a)) σ
            else σ in
  raised σ σ' /\ needed <= balance_at σ' id.
Proof.
  intros Ha. cbv zeta. destruct (gtb needed (balance a)) eqn:E.
  - apply gtb_true in E. split.
    + split; [apply keys_update_account|]. intros id'.
      unfold start_at, balance_at. rewrite get_update_account.
      destruct (String.eqb id id') eqn:Ei.
      * apply String.eqb_eq in Ei. subst id'. rewrite Ha. simpl.
        exists (needed - balance a). split; [lra|]. split; ring.
      * exists 0. split; [lra|]. split; ring.
    + unfold balance_at. rewrite get_update_same, Ha. simpl. lra.
  - apply gtb_false in E. split; [apply raised_refl|].
    unfold balance_at. rewrite Ha. exact E.
Qed.

Lemma raised_present σ σ' id a :
  raised σ σ' -> get_account id σ = Some a -> exists a', get_account id σ' = Some a'.
Proof.
  intros [Hk _] Ha. apply get_account_present. rewrite Hk.
  exact (get_account_key _ _ _ Ha).
Qed.

Lemma raised_balance σ σ' id : raised σ σ' -> balance_at σ id <= balance_at σ' id.
Proof.
  intros [_ H]. destruct (H id) as (i & Hi & _ & Hb). lra.
Qed.

Lemma System_process_run t σ :
  System_process t σ =
    mkOut []
      (update_account (tgt t) (fun a => set_balance a (balance a + amt_in t))
         (update_account (src t) (fun a => set_balance a (balance a - amt_out t)) σ))
      (OK tt).
Proof. reflexivity. Qed.

Lemma System_process_views t σ a b :
  get_account (src t) σ = Some a -> get_account (tgt t) σ = Some b ->
  let σ' := accounts_after (System_process t σ) in
  map fst σ' = map fst σ /\
  forall id, start_at σ' id = start_at σ id /\
             balance_at σ' id == balance_at σ id + moved t id.
Proof.
  intros Ha Hb. rewrite System_process_run. cbn [accounts_after]. cbv zeta.
  split; [rewrite !keys_update_account; reflexivity|].
  intros id. unfold start_at, balance_at, moved.
  rewrite !get_update_account.
  destruct (String.eqb (tgt t) id) eqn:Et; destruct (String.eqb (src t) id) eqn:Es.
  - apply String.eqb_eq in Es. rewrite <- Es, Ha. simpl. split; [reflexivity|ring].
  - apply String.eqb_eq in Et. rewrite <- Et, Hb. simpl. split; [reflexivity|ring].
  - apply String.eqb_eq in Es. rewrite <- Es, Ha. simpl. split; [reflexivity|ring].
  - destruct (get_account id σ); split; try reflexivity; ring.
Qed.

Lemma needs_balances_run t σ a b :
  get_account (src t) σ = Some a -> get_account (tgt t) σ = Some b ->
  needs_balances None t σ =
    mkOut [] σ (OK (Py.max (balance a) (amt_out t), Py.max (balance b) (- amt_in t))).
Proof.
  intros Ha Hb. unfold needs_balances.
  rewrite (bind_quiet _ _ _ _ _ (the_account_run _ _ _ Ha)).
  rewrite (bind_quiet _ _ _ _ _ (the_account_run _ _ _ Hb)). reflexivity.
Qed.

(** The body of the loop: balances are inferred until the accounts can
    bear the transaction, then the transaction is processed. *)
Lemma infer_balances_spec t σ a b :
  get_account (src t) σ = Some a -> get_account (tgt t) σ = Some b ->
  exists σa σ',
    infer_balances None t σ = mkOut [] σ' (OK tt) /\
    raised σ σa /\
    amt_out t <= balance_at σa (src t) /\ - amt_in t <= balance_at σa (tgt t) /\
    map fst σ' = map fst σa /\
    forall id, start_at σ' id = start_at σa id /\
               balance_at σ' id == balance_at σa id + moved t id.
Proof.
  intros Ha Hb. unfold infer_balances.
  rewrite (bind_quiet _ _ _ _ _ (needs_balances_run _ _ _ _ Ha Hb)).
  destruct (max_ge (balance a) (amt_out t)) as [_ Hs].
  destruct (max_ge (balance b) (- amt_in t)) as [_ Hg].
  set (ns := Py.max (balance a) (amt_out t)) in *.
  set (ng := Py.max (balance b) (- amt_in t)) in *.
  rewrite (bind_quiet _ _ _ _ _ (infer_missing_run _ ns _ _ Ha)).
  destruct (infer_missing_raised _ ns _ _ Ha) as [Hr1 Hn1]. cbv zeta in Hr1, Hn1.
  set (σ1 := if gtb ns (balance a)
             then update_account (src t) (fun a' => infer_balance a' (ns - balance a)) σ
             else σ) in *.
  destruct (raised_present _ _ _ _ Hr1 Hb) as [b1 Hb1].
  rewrite (bind_quiet _ _ _ _ _ (infer_missing_run _ ng _ _ Hb1)).
  destruct (infer_missing_raised _ ng _ _ Hb1) as [Hr2 Hn2]. cbv zeta in Hr2, Hn2.
  set (σ2 := if gtb ng (balance b1)
             then update_account (tgt t) (fun a' => infer_balance a' (ng - balance b1)) σ1
             else σ1) in *.
  destruct (raised_present _ _ _ _ (raised_trans _ _ _ Hr1 Hr2) Ha) as [a2 Ha2].
  destruct (raised_present _ _ _ _ Hr2 Hb1) as [b2 Hb2].
  exists σ2, (accounts_after (System_process t σ2)).
  split; [rewrite System_process_run; reflexivity|].
  split; [exact (raised_trans _ _ _ Hr1 Hr2)|].
  split; [pose proof (raised_balance _ _ (src t) Hr2); lra|].
  split; [lra|].
  exact (System_process_views t σ2 a2 b2 Ha2 Hb2).
Qed.

Lemma with_ID_In IDs id id' : In id' IDs -> In id' (with_ID IDs id).
Proof.
  unfold with_ID. destruct (bool_decide (id ∈ IDs)); [auto|].
  intros H. apply in_or_app. left. exact H.
Qed.

Lemma with_account_keeps id σ id' a :
  get_account id' σ = Some a -> get_account id' (with_account id σ) = Some a.
Proof. intros H. rewrite with_account_get, H. reflexivity. Qed.

Lemma with_account_made id σ : exists a, get_account id (with_account id σ) = Some a.
Proof.
  pose proof (with_account_has id σ) as H. unfold has_account in H.
  destruct (get_account id (with_account id σ)) as [a|]; [eauto|discriminate].
Qed.

Lemma net_cons t txns id : net (t :: txns) id == moved t id + net txns id.
Proof. unfold net. cbn [map]. apply sum_cons. Qed.

Lemma accepted_cons fc gtc gc row rows :
  accepted fc gtc gc (row :: rows) =
    match Transaction_create fc gtc (src_ID row) (tgt_ID row) (fields row) gc with
    | OK t => t :: accepted fc gtc gc rows
    | Raise _ => accepted fc gtc gc rows
    end.
Proof.
  unfold accepted. simpl.
  destruct (Transaction_create fc gtc (src_ID row) (tgt_ID row) (fields row) gc);
    reflexivity.
Qed.

Lemma infer_starting_balance_spec fc gtc rows :
  forall σ,
    let o := infer_starting_balance fc None gtc rows σ in
    outcome o = OK tt /\ yielded o = [] /\
    map fst (accounts_after o) = IDs_of rows (map fst σ) /\
    forall id,
      start_at σ id <= start_at (accounts_after o) id /\
      balance_at (accounts_after o) id - start_at (accounts_after o) id ==
        balance_at σ id - start_at σ id + net (accepted fc gtc false rows) id.
Proof.
  unfold infer_starting_balance.
  induction rows as [|row rows IH]; intros σ.
  - simpl. repeat split; try reflexivity. + lra. + unfold net. simpl. unfold sum. simpl. ring.
  - rewrite initialize_transactions_cons, accepted_cons. cbv zeta.
    set (σ1 := with_account (tgt_ID row) (with_account (src_ID row) σ)).
    assert (Hk1 : map fst σ1 =
                  with_ID (with_ID (map fst σ) (src_ID row)) (tgt_ID row)).
    { unfold σ1. rewrite !with_account_keys. reflexivity. }
    assert (Hv1 : forall id, balance_at σ1 id = balance_at σ id /\
                             start_at σ1 id = start_at σ id).
    { intros id. unfold σ1.
      destruct (with_account_balance (tgt_ID row) (with_account (src_ID row) σ) id)
        as [-> ->]. apply with_account_balance. }
    destruct (Transaction_create fc gtc (src_ID row) (tgt_ID row) (fields row) false)
      as [t|e] eqn:Ec.
    + destruct (Transaction_create_IDs _ _ _ _ _ _ _ Ec) as [Hs Hg].
      destruct (with_account_made (src_ID row) σ) as [a0 Ha0].
      destruct (with_account_made (tgt_ID row) (with_account (src_ID row) σ)) as [b Hb].
      pose proof (with_account_keeps (tgt_ID row) _ _ _ Ha0) as Ha. fold σ1 in Ha, Hb.
      rewrite <- Hs in Ha. rewrite <- Hg in Hb.
      destruct (infer_balances_spec t σ1 _ _ Ha Hb)
        as (σa & σ' & Hrun & Hr & _ & _ & Hk' & Hv').
      rewrite (bind_quiet _ _ _ _ _ Hrun).
      destruct (IH σ') as (Ho & Hy & Hk & Hv). cbv zeta in Ho, Hy, Hk, Hv.
      split; [exact Ho|]. split; [exact Hy|]. split.
      * rewrite Hk, Hk', (proj1 Hr), Hk1. reflexivity.
      * intros id. destruct (Hv id) as [Hmono Hnet]. destruct (Hv' id) as [Hs' Hb'].
        destruct (Hv1 id) as [Hb1 Hs1]. destruct (proj2 Hr id) as (i & Hi & Hsi & Hbi).
        pose proof (net_cons t (accepted fc gtc false rows) id) as Hn.
        rewrite Hs' in Hmono. rewrite Hs1 in Hsi. rewrite Hb1 in Hbi.
        split; [lra|]. rewrite Hnet, Hn, Hb', Hs', Hsi, Hbi. ring.
    + destruct (IH σ1) as (Ho & Hy & Hk & Hv). cbv zeta in Ho, Hy, Hk, Hv.
      split; [exact Ho|]. split; [exact Hy|]. split.
      * rewrite Hk, Hk1. reflexivity.
      * intros id. destruct (Hv id) as [Hmono Hnet]. destruct (Hv1 id) as [Hb1 Hs1].
        rewrite Hs1 in Hmono. split; [exact Hmono|]. rewrite Hnet, Hb1, Hs1. reflexivity.
Qed.

(** X16: [infer_starting_balance] with the balances that
    [System.__init__] asks for, on rows whose amounts are numbers.  The
    pass returns and yields nothing; the accounts
    afterwards are those that were there, then the IDs of the rows in
    the order in which they are first seen, those of rejected rows
    among them; no starting balance is lowered; and for every account
    the balance less the starting balance has changed by what the
    accepted transactions moved into the account. *)
Theorem infer_starting_balance_accounts
    (fc : option FeeConvention) (get_txn_categ : Transaction -> Res (string * string))
    (rows : list Row) (σ : Accounts) :
  let o := infer_starting_balance fc None get_txn_categ rows σ in
  outcome o = OK tt /\ yielded o = [] /\
  map fst (accounts_after o) = IDs_of rows (map fst σ) /\
  forall id,
    start_at σ id <= start_at (accounts_after o) id /\
    balance_at (accounts_after o) id - start_at (accounts_after o) id ==
      balance_at σ id - start_at σ id + net (accepted fc get_txn_categ false rows) id.
Proof. exact (infer_starting_balance_spec fc get_txn_categ rows σ). Qed.

(** The first pass on the three rows: the accounts in the order in which
    they are first seen, those of the rejected row among them, and the
    starting balances that were inferred. *)
Lemma infer_starting_balance_three_rows :
  map (fun entry => (fst entry, starting_balance (snd entry), Qred (balance (snd entry))))
    (accounts_after
       (infer_starting_balance (Some recipient) None get_txn_categ_default three_rows [])) =
  [("A", 0 + 50, 0); ("B", 0, 20); ("C", 0, 29); ("D", 0, 0); ("E", 0, 0)].
Proof. vm_compute. reflexivity. Qed.

(** ** Flows are paths *)

Lemma connected_eq self :
  connected self =
    match prev self with
    | Some p => tgt (txn p) = src (txn self) /\ connected p
    | None => True
    end.
Proof. destruct self; reflexivity. Qed.

Lemma connected_same b b' :
  txn b' = txn b -> prev b' = prev b -> connected b -> connected b'.
Proof.
  intros Ht Hp. rewrite (connected_eq b), (connected_eq b'), Ht, Hp. exact (fun H => H).
Qed.

Lemma held_by_same id b b' :
  txn b' = txn b -> prev b' = prev b -> held_by id b -> held_by id b'.
Proof.
  intros Ht Hp [H1 H2]. split; [rewrite Ht; exact H1|].
  exact (connected_same _ _ Ht Hp H2).
Qed.

Lemma held_by_child id b t a :
  held_by id b -> src t = id -> held_by (tgt t) (mkBranch (Some b) t a).
Proof.
  intros [H1 H2] Hs. split; [reflexivity|]. rewrite connected_eq. simpl.
  split; [congruence|exact H2].
Qed.

Lemma held_by_root t a : held_by (tgt t) (mkBranch None t a).
Proof. split; [reflexivity|]. rewrite connected_eq. exact I. Qed.

Lemma follow_back_path self a fee flow :
  connected self -> follow_back self a fee = OK flow -> a_path flow.
Proof. intros Hc H. exists self, a, fee. split; assumption. Qed.

Lemma comprehension_paths (l : list Branch) flows :
  Forall connected l ->
  comprehension (fun b => follow_back b (amt b) None) l = OK flows ->
  Forall a_path flows.
Proof.
  revert flows. induction l as [|b l IH]; intros flows Hl; simpl.
  - intros [= <-]. constructor.
  - apply Forall_cons in Hl as [Hb Hl].
    destruct (follow_back b (amt b) None) as [flow|e] eqn:E; simpl; [|discriminate].
    destruct (comprehension _ l) as [flows'|e]; simpl; [|discriminate].
    intros [= <-]. constructor; [exact (follow_back_path _ _ _ _ Hb E)|].
    apply IH; [exact Hl|reflexivity].
Qed.

Lemma held_connected id (l : list Branch) : Forall (held_by id) l -> Forall connected l.
Proof. intros H. eapply Forall_impl; [exact H|]. intros b [_ Hc]. exact Hc. Qed.

Lemma new_leaves_paths (new : list Branch) skip_leaf flows :
  Forall connected new -> new_leaves new skip_leaf = OK flows -> Forall a_path flows.
Proof.
  intros Hnew. unfold new_leaves. destruct skip_leaf.
  - apply comprehension_paths.
    induction Hnew as [|b new Hb _ IH]; [constructor|].
    simpl. rewrite connected_eq in Hb.
    destruct (prev b) as [p|]; [|exact IH]. constructor; [apply Hb|exact IH].
  - apply comprehension_paths. exact Hnew.
Qed.

(** *** The methods of a tracker *)

Lemma keeps_ret {A} id (R : A -> Prop) (a : A) : R a -> keeps id R (mret a : TM A).
Proof. intros H self Hs. split; [exact Hs|]. intros x [= <-]. exact H. Qed.

Lemma keeps_pure {A} id (R : A -> Prop) (r : Res A) :
  (forall a, r = OK a -> R a) -> keeps id R (TM_pure r).
Proof. intros H self Hs. split; [exact Hs|]. exact H. Qed.

Lemma keeps_bind {A B} id (R : A -> Prop) (R' : B -> Prop) (m : TM A) (f : A -> TM B) :
  keeps id R m -> (forall a, R a -> keeps id R' (f a)) -> keeps id R' (m ≫= f).
Proof.
  intros Hm Hf self Hs. unfold mbind, TM_mbind, TM_bind.
  destruct (Hm self Hs) as [H1 H2]. destruct (m self) as [self' [a|e]]; simpl in *.
  - apply (Hf a (H2 a eq_refl)). exact H1.
  - split; [exact H1|]. intros x H. discriminate H.
Qed.

Lemma Transaction_init_IDs fc s g d t :
  Transaction_init fc s g d = OK t -> src t = s /\ tgt t = g.
Proof.
  unfold Transaction_init.
  destruct (get_amounts fc d) as [[[out inn] f]|e]; simpl; [|discriminate].
  destruct (ltb out inn); [discriminate|]. intros [= <-]. split; reflexivity.
Qed.

Lemma keeps_add_branches id branches :
  Forall (held_by id) branches -> keeps id (fun _ => True) (add_branches branches).
Proof.
  intros Hb self Hs. unfold add_branches. simpl. split; [|trivial].
  apply Forall_app. split; assumption.
Qed.

Lemma keeps_infer_deposit cls fc tw id a :
  keeps id (fun _ => True) (infer_deposit cls fc tw id a).
Proof.
  unfold infer_deposit. destruct (gtb a (resolution_limit cls)); [|apply keeps_ret; exact I].
  eapply keeps_bind.
  - apply (keeps_pure id (fun t => tgt t = id)). intros t Ht.
    exact (proj2 (Transaction_init_IDs _ _ _ _ _ Ht)).
  - intros t Ht. apply keeps_add_branches. unfold new_root.
    constructor; [|constructor]. rewrite <- Ht. apply held_by_root.
Qed.

Lemma stop_tracking_visits_keeps id cutoff now :
  forall n self acc,
    (length self <= n)%nat ->
    Forall (held_by id) self -> Forall a_path acc ->
    Forall (held_by id) (fst (stop_tracking_visits cutoff now self acc)) /\
    forall flows, snd (stop_tracking_visits cutoff now self acc) = OK flows ->
                  Forall a_path flows.
Proof.
  induction n as [|n IH]; intros self acc Hlen Hs Hacc.
  - destruct self; [|simpl in Hlen; lia]. simpl. split; [constructor|].
    intros flows [= <-]. exact Hacc.
  - destruct self as [|branch rest].
    + simpl. split; [constructor|]. intros flows [= <-]. exact Hacc.
    + simpl in Hlen. apply Forall_cons in Hs as [Hb Hr]. cbn [stop_tracking_visits].
      destruct (expired cutoff now branch).
      * destruct (follow_back branch (amt branch) None) as [flow|e] eqn:E.
        -- assert (Hacc' : Forall a_path (acc ++ [flow])).
           { apply Forall_app. split; [exact Hacc|]. constructor; [|constructor].
             exact (follow_back_path _ _ _ _ (proj2 Hb) E). }
           destruct rest as [|skipped rest'].
           ++ simpl. split; [constructor|]. intros flows [= <-]. exact Hacc'.
           ++ apply Forall_cons in Hr as [Hsk Hr'].
              destruct (IH rest' (acc ++ [flow]) ltac:(simpl in Hlen; lia) Hr' Hacc')
                as [H1 H2].
              destruct (stop_tracking_visits cutoff now rest' (acc ++ [flow])) as [kept r].
              simpl in *. split; [constructor; assumption|exact H2].
        -- simpl. split; [constructor; assumption|]. intros flows H. discriminate H.
      * destruct (IH rest acc ltac:(lia) Hr Hacc) as [H1 H2].
        destruct (stop_tracking_visits cutoff now rest acc) as [kept r].
        simpl in *. split; [constructor; assumption|exact H2].
Qed.

Lemma keeps_stop_tracking cls id ts :
  keeps id (Forall a_path) (stop_tracking cls ts).
Proof.
  intros self Hs. destruct ts as [now|].
  - destruct (time_cutoff cls) as [cutoff|] eqn:Ec.
    + rewrite (stop_tracking_timestamp _ _ _ _ Ec).
      apply (stop_tracking_visits_keeps id cutoff now (length self)); auto.
    + unfold stop_tracking. rewrite Ec. destruct self as [|b self].
      * simpl. split; [constructor|]. intros x [= <-]. constructor.
      * simpl. split; [exact Hs|]. intros x H. discriminate H.
  - unfold stop_tracking.
    destruct (comprehension (fun b => follow_back b (amt b) None) self) as [flows|e] eqn:E;
      simpl.
    + split; [constructor|]. intros x [= <-].
      exact (comprehension_paths _ _ (held_connected _ _ Hs) E).
    + split; [exact Hs|]. intros x H. discriminate H.
Qed.

Lemma keeps_Tracker_extend_branches cls id t :
  keeps id (extended t) (Tracker_extend_branches cls t).
Proof.
  unfold Tracker_extend_branches. apply keeps_pure. intros [new pf].
  destruct (gtb (amt_out t) (resolution_limit cls)); [|discriminate].
  destruct (gtb (amt_in t) (resolution_limit cls)).
  - intros [= <- <-]. split; simpl.
    + constructor; [apply held_by_root|constructor].
    + intros flows [= <-]. constructor.
  - destruct (follow_back _ _ _) as [flow|e]; simpl; [|discriminate].
    intros [= <- <-]. split; simpl; [constructor|]. intros flows H. discriminate H.
Qed.

Lemma pop_loop_keeps cls id :
  forall fuel a branches self,
    Forall (held_by id) self -> Forall (held_by id) branches ->
    Forall (held_by id) (fst (pop_loop cls fuel a branches self)) /\
    forall out, snd (pop_loop cls fuel a branches self) = OK out ->
                Forall (held_by id) out.
Proof.
  induction fuel as [|fuel IH]; intros a branches self Hs Hb.
  - simpl. destruct (gtb a (resolution_limit cls)); simpl.
    + split; [exact Hs|]. intros out H. discriminate H.
    + split; [exact Hs|]. intros out [= <-]. exact Hb.
  - destruct (Qlt_le_dec (resolution_limit cls) a) as [Ha|Ha].
    + destruct (snoc_or_nil self) as [->|(l & b & ->)].
      * rewrite pop_loop_empty by exact Ha. simpl. split; [constructor|].
        intros out H. discriminate H.
      * apply Forall_app in Hs as [Hl Hb']. apply Forall_inv in Hb'.
        destruct (Qlt_le_dec (amt b) (a + resolution_limit cls)) as [Hlt|Hge].
        -- rewrite (pop_loop_consume _ _ _ _ _ _ Ha Hlt). apply IH; [exact Hl|].
           apply Forall_app. split; [exact Hb|]. constructor; [exact Hb'|constructor].
        -- rewrite (pop_loop_split _ _ _ _ _ _ Ha Hge). apply IH.
           ++ apply Forall_app. split; [exact Hl|]. constructor; [|constructor].
              exact (held_by_same id b (decrement b a) eq_refl eq_refl Hb').
           ++ apply Forall_app. split; [exact Hb|]. constructor; [|constructor].
              exact (held_by_same id b (mkBranch (prev b) (txn b) a) eq_refl eq_refl Hb').
    + rewrite pop_loop_done by exact Ha. simpl. split; [exact Hs|].
      intros out [= <-]. exact Hb.
Qed.

Lemma greedy_extend_keeps cls id t c :
  src t = id ->
  forall bs ns nf ns' nf',
    Forall (held_by id) bs -> Forall (held_by (tgt t)) ns -> Forall a_path nf ->
    greedy_extend cls t c bs ns nf = OK (ns', nf') ->
    Forall (held_by (tgt t)) ns' /\ Forall a_path nf'.
Proof.
  intros Hsrc. induction bs as [|b bs IH]; intros ns nf ns' nf' Hbs Hns Hnf; simpl.
  - intros [= <- <-]. split; assumption.
  - apply Forall_cons in Hbs as [Hb Hbs].
    pose proof (held_by_child id b t (amt b * c) Hb Hsrc) as Hchild.
    destruct (gtb (amt b * c) (resolution_limit cls)).
    + apply IH; [exact Hbs| |exact Hnf].
      apply Forall_app. split; [exact Hns|]. constructor; [exact Hchild|constructor].
    + destruct (follow_back _ _ _) as [flow|e] eqn:E; simpl; [|discriminate].
      apply IH; [exact Hbs|exact Hns|].
      apply Forall_app. split; [exact Hnf|]. constructor; [|constructor].
      exact (follow_back_path _ _ _ _ (proj2 Hchild) E).
Qed.

Lemma keeps_Greedy_extend_branches cls id t :
  src t = id -> keeps id (extended t) (Greedy_extend_branches cls t).
Proof.
  intros Hsrc self Hs. unfold Greedy_extend_branches.
  destruct (pop_loop_keeps cls id (S (length self))
              (Py.min (amt_out t) (sum (map amt self))) [] self Hs (Forall_nil_2 _))
    as [H1 H2].
  destruct (pop_loop cls (S (length self)) _ [] self) as [self' [branches|e]];
    simpl in *.
  - split; [exact H1|]. intros [new pf].
    destruct (div (amt_in t) (amt_out t)) as [c|e]; simpl; [|discriminate].
    destruct (greedy_extend cls t c (rev branches) [] []) as [[ns nf]|e] eqn:E;
      simpl; [|discriminate].
    destruct (greedy_extend_keeps cls id t c Hsrc _ _ _ _ _
                (Forall_rev (H2 _ eq_refl)) (Forall_nil_2 _) (Forall_nil_2 _) E)
      as [Hns Hnf].
    destruct (gtb (amt_in t - sum (map amt ns)) (resolution_limit cls)).
    + intros [= <- <-]. split; simpl.
      * apply Forall_app. split; [exact Hns|].
        constructor; [apply held_by_root|constructor].
      * intros flows [= <-]. exact Hnf.
    + destruct (gtb (amt_out t - sum (map amt self)) (resolution_limit cls)).
      * destruct (follow_back _ _ _) as [flow|e] eqn:Ef; simpl; [|discriminate].
        intros [= <- <-]. split; simpl; [exact Hns|].
        intros flows [= <-]. apply Forall_app. split; [exact Hnf|].
        constructor; [|constructor].
        apply (follow_back_path _ _ _ _ (proj2 (held_by_root t _)) Ef).
      * intros [= <- <-]. split; simpl; [exact Hns|].
        intros flows [= <-]. exact Hnf.
  - split; [exact H1|]. intros x H. discriminate H.
Qed.

Lemma well_mixed_extend_keeps cls id t tf sf self :
  src t = id -> Forall (held_by id) self ->
  forall branches pre pool flows pool' flows',
    self = pre ++ branches ->
    Forall (child_of self t) pool -> Forall a_path flows ->
    well_mixed_extend cls t tf sf (length pre) branches pool flows = OK (pool', flows') ->
    Forall (child_of self t) pool' /\ Forall a_path flows'.
Proof.
  intros Hsrc Hself.
  induction branches as [|branch branches IH]; intros pre pool flows pool' flows' Hpre Hp Hf.
  - simpl. intros [= <- <-]. split; assumption.
  - assert (Hat : self !! length pre = Some branch).
    { rewrite Hpre. apply list_lookup_middle. reflexivity. }
    assert (Hb : held_by id branch).
    { rewrite Forall_forall in Hself. apply Hself.
      apply list_elem_of_lookup. eauto. }
    assert (Hnext : self = (pre ++ [branch]) ++ branches).
    { rewrite <- app_assoc. exact Hpre. }
    specialize (IH (pre ++ [branch])). rewrite length_snoc in IH.
    cbn [well_mixed_extend].
    destruct (gtb (tf * amt branch) (resolution_limit cls)); [|apply IH; assumption].
    cbn [amt].
    destruct (gtb (sf * amt branch) (resolution_limit cls)).
    + apply IH; [exact Hnext| |exact Hf].
      apply Forall_app. split; [exact Hp|]. constructor; [|constructor].
      split; [reflexivity|]. simpl. eauto.
    + destruct (follow_back _ _ _) as [flow|e] eqn:E; simpl; [|discriminate].
      apply IH; [exact Hnext|exact Hp|].
      apply Forall_app. split; [exact Hf|]. constructor; [|constructor].
      apply (follow_back_path _ _ _ _
               (proj2 (held_by_child id branch t (sf * amt branch) Hb Hsrc)) E).
Qed.

Lemma well_mixed_shrink_visits_Forall (P : nat * Branch -> Prop) res stay :
  (forall entry, P entry -> P (fst entry, depreciate (snd entry) stay)) ->
  forall n l, (length l <= n)%nat -> Forall P l ->
              Forall P (well_mixed_shrink_visits res stay l).
Proof.
  intros Hd. induction n as [|n IH]; intros l Hlen Hl.
  - destruct l; [constructor|simpl in Hlen; lia].
  - destruct l as [|entry rest]; [constructor|].
    simpl in Hlen. apply Forall_cons in Hl as [He Hr]. cbn [well_mixed_shrink_visits].
    destruct (ltb (stay * amt (snd entry)) res).
    + destruct rest as [|skipped rest']; [constructor|].
      apply Forall_cons in Hr as [Hs Hr']. constructor; [exact Hs|].
      apply IH; [simpl in Hlen; lia|exact Hr'].
    + constructor; [apply Hd; exact He|]. apply IH; [lia|exact Hr].
Qed.

Lemma imap_pair_stands_for (self : list Branch) :
  Forall (stands_for self) (imap pair self).
Proof.
  apply Forall_forall. intros entry H.
  apply list_elem_of_lookup in H as [j Hj].
  rewrite list_lookup_imap in Hj.
  destruct (self !! j) as [b|] eqn:Eb; [|discriminate].
  injection Hj as <-. exists b. simpl. split; [exact Eb|]. split; reflexivity.
Qed.

Lemma imap_pair_held id (self : list Branch) :
  Forall (held_by id) self ->
  Forall (fun entry : nat * Branch => held_by id (snd entry)) (imap pair self).
Proof.
  intros Hs. apply Forall_forall. intros entry H.
  apply list_elem_of_lookup in H as [j Hj].
  rewrite list_lookup_imap in Hj.
  destruct (self !! j) as [b|] eqn:Eb; [|discriminate].
  injection Hj as <-. simpl. rewrite Forall_forall in Hs. apply Hs.
  apply list_elem_of_lookup. eauto.
Qed.

Lemma object_after_stands_for self self' i b :
  Forall (stands_for self) self' -> self !! i = Some b ->
  exists b', object_after self self' i = Some b' /\ txn b' = txn b /\ prev b' = prev b.
Proof.
  intros Hs Hb. unfold object_after.
  destruct (list_find (fun entry : nat * Branch => fst entry = i) self')
    as [[j [k branch]]|] eqn:E.
  - apply list_find_Some in E as (Hj & Hk & _). simpl in Hk. subst k.
    rewrite Forall_forall in Hs.
    destruct (Hs (i, branch)) as (b0 & Hb0 & Ht & Hp).
    { apply list_elem_of_lookup. eauto. }
    simpl in *. rewrite Hb in Hb0. injection Hb0 as <-. eauto.
  - eauto.
Qed.

Lemma repoint_held id t self self' child :
  src t = id -> Forall (held_by id) self -> Forall (stands_for self) self' ->
  child_of self t child -> held_by (tgt t) (repoint self self' child).
Proof.
  intros Hsrc Hself Hs [Ht Hc]. unfold repoint.
  destruct (fst child) as [i|].
  - destruct Hc as (b & Hb & _).
    destruct (object_after_stands_for self self' i b Hs Hb) as (b' & -> & Ht' & Hp').
    rewrite Ht. apply (held_by_child id); [|exact Hsrc].
    apply (held_by_same id b b' Ht' Hp').
    rewrite Forall_forall in Hself. apply Hself. apply list_elem_of_lookup. eauto.
  - split; [rewrite Ht; reflexivity|]. rewrite connected_eq, Hc. exact I.
Qed.

Lemma keeps_Well_mixed_extend_branches cls id bal t :
  src t = id -> keeps id (extended t) (Well_mixed_extend_branches cls bal t).
Proof.
  intros Hsrc self Hself. unfold Well_mixed_extend_branches.
  assert (Hfail : forall e : exn,
            Forall (held_by id) (fst (self, @Raise (list Branch * PyFlows) e)) /\
            forall x, snd (self, @Raise (list Branch * PyFlows) e) = OK x -> extended t x).
  { intros e. simpl. split; [exact Hself|]. intros x H. discriminate H. }
  destruct (div (amt_out t) bal) as [tf|e]; simpl; [|apply Hfail].
  destruct (div (amt_in t) bal) as [sf|e]; simpl; [|apply Hfail].
  destruct (div (bal - amt_out t) bal) as [stay|e]; simpl; [|apply Hfail].
  destruct (well_mixed_extend cls t tf sf 0 self [] []) as [[pool nf]|e] eqn:E;
    simpl; [|apply Hfail].
  destruct (well_mixed_extend_keeps cls id t tf sf self Hsrc Hself self [] [] [] pool nf
              eq_refl (Forall_nil_2 _) (Forall_nil_2 _) E) as [Hpool Hnf].
  assert (Hshrink : forall P : nat * Branch -> Prop,
            (forall entry, P entry -> P (fst entry, depreciate (snd entry) stay)) ->
            Forall P (imap pair self) ->
            Forall P (well_mixed_shrink cls stay (imap pair self))).
  { intros P Hd HP. rewrite well_mixed_shrink_eq.
    apply (well_mixed_shrink_visits_Forall P _ _ Hd (length (imap pair self)));
      [lia|exact HP]. }
  assert (Hstands : Forall (stands_for self) (well_mixed_shrink cls stay (imap pair self))).
  { apply Hshrink; [|apply imap_pair_stands_for].
    intros entry (b & Hb & Ht & Hp). exists b. simpl. auto. }
  assert (Hheld : Forall (held_by id) (map snd (well_mixed_shrink cls stay (imap pair self)))).
  { apply Forall_map. apply Hshrink; [|apply imap_pair_held; exact Hself].
    intros entry H. simpl.
    exact (held_by_same id (snd entry) (depreciate (snd entry) stay) eq_refl eq_refl H). }
  assert (Hnew : forall pool', Forall (child_of self t) pool' ->
            Forall (held_by (tgt t))
              (map (repoint self (well_mixed_shrink cls stay (imap pair self))) pool')).
  { intros pool' Hp. apply Forall_map. eapply Forall_impl; [exact Hp|].
    intros child Hc. simpl. exact (repoint_held id t self _ child Hsrc Hself Hstands Hc). }
  destruct (gtb (amt_in t - sum (map (fun child => amt (snd child)) pool))
              (resolution_limit cls)).
  - simpl. split; [exact Hheld|]. intros x [= <-]. split; simpl.
    + apply Hnew. apply Forall_app. split; [exact Hpool|].
      constructor; [|constructor]. split; reflexivity.
    + intros flows [= <-]. exact Hnf.
  - destruct (gtb (amt_out t - sum (map amt self)) (resolution_limit cls)).
    + destruct (div (amt_in t) (amt_out t)) as [c|e]; simpl; [|apply Hfail].
      destruct (follow_back _ _ _) as [flow|e] eqn:Ef; simpl; [|apply Hfail].
      split; [exact Hheld|]. intros x [= <-]. split; simpl.
      * apply Hnew. exact Hpool.
      * intros flows [= <-]. apply Forall_app. split; [exact Hnf|].
        constructor; [|constructor].
        apply (follow_back_path _ _ _ _ (proj2 (held_by_root t _)) Ef).
    + simpl. split; [exact Hheld|]. intros x [= <-]. split; simpl.
      * apply Hnew. exact Hpool.
      * intros flows [= <-]. exact Hnf.
Qed.

Lemma keeps_extend_branches cls id bal t :
  src t = id -> keeps id (extended t) (extend_branches cls bal t).
Proof.
  intros Hsrc. unfold extend_branches. destruct (heuristic cls).
  - apply keeps_Tracker_extend_branches.
  - apply keeps_Greedy_extend_branches. exact Hsrc.
  - apply keeps_Well_mixed_extend_branches. exact Hsrc.
Qed.

Lemma keeps_infer_withdraw cls fc tw id bal a fee type track :
  keeps id (Forall a_path) (infer_withdraw cls fc tw id bal a fee type track).
Proof.
  unfold infer_withdraw.
  destruct (gtb (a + fee) (resolution_limit cls));
    [|apply keeps_ret; constructor].
  eapply keeps_bind.
  - apply (keeps_pure id (fun t => src t = id)). intros t Ht.
    exact (proj1 (Transaction_init_IDs _ _ _ _ _ Ht)).
  - intros t Ht. eapply keeps_bind; [apply keeps_extend_branches; exact Ht|].
    intros [new pf] [Hnew Hpf]. simpl in Hnew, Hpf.
    eapply keeps_bind.
    + apply (keeps_pure id (Forall a_path)). intros leaves Hl.
      exact (new_leaves_paths _ _ _ (held_connected _ _ Hnew) Hl).
    + intros leaves Hleaves. eapply keeps_bind.
      * apply (keeps_pure id (Forall a_path)). exact Hpf.
      * intros flows Hflows. apply keeps_ret. apply Forall_app. split; assumption.
Qed.

(** *** The driver *)

Lemma trackers_hold_update id f σ :
  trackers_hold σ ->
  (forall a self, get_account id σ = Some a -> tracker (f a) = Some self ->
                  Forall (held_by id) self) ->
  trackers_hold (update_account id f σ).
Proof.
  intros Hσ Hf id' a' self. rewrite get_update_account.
  destruct (String.eqb id id') eqn:E.
  - apply String.eqb_eq in E. subst id'.
    destruct (get_account id σ) as [a|] eqn:Ea; simpl; [|discriminate].
    intros [= <-]. apply Hf. reflexivity.
  - apply Hσ.
Qed.

Lemma sound_weaken {A} (R R' : A -> Prop) (m : EM A) :
  sound R m -> (forall a, R a -> R' a) -> sound R' m.
Proof.
  intros Hm HR σ Hσ. destruct (Hm σ Hσ) as (H1 & H2 & H3).
  split; [exact H1|]. split; [exact H2|]. intros x Hx. apply HR, H3, Hx.
Qed.

Lemma sound_ret {A} (R : A -> Prop) (a : A) : R a -> sound R (mret a : EM A).
Proof.
  intros H σ Hσ. split; [exact Hσ|]. split; [constructor|]. intros x [= <-]. exact H.
Qed.

Lemma sound_pure {A} (R : A -> Prop) (r : Res A) :
  (forall a, r = OK a -> R a) -> sound R (EM_pure r).
Proof. intros H σ Hσ. split; [exact Hσ|]. split; [constructor|]. exact H. Qed.

Lemma sound_yield flows : Forall a_path flows -> sound (fun _ => True) (yield_from flows).
Proof. intros H σ Hσ. split; [exact Hσ|]. split; [exact H|]. trivial. Qed.

Lemma sound_the_account id : sound (fun _ => True) (the_account id).
Proof.
  intros σ Hσ. unfold the_account.
  destruct (get_account id σ); (split; [exact Hσ|]; split; [constructor|trivial]).
Qed.

Lemma sound_bind {A B} (R : A -> Prop) (R' : B -> Prop) (m : EM A) (f : A -> EM B) :
  sound R m -> (forall a, R a -> sound R' (f a)) -> sound R' (m ≫= f).
Proof.
  intros Hm Hf σ Hσ. unfold mbind, EM_mbind, EM_bind.
  destruct (Hm σ Hσ) as (H1 & H2 & H3).
  destruct (outcome (m σ)) as [a|e]; simpl.
  - destruct (Hf a (H3 a eq_refl) _ H1) as (H1' & H2' & H3').
    split; [exact H1'|]. split; [|exact H3'].
    apply Forall_app. split; assumption.
  - split; [exact H1|]. split; [exact H2|]. intros x H. discriminate H.
Qed.

Lemma sound_then {A B} (R : A -> Prop) (R' : B -> Prop) (m : EM A) (k : EM B) :
  sound R m -> sound R' k -> sound R' (m ≫= fun _ => k).
Proof. intros Hm Hk. apply (sound_bind R); [exact Hm|]. intros _ _. exact Hk. Qed.

Lemma sound_try {A} (R : A -> Prop) (m : EM A) :
  sound R m -> sound (fun _ => True) (try_except m).
Proof.
  intros Hm σ Hσ. destruct (Hm σ Hσ) as (H1 & H2 & _).
  split; [exact H1|]. split; [exact H2|]. trivial.
Qed.

Lemma sound_change id f :
  (forall a, tracker (f a) = tracker a \/ tracker (f a) = None) ->
  sound (fun _ => True) (change_account id f).
Proof.
  intros Hf σ Hσ. unfold change_account. simpl.
  split; [|split; [constructor|trivial]].
  apply trackers_hold_update; [exact Hσ|].
  intros a self Ha Ht. destruct (Hf a) as [E|E]; rewrite E in Ht; [|discriminate].
  exact (Hσ id a self Ha Ht).
Qed.

Lemma sound_set_tracker id self :
  Forall (held_by id) self ->
  sound (fun _ => True) (change_account id (fun a => set_tracker a (Some self))).
Proof.
  intros Hs σ Hσ. unfold change_account. simpl.
  split; [|split; [constructor|trivial]].
  apply trackers_hold_update; [exact Hσ|].
  intros a self' _ [= <-]. exact Hs.
Qed.

Lemma sound_on_tracker {A} id (R : A -> Prop) (m : Q -> TM A) :
  (forall bal, keeps id R (m bal)) -> sound R (on_tracker id m).
Proof.
  intros Hm σ Hσ. unfold on_tracker.
  destruct (get_account id σ) as [a|] eqn:Ea;
    [|split; [exact Hσ|]; split; [constructor|]; intros x H; discriminate H].
  destruct (tracker a) as [self|] eqn:Et;
    [|split; [exact Hσ|]; split; [constructor|]; intros x H; discriminate H].
  destruct (Hm (balance a) self (Hσ id a self Ea Et)) as [H1 H2].
  destruct (m (balance a) self) as [self' r]. simpl in *.
  split; [|split; [constructor|exact H2]].
  apply trackers_hold_update; [exact Hσ|].
  intros a' self'' _ [= <-]. exact H1.
Qed.

Lemma sound_track cls fc tw id : sound (fun _ => True) (track cls fc tw id).
Proof.
  unfold track. apply (sound_bind (fun _ => True)); [apply sound_the_account|].
  intros a _. unfold Tracker_init.
  assert (Hk : keeps id (fun _ : unit => True)
                 (if infer cls then infer_deposit cls fc tw id (balance a) else mret tt)).
  { destruct (infer cls); [apply keeps_infer_deposit|apply keeps_ret; exact I]. }
  destruct (Hk [] (Forall_nil_2 _)) as [H1 _].
  destruct ((if infer cls then infer_deposit cls fc tw id (balance a) else mret tt) [])
    as [self [[]|e]]; simpl in H1.
  - apply sound_set_tracker. exact H1.
  - apply sound_pure. intros x H. discriminate H.
Qed.

Lemma sound_start_tracking cls fc tw id : sound (fun _ => True) (start_tracking cls fc tw id).
Proof.
  unfold start_tracking. apply sound_then with (R := fun _ => True).
  - apply sound_change. intros a. left. reflexivity.
  - apply (sound_bind (fun _ => True)); [apply sound_the_account|].
    intros a _. destruct (has_tracker a); [apply sound_ret; exact I|apply sound_track].
Qed.

Lemma sound_flows id (m : Q -> TM (list Flow)) :
  (forall bal, keeps id (Forall a_path) (m bal)) ->
  sound (fun _ => True) (flows ← on_tracker id m; yield_from flows).
Proof.
  intros Hm. apply (sound_bind (Forall a_path)); [apply sound_on_tracker; exact Hm|].
  intros flows Hf. apply sound_yield. exact Hf.
Qed.

Lemma sound_adjust_balance_up cls fc tw id missing :
  sound (fun _ => True) (adjust_balance_up cls fc tw id missing).
Proof.
  unfold adjust_balance_up. apply (sound_bind (fun _ => True)); [apply sound_the_account|].
  intros a _. apply sound_then with (R := fun _ => True).
  - destruct (has_tracker a); [|apply sound_ret; exact I].
    apply sound_on_tracker. intros _. unfold adjust_tracker_up.
    destruct (infer cls); [apply keeps_infer_deposit|apply keeps_ret; exact I].
  - apply sound_change. intros a'. left. reflexivity.
Qed.

Lemma sound_adjust_balance_down cls fc tw id extra :
  sound (fun _ => True) (adjust_balance_down cls fc tw id extra).
Proof.
  unfold adjust_balance_down. apply (sound_bind (fun _ => True)); [apply sound_the_account|].
  intros a _. apply sound_then with (R := fun _ => True).
  - destruct (has_tracker a); [|apply sound_ret; exact I].
    apply sound_flows. intros bal. apply keeps_infer_withdraw.
  - apply sound_change. intros a'. left. reflexivity.
Qed.

Lemma sound_check_balance cls fc tw id needed :
  sound (fun _ => True) (check_balance cls fc tw id needed).
Proof.
  unfold check_balance. apply (sound_bind (fun _ => True)); [apply sound_the_account|].
  intros a _. destruct (gtb needed (balance a)); [apply sound_adjust_balance_up|].
  destruct (ltb needed (balance a)); [apply sound_adjust_balance_down|].
  apply sound_ret. exact I.
Qed.

Lemma sound_needs_balances bt t : sound (fun _ => True) (needs_balances bt t).
Proof.
  unfold needs_balances. destruct bt as [[]|].
  - apply (sound_bind (fun _ => True)); [apply sound_pure; trivial|]. intros sb _.
    apply (sound_bind (fun _ => True)); [apply sound_pure; trivial|]. intros tb _.
    apply sound_ret. exact I.
  - apply (sound_bind (fun _ => True)); [apply sound_pure; trivial|]. intros sb _.
    apply (sound_bind (fun _ => True)); [apply sound_pure; trivial|]. intros tb _.
    apply sound_ret. exact I.
  - apply (sound_bind (fun _ => True)); [apply sound_the_account|]. intros s _.
    apply (sound_bind (fun _ => True)); [apply sound_the_account|]. intros g _.
    apply sound_ret. exact I.
Qed.

Lemma sound_check_balances cls fc tw bt t :
  sound (fun _ => True) (check_balances cls fc tw bt t).
Proof.
  unfold check_balances.
  apply (sound_bind (fun _ => True)); [apply sound_needs_balances|].
  intros [src_needs tgt_needs] _.
  apply sound_then with (R := fun _ => True); apply sound_check_balance.
Qed.

Lemma sound_check_tracker cls id now : sound (fun _ => True) (check_tracker cls id now).
Proof.
  unfold check_tracker. apply (sound_bind (fun _ => True)); [apply sound_the_account|].
  intros a _. destruct (tracker a) as [[|b self]|]; try (apply sound_ret; exact I).
  apply sound_flows. intros _. apply keeps_stop_tracking.
Qed.

Lemma sound_check_trackers cls t : sound (fun _ => True) (check_trackers cls t).
Proof.
  unfold check_trackers.
  apply sound_then with (R := fun _ => True); apply sound_check_tracker.
Qed.

Lemma sound_withdraw_excess_fee cls fc tw t :
  sound (fun _ => True) (withdraw_excess_fee cls fc tw t).
Proof.
  unfold withdraw_excess_fee.
  apply sound_then with (R := fun _ => True); [apply sound_start_tracking|].
  apply sound_flows. intros bal. apply keeps_infer_withdraw.
Qed.

Lemma sound_process_correct cls fc tw t tgt_track :
  sound (fun t' => src t' = src t /\ tgt t' = tgt t)
    (process_correct cls fc tw t tgt_track).
Proof.
  unfold process_correct. destruct (ltb (amt_in t) 0).
  - apply sound_then with (R := fun _ => True).
    + destruct tgt_track; [apply sound_withdraw_excess_fee|apply sound_ret; exact I].
    + apply sound_then with (R := fun _ => True).
      * apply sound_change. intros a. left. reflexivity.
      * apply sound_ret. split; reflexivity.
  - apply sound_ret. split; reflexivity.
Qed.

Lemma sound_System_process t : sound (fun _ => True) (System_process t).
Proof.
  unfold System_process.
  apply sound_then with (R := fun _ => True);
    apply sound_change; intros a; left; reflexivity.
Qed.

Lemma sound_extend cls t :
  sound (extended t) (on_tracker (src t) (fun balance => extend_branches cls balance t)).
Proof. apply sound_on_tracker. intros bal. apply keeps_extend_branches. reflexivity. Qed.

Lemma sound_process_extend cls fc tw t src_track tgt_track :
  sound (fun _ => True) (process_extend cls fc tw t src_track tgt_track).
Proof.
  unfold process_extend.
  destruct (gtb (amt_out t) (resolution_limit cls)); [|apply sound_ret; exact I].
  apply (sound_bind (Forall (held_by (tgt t)))).
  - destruct src_track.
    + apply sound_then with (R := fun _ => True); [apply sound_start_tracking|].
      apply (sound_bind (extended t)); [apply sound_extend|].
      intros [new_branches new_flows] [Hnew Hflows]. simpl in Hnew, Hflows.
      apply (sound_bind (Forall a_path)); [apply sound_pure; exact Hflows|].
      intros flows Hf.
      apply sound_then with (R := fun _ => True); [apply sound_yield; exact Hf|].
      apply sound_ret. exact Hnew.
    + apply (sound_bind (fun _ => True)); [apply sound_the_account|]. intros s _.
      apply sound_then with (R := fun _ => True).
      * destruct (has_tracker s); [|apply sound_ret; exact I].
        apply (sound_bind (extended t)); [apply sound_extend|].
        intros [new_branches new_flows] [Hnew Hflows]. simpl in Hnew, Hflows.
        apply (sound_bind (Forall a_path)).
        { apply sound_pure. intros leaves Hl.
          exact (new_leaves_paths _ _ _ (held_connected _ _ Hnew) Hl). }
        intros leaves Hleaves.
        apply (sound_bind (Forall a_path)); [apply sound_pure; exact Hflows|].
        intros flows Hf. apply sound_yield. apply Forall_app. split; assumption.
      * destruct tgt_track; [|apply sound_ret; constructor].
        destruct (gtb (amt_in t) (resolution_limit cls)).
        -- apply sound_ret. constructor; [apply held_by_root|constructor].
        -- apply (sound_bind a_path).
           ++ apply sound_pure. intros flow Hf.
              exact (follow_back_path _ _ _ _ (proj2 (held_by_root t _)) Hf).
           ++ intros flow Hf. apply sound_then with (R := fun _ => True).
              ** apply sound_yield. constructor; [exact Hf|constructor].
              ** apply sound_ret. constructor.
  - intros new_branches Hnew. destruct tgt_track.
    + apply sound_then with (R := fun _ => True); [apply sound_start_tracking|].
      apply sound_on_tracker. intros _. apply keeps_add_branches. exact Hnew.
    + apply (sound_bind (Forall a_path)).
      * apply sound_pure. intros leaves Hl.
        exact (new_leaves_paths _ _ _ (held_connected _ _ Hnew) Hl).
      * intros leaves Hl. apply sound_yield. exact Hl.
Qed.

Lemma sound_track_transaction cls fc tw bt t :
  sound (fun _ => True) (track_transaction cls fc tw bt t).
Proof.
  unfold track_transaction.
  apply sound_then with (R := fun _ => True).
  - apply (sound_try (fun _ => True)). apply sound_then with (R := fun _ => True).
    + destruct (time_cutoff cls) as [cutoff|]; [|apply sound_ret; exact I].
      destruct (cutoff =? 0)%Z; [apply sound_ret; exact I|apply sound_check_trackers].
    + apply sound_check_balances.
  - destruct (tracking_of (categ t)) as [src_track tgt_track].
    apply (sound_bind (fun _ => True)).
    + apply (sound_try _ _ (sound_process_correct cls fc tw t tgt_track)).
    + intros [t'|e] _.
      * apply sound_then with (R := fun _ => True); [|apply sound_System_process].
        apply (sound_try _ _ (sound_process_extend cls fc tw t' src_track tgt_track)).
      * apply sound_System_process.
Qed.

Lemma sound_track_transactions cls fc tw bt txns :
  sound (fun _ => True) (track_transactions cls fc tw bt txns).
Proof.
  induction txns as [|t txns IH]; [apply sound_ret; exact I|].
  cbn [track_transactions].
  apply sound_then with (R := fun _ => True); [apply sound_track_transaction|exact IH].
Qed.

Lemma trackers_hold_with_account id σ :
  trackers_hold σ -> trackers_hold (with_account id σ).
Proof.
  intros Hσ id' a self. rewrite with_account_get.
  destruct (get_account id' σ) as [a'|] eqn:Ea.
  - intros [= <-]. exact (Hσ id' a' self Ea).
  - destruct (String.eqb id id'); [|discriminate]. intros [= <-] H. discriminate H.
Qed.

Lemma sound_initialize_transactions fc gtc gc body rows :
  (forall t, sound (fun _ => True) (body t)) ->
  sound (fun _ : unit => True) (initialize_transactions fc gtc rows gc body).
Proof.
  intros Hbody. induction rows as [|row rows IH]; [apply sound_ret; exact I|].
  intros σ Hσ. rewrite initialize_transactions_cons. cbv zeta.
  pose proof (trackers_hold_with_account (tgt_ID row) _
                (trackers_hold_with_account (src_ID row) _ Hσ)) as H1.
  destruct (Transaction_create fc gtc (src_ID row) (tgt_ID row) (fields row) gc) as [t|e].
  - exact (sound_then _ _ _ _ (Hbody t) IH _ H1).
  - exact (IH _ H1).
Qed.




Lemma System_reset_holds cls fc tw no_balance σ :
  List.NoDup (map fst σ) ->
  trackers_hold (accounts_after (System_reset cls fc tw no_balance σ)).
Proof.
  intros Hnd.
  destruct (System_reset_from_spec cls fc tw no_balance (map fst σ) σ Hnd (fun id H => H))
    as (_ & _ & Hk & Hget).
  cbv zeta in Hk, Hget. fold (System_reset cls fc tw no_balance σ) in Hk, Hget.
  intros id a' self Ha' Ht.
  assert (Hin : In id (map fst σ)).
  { rewrite <- Hk. exact (get_account_key _ _ _ Ha'). }
  destruct (get_account_present _ _ Hin) as [a Ha].
  destruct (proj1 (Hget id) Hin a Ha) as (a'' & Ha'' & _ & Hheld).
  rewrite Ha' in Ha''. injection Ha'' as <-. exact (Hheld self Ht).
Qed.





(** The run on the three rows, greedy and without inference: the 30
    that went from A to B to C, of which 29 arrived, and the 20 that
    stayed in B. *)
Lemma run_three_rows :
  map (fun flow => (flow_acct_IDs flow, Qred (flow_amt flow), flow_txn_IDs flow))
    (yielded (run (plain greedy) (Some recipient) window None get_txn_categ_default
                false three_rows [])) =
  [(["A"; "B"], 20, ["r1"]); (["A"; "B"; "C"], 30, ["r1"; "r2"])].
Proof. vm_compute. reflexivity. Qed.

(** ** What the trackers hold *)

Lemma run_trackers cls fc tw bt gtc no_balance rows system :
  List.NoDup (map fst system) ->
  trackers_hold
    (accounts_after
       ((System_reset cls fc tw no_balance;;
         initialize_transactions fc gtc rows true (track_transaction cls fc tw bt)) system)).
Proof.
  intros Hnd.
  destruct (System_reset_from_spec cls fc tw no_balance (map fst system) system Hnd
              (fun id H => H)) as (Ho & _).
  cbv zeta in Ho. fold (System_reset cls fc tw no_balance system) in Ho.
  rewrite (bind_run _ _ system tt Ho). cbn [accounts_after].
  apply (sound_initialize_transactions fc gtc true (track_transaction cls fc tw bt) rows).
  - intros t. apply sound_track_transaction.
  - apply System_reset_holds. exact Hnd.
Qed.

(** X19: a tracker holds what entered its account.  After the reset and
    the tracking of any rows, on a system whose keys are distinct, every
    branch in the tracker of an account belongs to a transaction whose
    target is that account, and the chain behind the branch is
    connected: each transaction on it leaves the account that the one
    before it entered. *)
Theorem trackers_hold_what_entered
    (cls : TrackerClass) (fc : option FeeConvention) (tw : Z * Z)
    (bt : option BalanceType) (get_txn_categ : Transaction -> Res (string * string))
    (no_balance : bool) (rows : list Row) (system : Accounts) :
  List.NoDup (map fst system) ->
  let o := (System_reset cls fc tw no_balance;;
            initialize_transactions fc get_txn_categ rows true
              (track_transaction cls fc tw bt)) system in
  Forall (fun id =>
            forall a self,
              get_account id (accounts_after o) = Some a -> tracker a = Some self ->
              Forall (fun b => tgt (txn b) = id /\ connected b) self)
    (map fst (accounts_after o)).
Proof.
  intros Hnd o. apply Forall_forall. intros id _ a self Ha Ht.
  exact (run_trackers cls fc tw bt get_txn_categ no_balance rows system Hnd id a self
           Ha Ht).
Qed.

Lemma trackers_hold_what_entered_witness :
  let o := (System_reset (inferring greedy) (Some recipient) window false;;
            initialize_transactions (Some recipient) get_txn_categ_default three_rows true
              (track_transaction (inferring greedy) (Some recipient) window None)) [] in
  Forall (fun id =>
            forall a self,
              get_account id (accounts_after o) = Some a -> tracker a = Some self ->
              Forall (fun b => tgt (txn b) = id /\ connected b) self)
    (map fst (accounts_after o)).
Proof.
  apply (trackers_hold_what_entered (inferring greedy) (Some recipient) window None
           get_txn_categ_default false three_rows []).
  constructor.
Defined.

(** The trackers when the three rows were tracked with inference on:
    the 20 that stayed in B, the 29 that arrived in C, and nothing left
    in A; the accounts of the rejected row were never tracked. *)
Lemma trackers_three_rows :
  map (fun entry =>
         (fst entry,
          option_map (map (fun b => (txn_ID (txn b), Qred (amt b)))) (tracker (snd entry))))
    (accounts_after
       ((System_reset (inferring greedy) (Some recipient) window false;;
         initialize_transactions (Some recipient) get_txn_categ_default three_rows true
           (track_transaction (inferring greedy) (Some recipient) window None)) [])) =
  [("A", Some []); ("B", Some [("r1", 20)]); ("C", Some [("r2", 29)]);
   ("D", None); ("E", None)].
Proof. vm_compute. reflexivity. Qed.

(** ** A run goes through *)

(** [System.process] is outside the two [try] blocks of
    [track_transactions]; it changes two balances and does not raise. *)
Lemma track_transaction_returns cls fc tw bt t σ :
  outcome (track_transaction cls fc tw bt t σ) = OK tt.
Proof.
  unfold track_transaction. rewrite try_bind_run. cbn [outcome].
  destruct (tracking_of (categ t)) as [src_track tgt_track].
  rewrite try_bind_run. cbn [outcome].
  destruct (outcome (process_correct cls fc tw t tgt_track _)) as [t'|e].
  - rewrite try_bind_run. cbn [outcome]. reflexivity.
  - reflexivity.
Qed.

Lemma initialize_transactions_returns fc gtc gc body rows :
  (forall t σ, outcome (body t σ) = OK tt) ->
  forall σ, outcome (initialize_transactions fc gtc rows gc body σ) = OK tt.
Proof.
  intros Hbody. induction rows as [|row rows IH]; intros σ; [reflexivity|].
  rewrite initialize_transactions_cons. cbv zeta.
  destruct (Transaction_create fc gtc (src_ID row) (tgt_ID row) (fields row) gc) as [t|e].
  - rewrite (bind_run _ _ _ tt (Hbody t _)). cbn [outcome]. apply IH.
  - apply IH.
Qed.

(** X20: no row stops a run.  For a resolution limit that is not
    negative, on a system whose keys are distinct, and for rows whose
    amounts are numbers: what fails for one row or one transaction is
    passed over; the reset, the tracking of all rows and the flush at the
    end return, and every account is left with a balance of zero and no
    tracker. *)
Theorem run_goes_through
    (cls : TrackerClass) (fc : option FeeConvention) (tw : Z * Z)
    (bt : option BalanceType) (get_txn_categ : Transaction -> Res (string * string))
    (no_balance : bool) (rows : list Row) (system : Accounts) :
  0 <= resolution_limit cls ->
  List.NoDup (map fst system) ->
  let o := run cls fc tw bt get_txn_categ no_balance rows system in
  outcome o = OK tt /\
  forall id a, get_account id (accounts_after o) = Some a ->
               balance a = 0 /\ tracker a = None.
Proof.
  intros _ Hnd o. subst o. unfold run. cbn [outcome accounts_after].
  destruct (System_reset_from_spec cls fc tw no_balance (map fst system) system Hnd
              (fun id H => H)) as (Ho & _).
  cbv zeta in Ho. fold (System_reset cls fc tw no_balance system) in Ho.
  rewrite (bind_run _ _ system tt Ho). cbn [outcome accounts_after].
  rewrite (bind_run _ _ _ tt
             (initialize_transactions_returns fc get_txn_categ true
                (track_transaction cls fc tw bt) rows
                (track_transaction_returns cls fc tw bt) _)).
  cbn [outcome accounts_after]. unfold track_remaining_funds.
  match goal with
  | |- context [track_remaining_funds_from cls fc tw (map fst ?s) ?s] =>
      destruct (track_remaining_funds_from_run cls fc tw (map fst s) s) as (Ho' & Hv & Hs)
  end.
  split; [exact Ho'|]. intros id a Ha.
  apply (Hs id); [|exact Ha]. left.
  rewrite <- (viewed_keys _ _ _ Hv). exact (get_account_key _ _ _ Ha).
Qed.

Lemma run_goes_through_witness :
  0 <= resolution_limit (plain greedy) /\
  let o := run (plain greedy) (Some recipient) window None get_txn_categ_default
             false three_rows [] in
  outcome o = OK tt /\
  forall id a, get_account id (accounts_after o) = Some a ->
               balance a = 0 /\ tracker a = None.
Proof.
  assert (H : 0 <= resolution_limit (plain greedy)).
  { vm_compute. intros E. discriminate E. }
  split; [exact H|].
  apply (run_goes_through (plain greedy) (Some recipient) window None
           get_txn_categ_default false three_rows [] H).
  constructor.
Defined.
